(** * A shallow embedding of the free-list allocator of [mm.c]

    The allocator keeps every block of the arena in an address-ordered
    chain (each header stores its size and a pointer to the previous
    block) and keeps the free blocks in a doubly-linked list whose links
    live in the payload of the free blocks.  The embedding follows the C
    code statement by statement over a flat memory of 8-byte cells, with
    the integer conversions of the LP64 data model written out. *)

From Stdlib Require Import ZArith List Lia Bool.
Import ListNotations.
Open Scope Z_scope.

(** ** Machine integers (LP64: [long], [size_t] and pointers are 64 bits) *)

Definition ULONG_MOD : Z := Eval cbv in 2 ^ 64.
Definition LONG_HALF : Z := Eval cbv in 2 ^ 63.

(** Conversion to [size_t] / [unsigned long] / a pointer value. *)
Definition to_ulong (x : Z) : Z := x mod ULONG_MOD.

(** Conversion to [long int] (two's complement). *)
Definition to_long (x : Z) : Z := (x + LONG_HALF) mod ULONG_MOD - LONG_HALF.

(** ** Layout of [Block] *)

(** [sizeof(BlockInfo)]: a [long] and a pointer. *)
Definition sizeof_BlockInfo : Z := 16.
(** [sizeof(FreeBlockInfo)]: two pointers. *)
Definition sizeof_FreeBlockInfo : Z := 16.
(** [#define ALIGNMENT (sizeof(FreeBlockInfo))] *)
Definition ALIGNMENT : Z := sizeof_FreeBlockInfo.

Definition NULL : Z := 0.

(** ** Memory

    A memory maps a byte address to the 8-byte cell stored there.  Every
    access of [mm.c] is to a field of a [Block], at offset 0, 8, 16 or 24
    of the block's address. *)

Definition memory : Type := Z -> Z.

Definition store (m : memory) (a v : Z) : memory :=
  fun x => if x =? a then v else m x.

(** [b->info.size] *)
Definition get_size (m : memory) (b : Z) : Z := to_long (m b).
Definition set_size (m : memory) (b v : Z) : memory := store m b v.
(** [b->info.prev] *)
Definition get_prev (m : memory) (b : Z) : Z := to_ulong (m (b + 8)).
Definition set_prev (m : memory) (b v : Z) : memory := store m (b + 8) v.
(** [b->freeNode.nextFree] *)
Definition get_nextFree (m : memory) (b : Z) : Z := to_ulong (m (b + 16)).
Definition set_nextFree (m : memory) (b v : Z) : memory := store m (b + 16) v.
(** [b->freeNode.prevFree] *)
Definition get_prevFree (m : memory) (b : Z) : Z := to_ulong (m (b + 24)).
Definition set_prevFree (m : memory) (b v : Z) : memory := store m (b + 24) v.

(** ** Allocator state: the three globals of [mm.c], the memory, and the
    break of the arena primitive. *)

Record State : Type := mkState {
  mem : memory;
  free_list_head : Z;
  malloc_list_tail : Z;
  heap_size : Z;
  mem_brk : Z
}.

Definition with_mem (st : State) (m : memory) : State :=
  mkState m (free_list_head st) (malloc_list_tail st) (heap_size st) (mem_brk st).
Definition with_head (st : State) (h : Z) : State :=
  mkState (mem st) h (malloc_list_tail st) (heap_size st) (mem_brk st).
Definition with_tail (st : State) (t : Z) : State :=
  mkState (mem st) (free_list_head st) t (heap_size st) (mem_brk st).
Definition with_heap_size (st : State) (n : Z) : State :=
  mkState (mem st) (free_list_head st) (malloc_list_tail st) n (mem_brk st).
Definition with_brk (st : State) (n : Z) : State :=
  mkState (mem st) (free_list_head st) (malloc_list_tail st) (heap_size st) n.

(** What a call of [mm_malloc] can do. *)
Inductive outcome : Type :=
| Returns (st : State) (p : Z)   (* the call returns [p] *)
| Exits                          (* [requestMoreSpace] called [exit(0)] *)
| OutOfFuel.                     (* the scan of the free list did not finish *)

Section Allocator.

(** Modelled from the spec: the arena primitive of [memlib.h] is not part
    of the sources.  [mem_heap_lo] is the stable base pointer of the arena;
    [mem_sbrk] extends the arena by the requested byte count and fails only
    on exhaustion, that is when the arena would exceed [MAX_HEAP] bytes. *)
Variable mem_heap_lo : Z.
Variable MAX_HEAP : Z.

(** Modelled from the spec: [mem_sbrk], see above.  [None] is the
    failure result [(void* )-1]. *)
Definition mem_sbrk (st : State) (incr : Z) : option State :=
  if mem_brk st + incr <=? MAX_HEAP
  then Some (with_brk st (mem_brk st + incr))
  else None.

(** [searchFreeList]: the [while] loop, with [fuel] bounding the number of
    iterations. *)
Fixpoint search_loop (fuel : nat) (m : memory) (ptrFreeBlock checkSize : Z)
  : option Z :=
  if ptrFreeBlock =? NULL then Some NULL
  else match fuel with
       | O => None
       | S fuel' =>
           if get_size m ptrFreeBlock <=? checkSize then Some ptrFreeBlock
           else search_loop fuel' m (get_nextFree m ptrFreeBlock) checkSize
       end.

Definition searchFreeList (fuel : nat) (st : State) (reqSize : Z) : option Z :=
  let ptrFreeBlock := free_list_head st in
  let checkSize := to_long (to_ulong (- reqSize)) in
  if negb (malloc_list_tail st =? NULL)
     && (get_size (mem st) (malloc_list_tail st) <=? checkSize)
  then Some (malloc_list_tail st)
  else search_loop fuel (mem st) ptrFreeBlock checkSize.

Definition insertFreeBlock (st : State) (freeBlock : Z) : State :=
  if freeBlock =? NULL then st
  else
    let m1 := set_prevFree (mem st) freeBlock NULL in
    let m2 :=
      if negb (free_list_head st =? NULL)
      then set_prevFree (set_nextFree m1 freeBlock (free_list_head st))
                        (free_list_head st) freeBlock
      else set_nextFree m1 freeBlock NULL in
    with_head (with_mem st m2) freeBlock.

Definition removeFreeBlock (st : State) (freeBlock : Z) : State :=
  if freeBlock =? NULL then st
  else if free_list_head st =? NULL then st
  else
    let prev := get_prevFree (mem st) freeBlock in
    let next := get_nextFree (mem st) freeBlock in
    if negb (prev =? NULL) && negb (next =? NULL) then
      with_mem st (set_prevFree (set_nextFree (mem st) prev next) next prev)
    else if (prev =? NULL) && negb (next =? NULL) then
      with_mem (with_head st next) (set_prevFree (mem st) next NULL)
    else if negb (prev =? NULL) && (next =? NULL) then
      with_mem st (set_nextFree (mem st) prev NULL)
    else
      with_head st NULL.

(** [requestMoreSpace]: [None] when [mem_sbrk] fails and the process
    exits. *)
Definition requestMoreSpace (st : State) (reqSize : Z) : option (State * Z) :=
  let ret := to_ulong (mem_heap_lo + heap_size st) in
  let st1 := with_heap_size st (to_ulong (heap_size st + reqSize)) in
  match mem_sbrk st1 reqSize with
  | None => None
  | Some st2 => Some (st2, ret)
  end.

Definition mm_init (st : State) : State * Z :=
  (with_heap_size (with_tail (with_head st NULL) NULL) 0, 0).

Definition first_block (st : State) : Z :=
  if heap_size st =? 0 then NULL else mem_heap_lo.

Definition next_block (st : State) (block : Z) : Z :=
  let distance :=
    to_ulong (if 0 <? get_size (mem st) block
              then get_size (mem st) block
              else to_long (- get_size (mem st) block)) in
  let endp := to_ulong (mem_heap_lo + heap_size st) in
  let next := to_ulong (block + to_ulong (sizeof_BlockInfo + distance)) in
  if endp <=? next then NULL else next.

(** The rounding of the request in [mm_malloc]:
    [reqSize = size; reqSize = ALIGNMENT * ((reqSize + ALIGNMENT - 1) / ALIGNMENT);]
    with [reqSize] a [long int] and [ALIGNMENT] a [size_t]. *)
Definition round_request (size : Z) : Z :=
  let reqSize := to_long size in
  to_long (to_ulong (ALIGNMENT *
    (to_ulong (to_ulong (to_ulong reqSize + ALIGNMENT) - 1) / ALIGNMENT))).

Definition mm_malloc (fuel : nat) (st : State) (size : Z) : outcome :=
  if size =? 0 then Returns st NULL
  else
    let reqSize := round_request size in
    match searchFreeList fuel st (to_ulong reqSize) with
    | None => OutOfFuel
    | Some ptrFreeBlock =>
        if ptrFreeBlock =? NULL then
          (* == No Free Blocks to Use == *)
          match requestMoreSpace st
                  (to_ulong (sizeof_BlockInfo + to_ulong reqSize)) with
          | None => Exits
          | Some (st1, ptrFreeBlock) =>
              if ptrFreeBlock =? NULL then Returns st1 NULL
              else
                let m1 := set_size (mem st1) ptrFreeBlock reqSize in
                let m2 := set_prev m1 ptrFreeBlock (malloc_list_tail st1) in
                Returns (with_tail (with_mem st1 m2) ptrFreeBlock)
                        (to_ulong (ptrFreeBlock + sizeof_BlockInfo))
          end
        else if to_ulong (to_ulong reqSize + sizeof_BlockInfo)
                <? to_ulong (to_long (- get_size (mem st) ptrFreeBlock)) then
          (* == Split Existing Block == *)
          let nextBlock := next_block st ptrFreeBlock in
          let splitBlock :=
            to_ulong (ptrFreeBlock + to_ulong (to_ulong reqSize + sizeof_BlockInfo)) in
          let st1 := removeFreeBlock st ptrFreeBlock in
          let m1 := set_size (mem st1) splitBlock
                      (to_long (to_ulong
                         (to_ulong (to_long (get_size (mem st1) ptrFreeBlock + reqSize))
                          + sizeof_BlockInfo))) in
          let m2 := set_size m1 ptrFreeBlock reqSize in
          let m3 := set_prev m2 splitBlock ptrFreeBlock in
          let st2 :=
            if negb (nextBlock =? NULL)
            then with_mem st1 (set_prev m3 nextBlock splitBlock)
            else with_tail (with_mem st1 m3) splitBlock in
          Returns (insertFreeBlock st2 splitBlock)
                  (to_ulong (ptrFreeBlock + sizeof_BlockInfo))
        else
          (* == Exact Size == *)
          let m1 := set_size (mem st) ptrFreeBlock
                      (to_long (- get_size (mem st) ptrFreeBlock)) in
          Returns (removeFreeBlock (with_mem st m1) ptrFreeBlock)
                  (to_ulong (ptrFreeBlock + sizeof_BlockInfo))
    end.

(** The size a block gets when it absorbs a neighbour:
    [(a->info.size + b->info.size) - sizeof(BlockInfo)]. *)
Definition merged_size (a b : Z) : Z :=
  to_long (to_ulong (to_ulong (to_long (a + b)) - sizeof_BlockInfo)).

(** [coalesce], the block [// If PREV is free]: the state and the value of
    [blockInfo] after it. *)
Definition merge_prev (st : State) (blockInfo nextBlock previousBlock : Z)
  : State * Z :=
  if negb (previousBlock =? NULL) && (get_size (mem st) previousBlock <? 0)
  then
    let sa := removeFreeBlock st previousBlock in
    let ma := set_size (mem sa) previousBlock
                (merged_size (get_size (mem sa) previousBlock)
                             (get_size (mem sa) blockInfo)) in
    let sb :=
      if negb (nextBlock =? NULL)
      then with_mem sa (set_prev ma nextBlock previousBlock)
      else with_tail (with_mem sa ma) previousBlock in
    (sb, previousBlock)
  else (st, blockInfo).

(** [coalesce], the block [// If NEXT is free]. *)
Definition merge_next (st : State) (blockInfo nextBlock : Z) : State :=
  if negb (nextBlock =? NULL) && (get_size (mem st) nextBlock <? 0)
  then
    let sa := removeFreeBlock st nextBlock in
    let ma := set_size (mem sa) blockInfo
                (merged_size (get_size (mem sa) blockInfo)
                             (get_size (mem sa) nextBlock)) in
    let sb := with_mem sa ma in
    let nextNext := next_block sb nextBlock in
    if negb (nextNext =? NULL)
    then with_mem sb (set_prev (mem sb) nextNext blockInfo)
    else with_tail sb blockInfo
  else st.

Definition coalesce (st : State) (blockInfo : Z) : State :=
  if (blockInfo =? NULL) || (0 <=? get_size (mem st) blockInfo) then st
  else
    let nextBlock := next_block st blockInfo in
    let previousBlock := get_prev (mem st) blockInfo in
    if (nextBlock =? NULL) && (previousBlock =? NULL) then
      insertFreeBlock st blockInfo
    else
      let '(st1, blockInfo1) :=
        merge_prev st blockInfo nextBlock previousBlock in
      let st2 := merge_next st1 blockInfo1 nextBlock in
      insertFreeBlock st2 blockInfo1.

Definition mm_free (st : State) (ptr : Z) : State :=
  if ptr =? NULL then st
  else
    let blockInfo := to_ulong (ptr - sizeof_BlockInfo) in
    let m1 := set_size (mem st) blockInfo
                (to_long (- get_size (mem st) blockInfo)) in
    coalesce (with_mem st m1) blockInfo.

(** ** Abstract view of a heap

    The chain is described by the list of its blocks in address order, each
    with its address and stored size; the free list by the list of its
    members from the head on. *)

Definition block : Type := (Z * Z)%type.

(** A stored size of a real block: a non-zero multiple of the alignment. *)
Definition valid_size (s : Z) : Prop := s mod ALIGNMENT = 0 /\ s <> 0.

(** [chain m prev a bs e]: the blocks [bs] tile the addresses from [a] to
    [e], every header holds its size, and every [prev] field points to the
    block before ([prev] for the first one). *)
Fixpoint chain (m : memory) (prev a : Z) (bs : list block) (e : Z) : Prop :=
  match bs with
  | [] => a = e
  | (x, s) :: rest =>
      x = a /\ get_size m a = s /\ get_prev m a = prev /\ valid_size s /\
      chain m a (a + sizeof_BlockInfo + Z.abs s) rest e
  end.

(** Address of the last block of [bs], [d] when there is none. *)
Definition last_addr (d : Z) (bs : list block) : Z := last (map fst bs) d.

(** [dll m prevf h fl]: starting at [h], the [nextFree] links visit exactly
    the members of [fl] and end with [NULL]; the [prevFree] links point
    back ([prevf] for the first member). *)
Fixpoint dll (m : memory) (prevf h : Z) (fl : list Z) : Prop :=
  match fl with
  | [] => h = NULL
  | f :: rest =>
      h = f /\ f <> NULL /\ get_prevFree m f = prevf /\
      dll m f (get_nextFree m f) rest
  end.

(** Stored size of the first block of [bs]; a positive size when there is
    none. *)
Definition first_size (bs : list block) : Z := hd 1 (map snd bs).

(** No two neighbours of the chain are both free. *)
Fixpoint no_adjacent_free (bs : list block) : Prop :=
  match bs with
  | [] => True
  | (_, s1) :: rest =>
      ~ (s1 < 0 /\ first_size rest < 0) /\ no_adjacent_free rest
  end.

(** The heap of [st] is represented by the chain [bs] and the free list
    [fl], and every member of the free list is a block of the chain. *)
Record rep (st : State) (bs : list block) (fl : list Z) : Prop := mkRep {
  rep_size : 0 <= heap_size st <= mem_brk st;
  rep_brk : mem_brk st <= MAX_HEAP;
  rep_chain : chain (mem st) NULL mem_heap_lo bs (mem_heap_lo + heap_size st);
  rep_tail : malloc_list_tail st = last_addr NULL bs;
  rep_dll : dll (mem st) NULL (free_list_head st) fl;
  rep_nodup : NoDup fl;
  rep_sub : forall f, In f fl -> exists s, In (f, s) bs
}.

(** The invariant of the allocator between calls: on top of [rep], the
    members of the free list are exactly the blocks of negative size (I2)
    and no two neighbours are free (I3). *)
Record wf (st : State) (bs : list block) (fl : list Z) : Prop := mkWf {
  wf_rep : rep st bs fl;
  wf_free : forall a, In a fl <-> exists s, In (a, s) bs /\ s < 0;
  wf_nadj : no_adjacent_free bs
}.

(** Walking the chain as [check_heap] does: from [first_block] by
    [next_block]. *)
Inductive in_chain (st : State) : Z -> Prop :=
| in_chain_first :
    first_block st <> NULL -> in_chain st (first_block st)
| in_chain_next b :
    in_chain st b -> next_block st b <> NULL -> in_chain st (next_block st b).

(** Walking the free list: from [free_list_head] by [nextFree]. *)
Inductive in_free_list (st : State) : Z -> Prop :=
| in_free_list_head :
    free_list_head st <> NULL -> in_free_list st (free_list_head st)
| in_free_list_next b :
    in_free_list st b -> get_nextFree (mem st) b <> NULL ->
    in_free_list st (get_nextFree (mem st) b).

(** ** Auxiliary definitions for the proofs *)

(** Addresses that can carry a [FreeBlockInfo]: aligned pointer values. *)
Definition node_ok (g : Z) : Prop := g mod 16 = 0 /\ 0 <= g < ULONG_MOD.

(** The memory after [removeFreeBlock] has unlinked a member whose
    neighbours in the list are [prev] (if [hasp]) and [next] (if [hasn]). *)
Definition unlink (m : memory) (prev next : Z) (hasp hasn : bool) : memory :=
  let m1 := if hasp then set_nextFree m prev next else m in
  if hasn then set_prevFree m1 next prev else m1.

Definition is_nil {A} (l : list A) : bool :=
  match l with [] => true | _ => false end.

(** Address of the first block of [bs], [NULL] when there is none. *)
Definition first_addr (bs : list block) : Z := hd NULL (map fst bs).

(** A block takes over the extent of the block that follows it:
    the size is rewritten, and the [prev] field of the block after the
    absorbed one ([nx]), or else the tail of the chain, is repointed. *)
Definition absorb (st : State) (a v nx : Z) : State :=
  let m := set_size (mem st) a v in
  if negb (nx =? NULL) then with_mem st (set_prev m nx a)
  else with_tail (with_mem st m) a.

(** The writes of the split in [mm_malloc]: a header for the fragment at
    [sp], the new size [r] of the block [p], and the [prev] field of the
    next block ([nx]), or else the tail of the chain. *)
Definition carve (st : State) (p r sp v nx : Z) : State :=
  let m1 := set_size (mem st) sp v in
  let m2 := set_size m1 p r in
  let m3 := set_prev m2 sp p in
  if negb (nx =? NULL) then with_mem st (set_prev m3 nx sp)
  else with_tail (with_mem st m3) sp.

(** A new block of size [r] at the end of the arena, after
    [requestMoreSpace] has extended it by [16 + r] bytes. *)
Definition append (st : State) (r : Z) : State :=
  let e := mem_heap_lo + heap_size st in
  let m1 := set_size (mem st) e r in
  let m2 := set_prev m1 e (malloc_list_tail st) in
  mkState m2 (free_list_head st) e (heap_size st + (16 + r))
          (mem_brk st + (16 + r)).

(** Stored size of the last block of [bs]; a positive size when there is
    none. *)
Definition last_size (bs : list block) : Z := last (map snd bs) 1.

(** How a successful [mm_malloc] changes the chain and the free list:
    [e] is the end of the arena before the call, [r] the rounded size,
    [p] the payload address that is returned, [g] the number of bytes
    the arena has grown by. *)
Inductive alloc_step (e r : Z) (bs : list block) (fl : list Z) (p : Z)
  : list block -> list Z -> Z -> Prop :=
| alloc_grow :
    p = e + 16 ->
    (forall a s, In (a, s) bs -> - r < s) ->
    alloc_step e r bs fl p (bs ++ [(e, r)]) fl (16 + r)
| alloc_split b bs1 s bs2 l1 l2 :
    p = b + 16 ->
    bs = bs1 ++ (b, s) :: bs2 -> fl = l1 ++ b :: l2 ->
    r + 16 < - s ->
    alloc_step e r bs fl p
      (bs1 ++ (b, r) :: (b + 16 + r, s + r + 16) :: bs2)
      ((b + 16 + r) :: l1 ++ l2) 0
| alloc_exact b bs1 s bs2 l1 l2 :
    p = b + 16 ->
    bs = bs1 ++ (b, s) :: bs2 -> fl = l1 ++ b :: l2 ->
    r <= - s <= r + 16 ->
    alloc_step e r bs fl p (bs1 ++ (b, - s) :: bs2) (l1 ++ l2) 0.

(** The state of [coalesce] between its steps: the block [z] is free but
    not yet in the free list; every other free block is. *)
Record pending (st : State) (bsA : list block) (z v : Z) (bsB : list block)
  (fl : list Z) : Prop := mkPending {
  pd_rep : rep st (bsA ++ (z, v) :: bsB) fl;
  pd_neg : v < 0;
  pd_out : ~ In z fl;
  pd_free : forall a, In a fl <->
              exists w, (In (a, w) bsA \/ In (a, w) bsB) /\ w < 0;
  pd_nafA : no_adjacent_free bsA;
  pd_nafB : no_adjacent_free bsB
}.

(** What [// If PREV is free] does to the chain and the free list. *)
Inductive prev_merge (bs1 : list block) (x v : Z) (fl : list Z)
  : list block -> Z -> Z -> list Z -> Prop :=
| prev_kept :
    0 <= last_size bs1 -> prev_merge bs1 x v fl bs1 x v fl
| prev_absorbs bs0 y t l1 l2 :
    bs1 = bs0 ++ [(y, t)] -> t < 0 -> fl = l1 ++ y :: l2 ->
    prev_merge bs1 x v fl bs0 y (t + v - 16) (l1 ++ l2).

(** What [// If NEXT is free] does to the chain and the free list. *)
Inductive next_merge (bs2 : list block) (v : Z) (fl : list Z)
  : Z -> list block -> list Z -> Prop :=
| next_kept :
    0 <= first_size bs2 -> next_merge bs2 v fl v bs2 fl
| next_absorbed c w bs3 l1 l2 :
    bs2 = (c, w) :: bs3 -> w < 0 -> fl = l1 ++ c :: l2 ->
    next_merge bs2 v fl (v + w - 16) bs3 (l1 ++ l2).

(** How [mm_free] changes the chain and the free list: the block of the
    payload [p] becomes free, absorbs its free neighbours, and enters the
    free list at the head. *)
Inductive free_step (bs : list block) (fl : list Z) (p : Z)
  : list block -> list Z -> Prop :=
| free_step_intro bs1 s bs2 bsA z v1 flA v2 bsB flB :
    bs = bs1 ++ (p - 16, s) :: bs2 -> 0 < s ->
    prev_merge bs1 (p - 16) (- s) fl bsA z v1 flA ->
    next_merge bs2 v1 flA v2 bsB flB ->
    free_step bs fl p (bsA ++ (z, v2) :: bsB) (z :: flB).

(** Largest request whose rounded size still fits a [long int]. *)
Definition MAX_REQUEST : Z := LONG_HALF - 16.

(** States reached by calls of [mm_init], [mm_malloc] and [mm_free], with
    the payload pointers the client holds.  The client frees only
    pointers it holds, asks for at most [limit] bytes at a time, and
    between the calls may write to the payloads it holds. *)
Inductive reachable (limit : Z) : State -> list Z -> Prop :=
| reach_init st :
    0 <= mem_brk st <= MAX_HEAP ->
    reachable limit (fst (mm_init st)) []
| reach_reinit st live :
    reachable limit st live ->
    reachable limit (fst (mm_init st)) []
| reach_malloc st live fuel n st' p :
    reachable limit st live ->
    0 <= n <= limit ->
    mm_malloc fuel st n = Returns st' p ->
    reachable limit st' (if p =? NULL then live else p :: live)
| reach_free st live p :
    reachable limit st live ->
    In p live ->
    reachable limit (mm_free st p) (remove Z.eq_dec p live)
| reach_free_null st live :
    reachable limit st live ->
    reachable limit (mm_free st NULL) live
| reach_write st live p w v :
    reachable limit st live ->
    In p live ->
    p <= w -> w + 8 <= p + get_size (mem st) (p - sizeof_BlockInfo) ->
    reachable limit (with_mem st (store (mem st) w v)) live.

(** The pointers the client holds are the payloads of the allocated
    blocks. *)
Definition live_blocks (live : list Z) (bs : list block) : Prop :=
  forall q, In q live <-> exists s, In (q - 16, s) bs /\ 0 < s.

(** A heap that satisfies the invariant for some chain and free list. *)
Definition heap_ok (st : State) : Prop := exists bs fl, wf st bs fl.

(** ** The consistency checker

    [check_heap] prints a message for each inconsistency it finds and
    returns 0.  The messages are collected in the order in which they are
    printed; the dump of [examine_heap] that follows each message is left
    out. *)

Inductive heap_error : Type :=
| PrevLinkNotCorrect    (* previous link not correct *)
| FreeListCircular      (* free list is circular *)
| FreeListTooLong.      (* free list has more items than expected *)

(** The first [while] loop of [check_heap], the walk along the chain:
    the messages printed and the final value of [free_count]. *)
Fixpoint check_chain (fuel : nat) (st : State) (curr last free_count : Z)
  : option (list heap_error * Z) :=
  let endp := to_ulong (mem_heap_lo + heap_size st) in
  if negb (curr =? NULL) && (curr <? endp) then
    match fuel with
    | O => None
    | S fuel' =>
        let e1 := if negb (get_prev (mem st) curr =? last)
                  then [PrevLinkNotCorrect] else [] in
        let free_count' :=
          if get_size (mem st) curr <=? 0 then to_long (free_count + 1)
          else free_count in
        match check_chain fuel' st (next_block st curr) curr free_count' with
        | None => None
        | Some (es, n) => Some (e1 ++ es, n)
        end
    end
  else Some ([], free_count).

(** The second [while] loop of [check_heap], the walk along the free
    list. *)
Fixpoint check_free_list (fuel : nat) (m : memory) (curr last free_count : Z)
  : option (list heap_error) :=
  if curr =? NULL then Some []
  else match fuel with
       | O => None
       | S fuel' =>
           let e1 := if curr =? last then [FreeListCircular] else [] in
           let e2 := if free_count =? 0 then [FreeListTooLong] else [] in
           match check_free_list fuel' m (get_nextFree m curr) curr
                   (to_long (free_count - 1)) with
           | None => None
           | Some es => Some (e1 ++ e2 ++ es)
           end
       end.

(** [check_heap]: the messages printed and the value returned; [None]
    when a walk does not finish within [fuel] steps. *)
Definition check_heap (fuel : nat) (st : State) : option (list heap_error * Z) :=
  match check_chain fuel st mem_heap_lo NULL 0 with
  | None => None
  | Some (es1, free_count) =>
      match check_free_list fuel (mem st) (free_list_head st) NULL free_count with
      | None => None
      | Some es2 => Some (es1 ++ es2, 0)
      end
  end.

(** A cell [c] that is neither a header cell of a block of [bs] nor a
    link cell of a free block of [bs]. *)
Definition apart (c : Z) (bs : list block) : Prop :=
  forall a w, In (a, w) bs ->
    c <> a /\ c <> a + 8 /\ (w < 0 -> c <> a + 16 /\ c <> a + 24).

(** Number of blocks of [bs] that [check_heap] counts as free. *)
Definition count_free (bs : list block) : Z :=
  Z.of_nat (length (filter (fun b => snd b <=? 0) bs)).

End Allocator.

(** * Concrete heaps

    An arena of 1 MiB at address 4096 and the states of a few call
    sequences on it. *)

Definition lo : Z := 4096.
Definition mx : Z := 1048576.

(** Fuel for the scans of the examples. *)
Definition fuel8 : nat := 8.

(** A state before the first [mm_init], with an all-zero memory. *)
Definition fresh : State := mkState (fun _ => 0) 0 0 0 0.

Definition state_of (o : outcome) : State :=
  match o with Returns st _ => st | _ => fresh end.
Definition pointer_of (o : outcome) : Z :=
  match o with Returns _ p => p | _ => -1 end.

(** Scenario B, from any state [st0]:
    [init(); a = alloc(64); b = alloc(64); free(a); free(b)].
    The result is the state after the last call, with the pointer [a]. *)
Definition scenario_B (st0 : State) : State * Z :=
  let s0 := fst (mm_init st0) in
  let r1 := mm_malloc lo mx fuel8 s0 64 in
  let r2 := mm_malloc lo mx fuel8 (state_of r1) 64 in
  let s3 := mm_free lo (state_of r2) (pointer_of r1) in
  let s4 := mm_free lo s3 (pointer_of r2) in
  (s4, pointer_of r1).

Definition sB0 : State := fst (mm_init fresh).
Definition sB1 : State := state_of (mm_malloc lo mx fuel8 sB0 64).
Definition ptr_a : Z := pointer_of (mm_malloc lo mx fuel8 sB0 64).
Definition sB2 : State := state_of (mm_malloc lo mx fuel8 sB1 64).
Definition ptr_b : Z := pointer_of (mm_malloc lo mx fuel8 sB1 64).
Definition sB3 : State := mm_free lo sB2 ptr_a.
Definition sB4 : State := mm_free lo sB3 ptr_b.

(** [alloc(136)] after scenario B. *)
Definition sB5 : State := state_of (mm_malloc lo mx fuel8 sB4 136).

(** [init(); a = alloc(64); free(a)]: one free block of capacity 64. *)
Definition sF : State := mm_free lo sB1 ptr_a.

(** The largest [size_t]. *)
Definition SIZE_MAX : Z := ULONG_MOD - 1.

(** [init(); alloc(SIZE_MAX)]. *)
Definition sZ : State := state_of (mm_malloc lo mx fuel8 sB0 SIZE_MAX).

(** A request of [2^64 - 64] bytes after [init(); a = alloc(64)]. *)
Definition huge : Z := ULONG_MOD - 64.
Definition sH : State := state_of (mm_malloc lo mx fuel8 sB1 huge).

(** [init(); a = alloc(64); b = alloc(64); memset(b, 0, 16); free(a);
    alloc(2^64 - 64); c = alloc(80); free(c)]. *)
Definition sG0 : State :=
  with_mem sB2 (store (mem sB2) ptr_b 0).
Definition sG1 : State :=
  with_mem sG0 (store (mem sG0) (ptr_b + 8) 0).
Definition sG2 : State := mm_free lo sG1 ptr_a.
Definition sG3 : State := state_of (mm_malloc lo mx fuel8 sG2 huge).
Definition sG4 : State := state_of (mm_malloc lo mx fuel8 sG3 80).
Definition ptr_c : Z := pointer_of (mm_malloc lo mx fuel8 sG3 80).

(** [init(); a = alloc(64); free(a); alloc(16)]: the free block is split. *)
Definition sS : State := state_of (mm_malloc lo mx fuel8 sF 16).


(** * Proofs *)

Section AllocatorProofs.

Variable mem_heap_lo : Z.
Variable MAX_HEAP : Z.

(** The definitions of the previous section, at this arena. *)
Local Abbreviation mem_sbrk := (mem_sbrk MAX_HEAP).
Local Abbreviation requestMoreSpace := (requestMoreSpace mem_heap_lo MAX_HEAP).
Local Abbreviation first_block := (first_block mem_heap_lo).
Local Abbreviation next_block := (next_block mem_heap_lo).
Local Abbreviation mm_malloc := (mm_malloc mem_heap_lo MAX_HEAP).
Local Abbreviation merge_next := (merge_next mem_heap_lo).
Local Abbreviation coalesce := (coalesce mem_heap_lo).
Local Abbreviation mm_free := (mm_free mem_heap_lo).
Local Abbreviation rep := (rep mem_heap_lo MAX_HEAP).
Local Abbreviation wf := (wf mem_heap_lo MAX_HEAP).
Local Abbreviation in_chain := (in_chain mem_heap_lo).
Local Abbreviation append := (append mem_heap_lo).
Local Abbreviation pending := (pending mem_heap_lo MAX_HEAP).
Local Abbreviation reachable := (reachable mem_heap_lo MAX_HEAP).
Local Abbreviation heap_ok := (heap_ok mem_heap_lo MAX_HEAP).
Local Abbreviation in_chain_first := (in_chain_first mem_heap_lo).
Local Abbreviation in_chain_next := (in_chain_next mem_heap_lo).
Local Abbreviation reach_init := (reach_init mem_heap_lo MAX_HEAP).
Local Abbreviation reach_reinit := (reach_reinit mem_heap_lo MAX_HEAP).
Local Abbreviation reach_malloc := (reach_malloc mem_heap_lo MAX_HEAP).
Local Abbreviation reach_free := (reach_free mem_heap_lo MAX_HEAP).
Local Abbreviation reach_free_null := (reach_free_null mem_heap_lo MAX_HEAP).
Local Abbreviation reach_write := (reach_write mem_heap_lo MAX_HEAP).
Local Abbreviation mkRep := (mkRep mem_heap_lo MAX_HEAP).
Local Abbreviation rep_size := (rep_size mem_heap_lo MAX_HEAP).
Local Abbreviation rep_brk := (rep_brk mem_heap_lo MAX_HEAP).
Local Abbreviation rep_chain := (rep_chain mem_heap_lo MAX_HEAP).
Local Abbreviation rep_tail := (rep_tail mem_heap_lo MAX_HEAP).
Local Abbreviation rep_dll := (rep_dll mem_heap_lo MAX_HEAP).
Local Abbreviation rep_nodup := (rep_nodup mem_heap_lo MAX_HEAP).
Local Abbreviation rep_sub := (rep_sub mem_heap_lo MAX_HEAP).
Local Abbreviation mkWf := (mkWf mem_heap_lo MAX_HEAP).
Local Abbreviation wf_rep := (wf_rep mem_heap_lo MAX_HEAP).
Local Abbreviation wf_free := (wf_free mem_heap_lo MAX_HEAP).
Local Abbreviation wf_nadj := (wf_nadj mem_heap_lo MAX_HEAP).
Local Abbreviation mkPending := (mkPending mem_heap_lo MAX_HEAP).
Local Abbreviation pd_rep := (pd_rep mem_heap_lo MAX_HEAP).
Local Abbreviation pd_neg := (pd_neg mem_heap_lo MAX_HEAP).
Local Abbreviation pd_out := (pd_out mem_heap_lo MAX_HEAP).
Local Abbreviation pd_free := (pd_free mem_heap_lo MAX_HEAP).
Local Abbreviation pd_nafA := (pd_nafA mem_heap_lo MAX_HEAP).
Local Abbreviation pd_nafB := (pd_nafB mem_heap_lo MAX_HEAP).
Local Abbreviation check_chain := (check_chain mem_heap_lo).
Local Abbreviation check_heap := (check_heap mem_heap_lo).

(** ** Assumptions on the platform

    The arena starts at a non-null, aligned address, and it can neither
    reach the end of the address space nor hold a block whose size does
    not fit a [long int]. *)
Hypothesis heap_lo_pos : 0 < mem_heap_lo.
Hypothesis heap_lo_aligned : mem_heap_lo mod ALIGNMENT = 0.
Hypothesis max_heap_long : MAX_HEAP < LONG_HALF.
Hypothesis arena_no_wrap : mem_heap_lo + MAX_HEAP < ULONG_MOD.

(** ** Arithmetic of the conversions *)

Ltac unfold_consts :=
  unfold ULONG_MOD, LONG_HALF, sizeof_BlockInfo, ALIGNMENT,
    sizeof_FreeBlockInfo, NULL in *.

Ltac zsolve := unfold_consts; lia.

Ltac wrap_lia :=
  unfold to_long, to_ulong in *; unfold_consts;
  Z.to_euclidean_division_equations; lia.

Lemma to_ulong_id x : 0 <= x < ULONG_MOD -> to_ulong x = x.
Proof. intros; wrap_lia. Qed.

Lemma to_long_id x : - LONG_HALF <= x < LONG_HALF -> to_long x = x.
Proof. intros; wrap_lia. Qed.

Lemma to_long_range x : - LONG_HALF <= to_long x < LONG_HALF.
Proof. wrap_lia. Qed.

(** The rounding of a request that fits a [long] after rounding. *)
Lemma round_request_small n :
  0 < n <= LONG_HALF - 16 ->
  round_request n = 16 * ((n + 15) / 16).
Proof. intros; unfold round_request; wrap_lia. Qed.

Lemma round_request_bounds n :
  0 < n <= LONG_HALF - 16 ->
  n <= round_request n < n + 16 /\ round_request n mod 16 = 0 /\
  16 <= round_request n <= LONG_HALF - 16.
Proof.
  intros H; rewrite (round_request_small n H).
  unfold_consts; Z.to_euclidean_division_equations; lia.
Qed.

Lemma merged_size_small a b :
  - LONG_HALF + 16 <= a + b < LONG_HALF ->
  merged_size a b = a + b - 16.
Proof. intros; unfold merged_size; wrap_lia. Qed.

(** ** Memory *)

Lemma store_same m a v : store m a v a = v.
Proof. unfold store; now rewrite Z.eqb_refl. Qed.

Lemma store_other m a v x : x <> a -> store m a v x = m x.
Proof. unfold store; intros H; apply Z.eqb_neq in H; now rewrite H. Qed.

(** Reads through writes, every comparison of addresses decided by [lia]. *)
Ltac mem_simpl :=
  unfold get_size, set_size, get_prev, set_prev, get_nextFree, set_nextFree,
    get_prevFree, set_prevFree in *;
  repeat match goal with
    | |- context [store ?m ?a ?v ?x] =>
        first [ replace (store m a v x) with v
                  by (symmetry; replace x with a by zsolve; apply store_same)
              | rewrite (store_other m a v x) by zsolve ]
    end.

(** ** The chain *)

Lemma valid_size_abs s : valid_size s -> 16 <= Z.abs s /\ Z.abs s mod 16 = 0.
Proof. unfold valid_size; unfold_consts; intros; Z.to_euclidean_division_equations; lia. Qed.

Lemma chain_le m p a bs e : chain m p a bs e -> a <= e.
Proof.
  revert p a; induction bs as [|[x s] bs IH]; simpl; intros p a H.
  - lia.
  - destruct H as (_ & _ & _ & Hv & H). apply IH in H.
    apply valid_size_abs in Hv. zsolve.
Qed.

Lemma chain_In m p a bs e x s :
  chain m p a bs e -> In (x, s) bs ->
  a <= x /\ x + 16 + Z.abs s <= e /\ valid_size s /\ get_size m x = s.
Proof.
  revert p a; induction bs as [|[y t] bs IH]; simpl; intros p a H Hin.
  - contradiction.
  - destruct H as (-> & Hs & _ & Hv & H). destruct Hin as [E|Hin].
    + inversion E; subst. apply chain_le in H.
      split; [|split; [|split]]; auto; zsolve.
    + destruct (IH _ _ H Hin) as (? & ? & ? & ?).
      apply valid_size_abs in Hv.
      split; [|split; [|split]]; auto; zsolve.
Qed.

(** Two blocks of a chain are the same block or do not overlap. *)
Lemma chain_sep m p a bs e x s y t :
  chain m p a bs e -> In (x, s) bs -> In (y, t) bs ->
  (x = y /\ s = t) \/ x + 16 + Z.abs s <= y \/ y + 16 + Z.abs t <= x.
Proof.
  revert p a; induction bs as [|[z u] bs IH]; simpl; intros p a H Hx Hy.
  - contradiction.
  - destruct H as (-> & Hs & _ & Hv & H).
    destruct Hx as [Ex|Hx], Hy as [Ey|Hy].
    + inversion Ex; inversion Ey; subst; auto.
    + inversion Ex; subst. right; left.
      destruct (chain_In _ _ _ _ _ _ _ H Hy). zsolve.
    + inversion Ey; subst. right; right.
      destruct (chain_In _ _ _ _ _ _ _ H Hx). zsolve.
    + eauto.
Qed.

Lemma chain_frame m m' p a bs e :
  (forall x s, In (x, s) bs -> m' x = m x /\ m' (x + 8) = m (x + 8)) ->
  chain m p a bs e -> chain m' p a bs e.
Proof.
  revert p a; induction bs as [|[x s] bs IH]; simpl; intros p a Hf H; auto.
  destruct H as (-> & Hs & Hp & Hv & H).
  destruct (Hf a s (or_introl eq_refl)) as [E1 E2].
  unfold get_size, get_prev in *. rewrite E1, E2.
  split; [|split; [|split; [|split]]]; auto.
  apply IH; [intros y t Hy; apply (Hf y t); now right | assumption].
Qed.

Lemma last_cons (x : Z) l d : last (x :: l) d = last l x.
Proof.
  revert x d; induction l as [|y l IH]; intros x d; [reflexivity|].
  change (last (x :: y :: l) d) with (last (y :: l) d).
  now rewrite (IH y d), (IH y x).
Qed.

Lemma last_addr_cons d x s bs : last_addr d ((x, s) :: bs) = last_addr x bs.
Proof. unfold last_addr; simpl map; apply last_cons. Qed.

Lemma last_addr_app d bs1 bs2 :
  last_addr d (bs1 ++ bs2) = last_addr (last_addr d bs1) bs2.
Proof.
  revert d; induction bs1 as [|[x s] bs1 IH]; intros d; [reflexivity|].
  simpl app. now rewrite !last_addr_cons.
Qed.

Lemma chain_app m p a bs1 bs2 e :
  chain m p a (bs1 ++ bs2) e <->
  exists mid, chain m p a bs1 mid /\ chain m (last_addr p bs1) mid bs2 e.
Proof.
  revert p a; induction bs1 as [|[x s] bs1 IH]; simpl; intros p a.
  - split.
    + intros H; exists a; split; auto.
    + intros (mid & -> & H); auto.
  - rewrite last_addr_cons. split.
    + intros (-> & Hs & Hp & Hv & H). apply IH in H as (mid & H1 & H2).
      exists mid; repeat split; auto; apply Hv.
    + intros (mid & (-> & Hs & Hp & Hv & H1) & H2).
      repeat split; auto; try apply Hv. apply IH; eauto.
Qed.

(** Every block of a chain that starts aligned is aligned. *)
Lemma chain_aligned m p a bs e x s :
  a mod 16 = 0 -> chain m p a bs e -> In (x, s) bs -> x mod 16 = 0.
Proof.
  revert p a; induction bs as [|[y t] bs IH]; simpl; intros p a Ha H Hin.
  - contradiction.
  - destruct H as (-> & Hs & _ & Hv & H). destruct Hin as [E|Hin].
    + now inversion E; subst.
    + refine (IH _ _ _ H Hin).
      apply valid_size_abs in Hv. unfold_consts.
      Z.to_euclidean_division_equations; lia.
Qed.

Lemma last_addr_In d bs :
  bs <> [] -> exists s, In (last_addr d bs, s) bs.
Proof.
  revert d; induction bs as [|[x s] bs IH]; intros d Hne; [congruence|].
  rewrite last_addr_cons. destruct bs as [|b bs].
  - exists s; left; reflexivity.
  - destruct (IH x) as (t & Ht); [discriminate|]. exists t; right; exact Ht.
Qed.

(** ** The free list *)

Ltac asolve := unfold_consts; Z.to_euclidean_division_equations; lia.

(** As [mem_simpl], for addresses known to be aligned. *)
Ltac mem_asimpl :=
  unfold get_size, set_size, get_prev, set_prev, get_nextFree, set_nextFree,
    get_prevFree, set_prevFree in *;
  repeat match goal with
    | |- context [store ?m ?a ?v ?x] =>
        first [ replace (store m a v x) with v
                  by (symmetry; replace x with a by asolve; apply store_same)
              | rewrite (store_other m a v x) by asolve ]
    end.

Lemma dll_hd m pv h fl : dll m pv h fl -> h = hd NULL fl.
Proof. destruct fl; simpl; tauto. Qed.

Lemma dll_nonnull m pv h fl f : dll m pv h fl -> In f fl -> f <> NULL.
Proof.
  revert pv h; induction fl as [|g fl IH]; simpl; intros pv h H Hin; [tauto|].
  destruct H as (_ & Hg & _ & H). destruct Hin as [<-|Hin]; eauto.
Qed.

Lemma dll_frame m m' pv h fl :
  (forall f, In f fl -> m' (f + 16) = m (f + 16) /\ m' (f + 24) = m (f + 24)) ->
  dll m pv h fl -> dll m' pv h fl.
Proof.
  revert pv h; induction fl as [|g fl IH]; simpl; intros pv h Hf H; auto.
  destruct H as (-> & Hg & Hp & H).
  destruct (Hf g (or_introl eq_refl)) as [E1 E2].
  unfold get_prevFree, get_nextFree in *. rewrite E1, E2.
  split; [|split; [|split]]; auto.
Qed.

(** Unlinking after the head: the part of the list that follows [f]. *)
Lemma unlink_rest m f l2 (hasp : bool) q :
  dll m f (get_nextFree m f) l2 ->
  NoDup l2 -> (forall g, In g l2 -> node_ok g) ->
  node_ok q -> ~ In q l2 ->
  dll (unlink m q (hd NULL l2) hasp (negb (is_nil l2))) q (hd NULL l2) l2.
Proof.
  intros H Hnd Hok Hq Hnq.
  destruct l2 as [|g l2]; [reflexivity|].
  cbn [hd is_nil negb]. simpl in H. destruct H as (Hn & Hg & _ & H).
  apply NoDup_cons_iff in Hnd as [Hgl Hnd'].
  assert (Og : node_ok g) by (apply Hok; now left).
  destruct Og as [Og1 Og2], Hq as [Hq1 Hq2].
  assert (Hqg : q <> g) by (intros ->; apply Hnq; now left).
  assert (E : get_nextFree (unlink m q g hasp true) g = get_nextFree m g).
  { unfold unlink. destruct hasp; mem_asimpl; reflexivity. }
  cbn [dll]. rewrite E.
  split; [reflexivity|]. split; [assumption|]. split.
  - unfold unlink. destruct hasp; mem_asimpl; apply to_ulong_id; assumption.
  - eapply dll_frame; [|exact H].
    intros x Hx. assert (Ox : node_ok x) by (apply Hok; now right).
    destruct Ox as [Ox1 Ox2].
    assert (x <> g) by (intros ->; contradiction).
    assert (x <> q) by (intros ->; apply Hnq; now right).
    unfold unlink. destruct hasp; mem_asimpl; auto.
Qed.

Lemma last_In (l : list Z) d : l <> [] -> In (last l d) l.
Proof.
  intros Hne. destruct (exists_last Hne) as (l' & z & ->).
  rewrite last_last. apply in_or_app; right; now left.
Qed.

Lemma unlink_dll l1 : forall m pv h f l2,
  dll m pv h (l1 ++ f :: l2) ->
  NoDup (l1 ++ f :: l2) ->
  (forall g, In g (l1 ++ f :: l2) -> node_ok g) ->
  node_ok pv -> ~ In pv (l1 ++ f :: l2) ->
  dll (unlink m (last l1 pv) (hd NULL l2)
         (negb (is_nil l1)) (negb (is_nil l2)))
      pv (if is_nil l1 then hd NULL l2 else h) (l1 ++ l2).
Proof.
  induction l1 as [|a l1 IH]; intros m pv h f l2 H Hnd Hok Hpv Hnpv.
  - simpl in *. destruct H as (-> & Hf & Hp & H).
    apply NoDup_cons_iff in Hnd as [Hfl Hnd'].
    apply (unlink_rest m f l2 false pv); auto.
  - simpl app in *. simpl is_nil in *. cbn [negb] in *.
    rewrite last_cons.
    set (m' := unlink m (last l1 a) (hd NULL l2) true (negb (is_nil l2))).
    simpl in H. destruct H as (-> & Ha & Hp & H).
    apply NoDup_cons_iff in Hnd as [Hal Hnd'].
    assert (Oa : node_ok a) by (apply Hok; left; reflexivity).
    assert (Hok' : forall g, In g (l1 ++ f :: l2) -> node_ok g)
      by (intros g Hg; apply Hok; now right).
    assert (Hl2 : forall g, In g l2 -> In g (l1 ++ f :: l2))
      by (intros g Hg; apply in_or_app; right; now right).
    assert (Ol : node_ok (last l1 a)).
    { destruct l1 as [|b l1]; [exact Oa|].
      apply Hok'. apply in_or_app; left. apply last_In; discriminate. }
    assert (Hprev : get_prevFree m' a = pv).
    { subst m'. unfold unlink.
      destruct Oa as [Oa1 Oa2], Hpv as [Hv1 Hv2], Ol as [Ol1 Ol2].
      destruct l2 as [|g l2]; cbn [is_nil negb hd].
      - mem_asimpl; exact Hp.
      - assert (Og : node_ok g) by (apply Hok'; apply Hl2; now left).
        destruct Og as [Og1 Og2].
        assert (g <> a) by (intros ->; apply Hal; apply Hl2; now left).
        mem_asimpl; exact Hp. }
    simpl. split; [reflexivity|]. split; [assumption|]. split; [assumption|].
    destruct l1 as [|b l1].
    + (* [a] is the member before [f] *)
      simpl app in *. cbn [last is_nil negb] in *.
      simpl in H. destruct H as (Hn & Hf & Hpf & H).
      apply NoDup_cons_iff in Hnd' as [Hfl Hnd''].
      assert (E : get_nextFree m' a = hd NULL l2).
      { subst m'. unfold unlink. destruct Oa as [Oa1 Oa2].
        destruct l2 as [|g l2]; cbn [is_nil negb hd].
        - mem_asimpl. apply to_ulong_id; zsolve.
        - assert (Og : node_ok g) by (apply Hok'; right; now left).
          destruct Og as [Og1 Og2].
          mem_asimpl. apply to_ulong_id; assumption. }
      rewrite E. subst m'.
      apply (unlink_rest m f l2 true a); auto.
    + (* the member before [f] is further down *)
      assert (E : get_nextFree m' a = get_nextFree m a).
      { subst m'. unfold unlink. destruct Oa as [Oa1 Oa2].
        assert (Hla : In (last (b :: l1) a) (b :: l1))
          by (apply last_In; discriminate).
        assert (last (b :: l1) a <> a)
          by (intros E; apply Hal; apply in_or_app; left; rewrite <- E at 1; exact Hla).
        destruct Ol as [Ol1 Ol2].
        destruct l2 as [|g l2]; cbn [is_nil negb hd].
        - mem_asimpl; reflexivity.
        - assert (Og : node_ok g) by (apply Hok'; apply Hl2; now left).
          destruct Og as [Og1 Og2]. mem_asimpl; reflexivity. }
      rewrite E.
      specialize (IH m a (get_nextFree m a) f l2 H Hnd' Hok' Oa Hal).
      cbn [is_nil negb] in IH. exact IH.
Qed.

Lemma dll_links m pv h l1 f l2 :
  dll m pv h (l1 ++ f :: l2) ->
  get_prevFree m f = last l1 pv /\ get_nextFree m f = hd NULL l2.
Proof.
  revert pv h; induction l1 as [|a l1 IH]; intros pv h H.
  - simpl in H. destruct H as (_ & _ & Hp & H). split; [exact Hp|].
    now apply dll_hd in H.
  - simpl app in H. cbn [dll] in H. destruct H as (_ & _ & _ & H).
    rewrite last_cons. eapply IH; exact H.
Qed.

Lemma unlink_frame m q n (hasp hasn : bool) c :
  (hasp = true -> c <> q + 16) -> (hasn = true -> c <> n + 24) ->
  unlink m q n hasp hasn c = m c.
Proof.
  intros Hp Hn. unfold unlink, set_nextFree, set_prevFree.
  destruct hasp, hasn; rewrite ?store_other; auto.
Qed.

(** [removeFreeBlock] on a member of a well-linked list. *)
Lemma removeFreeBlock_member st l1 f l2 :
  dll (mem st) NULL (free_list_head st) (l1 ++ f :: l2) ->
  removeFreeBlock st f =
  mkState (unlink (mem st) (last l1 NULL) (hd NULL l2)
             (negb (is_nil l1)) (negb (is_nil l2)))
          (if is_nil l1 then hd NULL l2 else free_list_head st)
          (malloc_list_tail st) (heap_size st) (mem_brk st).
Proof.
  intros H.
  assert (Hf : f <> NULL)
    by (eapply dll_nonnull; [exact H|]; apply in_or_app; right; now left).
  assert (Hh : free_list_head st <> NULL).
  { rewrite (dll_hd _ _ _ _ H).
    eapply dll_nonnull; [exact H|]. destruct l1; now left. }
  destruct (dll_links _ _ _ _ _ _ H) as [Ep En].
  assert (Hp : l1 <> [] -> last l1 NULL <> NULL).
  { intros Hne. eapply dll_nonnull; [exact H|].
    apply in_or_app; left. now apply last_In. }
  assert (Hn : l2 <> [] -> hd NULL l2 <> NULL).
  { intros Hne. eapply dll_nonnull; [exact H|].
    apply in_or_app; right; right. destruct l2; [congruence|now left]. }
  unfold removeFreeBlock.
  apply Z.eqb_neq in Hf, Hh. rewrite Hf, Hh, Ep, En.
  destruct st as [m hd0 tl hs bk]; cbn [mem free_list_head malloc_list_tail
    heap_size mem_brk with_mem with_head] in *.
  destruct l1 as [|a l1], l2 as [|g l2]; cbn [is_nil negb].
  - cbn [last hd]. rewrite Z.eqb_refl. reflexivity.
  - specialize (Hn ltac:(discriminate)). apply Z.eqb_neq in Hn.
    cbn [last]. rewrite Z.eqb_refl, Hn. reflexivity.
  - specialize (Hp ltac:(discriminate)). apply Z.eqb_neq in Hp.
    cbn [hd]. rewrite Z.eqb_refl, Hp. reflexivity.
  - specialize (Hp ltac:(discriminate)). apply Z.eqb_neq in Hp.
    specialize (Hn ltac:(discriminate)). apply Z.eqb_neq in Hn.
    rewrite Hp, Hn. reflexivity.
Qed.

Lemma removeFreeBlock_dll st l1 f l2 :
  dll (mem st) NULL (free_list_head st) (l1 ++ f :: l2) ->
  NoDup (l1 ++ f :: l2) ->
  (forall g, In g (l1 ++ f :: l2) -> node_ok g) ->
  dll (mem (removeFreeBlock st f)) NULL
      (free_list_head (removeFreeBlock st f)) (l1 ++ l2).
Proof.
  intros H Hnd Hok. rewrite (removeFreeBlock_member _ _ _ _ H). cbn [mem free_list_head].
  apply (unlink_dll l1 (mem st) NULL (free_list_head st) f l2); auto.
  - split; [reflexivity | zsolve].
  - intros Hin. eapply dll_nonnull in Hin; [|exact H]. congruence.
Qed.

(** [removeFreeBlock] only writes link fields of the remaining members. *)
Lemma removeFreeBlock_frame st l1 f l2 c :
  dll (mem st) NULL (free_list_head st) (l1 ++ f :: l2) ->
  (forall g, In g (l1 ++ l2) -> c <> g + 16 /\ c <> g + 24) ->
  mem (removeFreeBlock st f) c = mem st c.
Proof.
  intros H Hc. rewrite (removeFreeBlock_member _ _ _ _ H). cbn [mem].
  apply unlink_frame.
  - intros E. destruct l1 as [|a l1]; [discriminate|].
    apply Hc. apply in_or_app; left. apply last_In; discriminate.
  - intros E. destruct l2 as [|g l2]; [discriminate|].
    apply Hc. apply in_or_app; right. now left.
Qed.

(** [insertFreeBlock] on a block that is not in the list. *)
Lemma insertFreeBlock_dll st fl f :
  dll (mem st) NULL (free_list_head st) fl -> NoDup fl ->
  f <> NULL -> ~ In f fl -> node_ok f -> (forall g, In g fl -> node_ok g) ->
  dll (mem (insertFreeBlock st f)) NULL (free_list_head (insertFreeBlock st f))
      (f :: fl).
Proof.
  intros H Hnd Hf Hnin [Of1 Of2] Hok.
  unfold insertFreeBlock. apply Z.eqb_neq in Hf as Hf'. rewrite Hf'.
  cbn [mem free_list_head with_head with_mem]. cbn [dll].
  split; [reflexivity|]. split; [assumption|].
  destruct fl as [|h fl].
  - simpl in H. rewrite H. cbn [negb Z.eqb NULL].
    split; [mem_asimpl; reflexivity|]. simpl. mem_asimpl. reflexivity.
  - cbn [dll] in H. destruct H as (Eh & Hh & Hp & H). rewrite Eh.
    apply Z.eqb_neq in Hh as Hh'. rewrite Hh'. cbn [negb].
    assert (Oh : node_ok h) by (apply Hok; now left).
    destruct Oh as [Oh1 Oh2].
    assert (Hfh : f <> h) by (intros ->; apply Hnin; now left).
    split; [mem_asimpl; reflexivity|].
    assert (E : get_nextFree
                  (set_prevFree (set_nextFree (set_prevFree (mem st) f NULL) f h) h f)
                  f = h).
    { mem_asimpl. apply to_ulong_id; assumption. }
    rewrite E. cbn [dll].
    split; [reflexivity|]. split; [assumption|].
    split; [mem_asimpl; apply to_ulong_id; assumption|].
    assert (E2 : get_nextFree
                  (set_prevFree (set_nextFree (set_prevFree (mem st) f NULL) f h) h f)
                  h = get_nextFree (mem st) h).
    { mem_asimpl. reflexivity. }
    rewrite E2. eapply dll_frame; [|exact H].
    intros x Hx. assert (Ox : node_ok x) by (apply Hok; now right).
    destruct Ox as [Ox1 Ox2].
    assert (x <> f) by (intros ->; apply Hnin; now right).
    assert (x <> h).
    { apply NoDup_cons_iff in Hnd as [Hh0 _]. intros ->; contradiction. }
    mem_asimpl. split; reflexivity.
Qed.

Lemma insertFreeBlock_frame st f c :
  f <> NULL -> c <> f + 16 -> c <> f + 24 ->
  (free_list_head st <> NULL -> c <> free_list_head st + 24) ->
  mem (insertFreeBlock st f) c = mem st c.
Proof.
  intros Hf H1 H2 H3. unfold insertFreeBlock.
  apply Z.eqb_neq in Hf. rewrite Hf. cbn [mem with_head with_mem].
  destruct (Z.eqb_spec (free_list_head st) NULL) as [E|E]; cbn [negb];
    unfold set_prevFree, set_nextFree; rewrite ?store_other; auto.
Qed.

Lemma insertFreeBlock_fields st f :
  f <> NULL ->
  free_list_head (insertFreeBlock st f) = f /\
  malloc_list_tail (insertFreeBlock st f) = malloc_list_tail st /\
  heap_size (insertFreeBlock st f) = heap_size st /\
  mem_brk (insertFreeBlock st f) = mem_brk st.
Proof.
  intros Hf. unfold insertFreeBlock. apply Z.eqb_neq in Hf. rewrite Hf.
  repeat split.
Qed.

(** ** Steps on a represented heap *)

(** What [rep] says about one block of the chain. *)
Lemma rep_block st bs fl x s :
  rep st bs fl -> In (x, s) bs ->
  x mod 16 = 0 /\ mem_heap_lo <= x /\
  x + 16 + Z.abs s <= mem_heap_lo + heap_size st /\
  16 <= Z.abs s /\ Z.abs s mod 16 = 0 /\ get_size (mem st) x = s.
Proof.
  intros R Hin. destruct (chain_In _ _ _ _ _ _ _ (rep_chain _ _ _ R) Hin)
    as (H1 & H2 & Hv & Hs).
  apply valid_size_abs in Hv.
  pose proof (chain_aligned _ _ _ _ _ _ _ heap_lo_aligned (rep_chain _ _ _ R) Hin).
  tauto.
Qed.

Lemma rep_node_ok st bs fl g : rep st bs fl -> In g fl -> node_ok g.
Proof.
  intros R Hin. destruct (rep_sub _ _ _ R g Hin) as (s & Hs).
  destruct (rep_block _ _ _ _ _ R Hs) as (H1 & H2 & H3 & H4 & _).
  pose proof (rep_size _ _ _ R). pose proof (rep_brk _ _ _ R).
  split; [assumption | zsolve].
Qed.

(** A header cell is not a link cell of any block. *)
Lemma header_not_link m p a bs e x s g t :
  chain m p a bs e -> In (x, s) bs -> In (g, t) bs ->
  x <> g + 16 /\ x <> g + 24 /\ x + 8 <> g + 16 /\ x + 8 <> g + 24.
Proof.
  intros C Hx Hg.
  destruct (chain_In _ _ _ _ _ _ _ C Hx) as (_ & _ & Hv1 & _).
  destruct (chain_In _ _ _ _ _ _ _ C Hg) as (_ & _ & Hv2 & _).
  apply valid_size_abs in Hv1, Hv2.
  destruct (chain_sep _ _ _ _ _ _ _ _ _ C Hx Hg) as [[E _]|[H|H]]; lia.
Qed.

Lemma rep_remove st bs l1 f l2 :
  rep st bs (l1 ++ f :: l2) ->
  rep (removeFreeBlock st f) bs (l1 ++ l2).
Proof.
  intros R.
  pose proof (removeFreeBlock_member _ _ _ _ (rep_dll _ _ _ R)) as E.
  assert (Hsub : forall g, In g (l1 ++ l2) -> In g (l1 ++ f :: l2)).
  { intros g Hg. apply in_app_or in Hg. apply in_or_app.
    destruct Hg; [now left | right; now right]. }
  constructor.
  - rewrite E; cbn [heap_size mem_brk]. apply (rep_size _ _ _ R).
  - rewrite E; cbn [mem_brk]. apply (rep_brk _ _ _ R).
  - assert (Eh : heap_size (removeFreeBlock st f) = heap_size st)
      by (rewrite E; reflexivity).
    rewrite Eh. eapply chain_frame; [|apply (rep_chain _ _ _ R)].
    intros x s Hx.
    assert (Hc : forall g, In g (l1 ++ l2) ->
                 x <> g + 16 /\ x <> g + 24 /\ x + 8 <> g + 16 /\ x + 8 <> g + 24).
    { intros g Hg. destruct (rep_sub _ _ _ R g (Hsub g Hg)) as (t & Ht).
      eapply header_not_link; [apply (rep_chain _ _ _ R) | exact Hx | exact Ht]. }
    split; apply (removeFreeBlock_frame _ _ _ _ _ (rep_dll _ _ _ R));
      intros g Hg; destruct (Hc g Hg); tauto.
  - rewrite E; cbn [malloc_list_tail]. apply (rep_tail _ _ _ R).
  - apply removeFreeBlock_dll.
    + apply (rep_dll _ _ _ R).
    + apply (rep_nodup _ _ _ R).
    + intros g Hg. eapply rep_node_ok; eauto.
  - eapply NoDup_remove_1. apply (rep_nodup _ _ _ R).
  - intros g Hg. apply (rep_sub _ _ _ R). auto.
Qed.

Lemma rep_insert st bs fl f s :
  rep st bs fl -> In (f, s) bs -> ~ In f fl ->
  rep (insertFreeBlock st f) bs (f :: fl).
Proof.
  intros R Hf Hnin.
  destruct (rep_block _ _ _ _ _ R Hf) as (A1 & A2 & A3 & A4 & A5 & A6).
  pose proof (rep_size _ _ _ R) as Hsz. pose proof (rep_brk _ _ _ R) as Hbk.
  assert (Hnn : f <> NULL) by zsolve.
  assert (Of : node_ok f) by (split; [assumption | zsolve]).
  destruct (insertFreeBlock_fields st f Hnn) as (F1 & F2 & F3 & F4).
  constructor.
  - rewrite F3, F4. assumption.
  - rewrite F4. assumption.
  - rewrite F3. eapply chain_frame; [|apply (rep_chain _ _ _ R)].
    intros x t Hx.
    pose proof (header_not_link _ _ _ _ _ _ _ _ _ (rep_chain _ _ _ R) Hx Hf) as Hc.
    assert (Hh : free_list_head st <> NULL ->
                 x <> free_list_head st + 24 /\ x + 8 <> free_list_head st + 24).
    { intros Hne. pose proof (rep_dll _ _ _ R) as D.
      destruct fl as [|h fl]; [simpl in D; contradiction|].
      cbn [dll] in D. destruct D as (Eh & _). rewrite Eh.
      destruct (rep_sub _ _ _ R h (or_introl eq_refl)) as (u & Hu).
      pose proof (header_not_link _ _ _ _ _ _ _ _ _ (rep_chain _ _ _ R) Hx Hu).
      tauto. }
    split; apply insertFreeBlock_frame; tauto.
  - rewrite F2. apply (rep_tail _ _ _ R).
  - apply insertFreeBlock_dll; auto.
    + apply (rep_dll _ _ _ R).
    + apply (rep_nodup _ _ _ R).
    + intros g Hg. eapply rep_node_ok; eauto.
  - constructor; [assumption | apply (rep_nodup _ _ _ R)].
  - intros g [<-|Hg]; [eauto | apply (rep_sub _ _ _ R g Hg)].
Qed.

(** Splitting the chain of a represented heap at one of its blocks. *)
Lemma rep_split st bs1 x s bs2 fl :
  rep st (bs1 ++ (x, s) :: bs2) fl ->
  chain (mem st) NULL mem_heap_lo bs1 x /\
  get_size (mem st) x = s /\
  get_prev (mem st) x = last_addr NULL bs1 /\
  valid_size s /\
  chain (mem st) x (x + 16 + Z.abs s) bs2 (mem_heap_lo + heap_size st).
Proof.
  intros R. pose proof (rep_chain _ _ _ R) as C.
  apply chain_app in C as (mid & C1 & C2).
  cbn [chain] in C2. destruct C2 as (-> & Hs & Hp & Hv & C2).
  tauto.
Qed.

(** Blocks before [x] end before [x]; blocks after it start after its end. *)
Lemma rep_before st bs1 x s bs2 fl y t :
  rep st (bs1 ++ (x, s) :: bs2) fl -> In (y, t) bs1 ->
  y + 16 + Z.abs t <= x /\ 16 <= Z.abs t.
Proof.
  intros R Hy. destruct (rep_split _ _ _ _ _ _ R) as (C1 & _).
  destruct (chain_In _ _ _ _ _ _ _ C1 Hy) as (_ & H & Hv & _).
  apply valid_size_abs in Hv. tauto.
Qed.

Lemma rep_after st bs1 x s bs2 fl y t :
  rep st (bs1 ++ (x, s) :: bs2) fl -> In (y, t) bs2 ->
  x + 16 + Z.abs s <= y /\ 16 <= Z.abs t.
Proof.
  intros R Hy. destruct (rep_split _ _ _ _ _ _ R) as (_ & _ & _ & _ & C2).
  destruct (chain_In _ _ _ _ _ _ _ C2 Hy) as (H & _ & Hv & _).
  apply valid_size_abs in Hv. tauto.
Qed.

Lemma in_middle {A} (l1 : list A) x l2 : In x (l1 ++ x :: l2).
Proof. apply in_or_app; right; now left. Qed.

Lemma in_sides {A} (l1 : list A) x l2 y :
  In y (l1 ++ x :: l2) <-> y = x \/ In y l1 \/ In y l2.
Proof.
  rewrite in_app_iff. simpl. intuition congruence.
Qed.

(** Every stored size of a represented heap fits a [long]. *)
Lemma rep_size_long st bs fl x s :
  rep st bs fl -> In (x, s) bs ->
  Z.abs s + 16 <= heap_size st /\ heap_size st < LONG_HALF.
Proof.
  intros R Hx. destruct (rep_block _ _ _ _ _ R Hx) as (_ & H1 & H2 & _).
  pose proof (rep_size _ _ _ R). pose proof (rep_brk _ _ _ R). zsolve.
Qed.

(** Rewriting the stored size of a block without changing its extent. *)
Lemma rep_set_size st bs1 x s bs2 fl s' :
  rep st (bs1 ++ (x, s) :: bs2) fl ->
  Z.abs s' = Z.abs s ->
  rep (with_mem st (set_size (mem st) x s')) (bs1 ++ (x, s') :: bs2) fl.
Proof.
  intros R Habs.
  destruct (rep_split _ _ _ _ _ _ R) as (C1 & Hs & Hp & Hv & C2).
  pose proof (in_middle bs1 (x, s) bs2) as Hx.
  destruct (rep_size_long _ _ _ _ _ R Hx) as [L1 L2].
  destruct (rep_block _ _ _ _ _ R Hx) as (A1 & A2 & A3 & A4 & A5 & A6).
  constructor; cbn [mem heap_size mem_brk malloc_list_tail free_list_head with_mem].
  - apply (rep_size _ _ _ R).
  - apply (rep_brk _ _ _ R).
  - apply chain_app. exists x. split.
    + eapply chain_frame; [|exact C1]. intros y t Hy.
      destruct (rep_before _ _ _ _ _ _ _ _ R Hy).
      split; mem_simpl; reflexivity.
    + cbn [chain]. split; [reflexivity|]. split.
      { mem_simpl. apply to_long_id. zsolve. }
      split; [mem_simpl; exact Hp|]. split.
      { destruct Hv as [Hv1 Hv2]. split; [|lia].
        unfold_consts. Z.to_euclidean_division_equations; lia. }
      rewrite Habs. eapply chain_frame; [|exact C2]. intros y t Hy.
      destruct (rep_after _ _ _ _ _ _ _ _ R Hy).
      split; mem_simpl; reflexivity.
  - rewrite (rep_tail _ _ _ R). rewrite !last_addr_app, !last_addr_cons. reflexivity.
  - eapply dll_frame; [|apply (rep_dll _ _ _ R)]. intros f Hf.
    destruct (rep_sub _ _ _ R f Hf) as (t & Ht).
    pose proof (header_not_link _ _ _ _ _ _ _ _ _ (rep_chain _ _ _ R) Hx Ht).
    split; mem_simpl; reflexivity.
  - apply (rep_nodup _ _ _ R).
  - intros f Hf. destruct (rep_sub _ _ _ R f Hf) as (t & Ht).
    apply in_sides in Ht as [E|Ht].
    + inversion E; subst. exists s'. apply in_middle.
    + exists t. apply in_sides. now right.
Qed.

Lemma next_block_eval st b u :
  get_size (mem st) b = u ->
  0 <= b -> Z.abs u < LONG_HALF -> 0 <= heap_size st ->
  b + 16 + Z.abs u <= mem_heap_lo + heap_size st < ULONG_MOD ->
  next_block st b =
  if mem_heap_lo + heap_size st <=? b + 16 + Z.abs u then NULL
  else b + 16 + Z.abs u.
Proof.
  intros Hu Hb Hl Hh He. unfold next_block. rewrite Hu.
  assert (E1 : to_ulong (if 0 <? u then u else to_long (- u)) = Z.abs u).
  { destruct (Z.ltb_spec 0 u).
    - rewrite to_ulong_id; zsolve.
    - rewrite to_long_id by zsolve. rewrite to_ulong_id; zsolve. }
  rewrite E1.
  rewrite (to_ulong_id (sizeof_BlockInfo + Z.abs u)) by zsolve.
  rewrite (to_ulong_id (b + _)) by zsolve.
  rewrite (to_ulong_id (mem_heap_lo + _)) by zsolve.
  replace (b + (sizeof_BlockInfo + Z.abs u)) with (b + 16 + Z.abs u) by zsolve.
  reflexivity.
Qed.

Lemma chain_first m p a bs e :
  chain m p a bs e ->
  first_addr bs = (if e <=? a then NULL else a) /\ (bs = [] <-> a = e).
Proof.
  intros C. destruct bs as [|[x s] bs]; cbn [chain] in C.
  - subst. rewrite Z.leb_refl. split; [reflexivity | tauto].
  - destruct C as (-> & _ & _ & Hv & C). apply chain_le in C.
    apply valid_size_abs in Hv. unfold first_addr; cbn [map fst hd].
    destruct (Z.leb_spec e a); [zsolve|].
    split; [reflexivity|]. split; [discriminate | zsolve].
Qed.

(** [next_block] on a represented heap is the next block of the chain. *)
Lemma next_block_rep st bs1 x s bs2 fl :
  rep st (bs1 ++ (x, s) :: bs2) fl ->
  next_block st x = first_addr bs2.
Proof.
  intros R.
  destruct (rep_split _ _ _ _ _ _ R) as (C1 & Hs & Hp & Hv & C2).
  pose proof (in_middle bs1 (x, s) bs2) as Hx.
  destruct (rep_size_long _ _ _ _ _ R Hx) as [L1 L2].
  destruct (rep_block _ _ _ _ _ R Hx) as (A1 & A2 & A3 & A4 & A5 & A6).
  pose proof (rep_size _ _ _ R). pose proof (rep_brk _ _ _ R).
  rewrite (next_block_eval st x s) by (auto; zsolve).
  destruct (chain_first _ _ _ _ _ C2) as [E _]. now rewrite E.
Qed.

Lemma rep_absorb st bs1 a s b u bs3 fl :
  rep st (bs1 ++ (a, s) :: (b, u) :: bs3) fl ->
  ~ In b fl -> s < 0 -> u < 0 ->
  rep (absorb st a (s + u - 16) (first_addr bs3))
      (bs1 ++ (a, s + u - 16) :: bs3) fl.
Proof.
  intros R Hnb Hs0 Hu0.
  destruct (rep_split _ _ _ _ _ _ R) as (C1 & Hs & Hp & Hv & C2).
  pose proof (in_middle bs1 (a, s) ((b, u) :: bs3)) as Ha.
  assert (Hb : In (b, u) (bs1 ++ (a, s) :: (b, u) :: bs3))
    by (apply in_sides; right; right; now left).
  destruct (rep_block _ _ _ _ _ R Ha) as (A1 & A2 & A3 & A4 & A5 & A6).
  destruct (rep_block _ _ _ _ _ R Hb) as (B1 & B2 & B3 & B4 & B5 & B6).
  cbn [chain] in C2. destruct C2 as (Eb & Hu & Hpb & Hvb & C3).
  rewrite <- Eb in C3, Hu, Hpb.
  pose proof (rep_size _ _ _ R) as Hsz. pose proof (rep_brk _ _ _ R) as Hbk.
  assert (Hext : a + 16 + Z.abs (s + u - 16) = b + 16 + Z.abs u) by zsolve.
  assert (Hval : valid_size (s + u - 16)).
  { destruct Hv as [Hv1 _], Hvb as [Hv2 _]. split; [|lia].
    unfold_consts. Z.to_euclidean_division_equations; lia. }
  assert (Hafter : forall y t, In (y, t) bs3 -> b + 16 + Z.abs u <= y).
  { intros y t Hy. destruct (chain_In _ _ _ _ _ _ _ C3 Hy) as (G & _). zsolve. }
  assert (Hfl : forall f, In f fl -> f <> b /\
            forall c, (c = a \/ exists w, In (c, w) bs3) ->
            c <> f + 16 /\ c <> f + 24 /\ c + 8 <> f + 16 /\ c + 8 <> f + 24).
  { intros f Hf. split; [intros ->; contradiction|].
    destruct (rep_sub _ _ _ R f Hf) as (t & Ht).
    intros c [->|(w & Hw)].
    - eapply header_not_link; [apply (rep_chain _ _ _ R) | exact Ha | exact Ht].
    - eapply header_not_link; [apply (rep_chain _ _ _ R) | | exact Ht].
      apply in_sides; right; right; right; exact Hw. }
  assert (Hsub : forall f, In f fl -> exists t, In (f, t) (bs1 ++ (a, s + u - 16) :: bs3)).
  { intros f Hf. destruct (rep_sub _ _ _ R f Hf) as (t & Ht).
    apply in_sides in Ht as [E|[Ht|[E|Ht]]].
    - inversion E; subst. eexists; apply in_middle.
    - exists t; apply in_sides; auto.
    - inversion E; subst. contradiction.
    - exists t; apply in_sides; auto. }
  unfold absorb.
  destruct bs3 as [|[c w] bs3].
  - (* the absorbed block was the last one *)
    unfold first_addr; cbn [map hd]. cbn [Z.eqb NULL negb].
    cbn [chain] in C3.
    constructor; cbn [mem heap_size mem_brk malloc_list_tail free_list_head
                        with_mem with_tail]; auto.
    + apply chain_app. exists a. split.
      * eapply chain_frame; [|exact C1]. intros y t Hy.
        destruct (rep_before _ _ _ _ _ _ _ _ R Hy).
        split; mem_simpl; reflexivity.
      * cbn [chain]. split; [reflexivity|]. split.
        { mem_simpl. apply to_long_id. zsolve. }
        split; [mem_simpl; exact Hp|]. split; [exact Hval|]. zsolve.
    + now rewrite last_addr_app, last_addr_cons.
    + eapply dll_frame; [|apply (rep_dll _ _ _ R)]. intros f Hf.
      destruct (Hfl f Hf) as [_ Hc]. destruct (Hc a (or_introl eq_refl)).
      split; mem_simpl; reflexivity.
    + apply (rep_nodup _ _ _ R).
  - (* a block [c] follows the absorbed one *)
    cbn [chain] in C3. destruct C3 as (Ec & Hw & Hpc & Hvc & C4).
    rewrite <- Ec in C4, Hw, Hpc.
    unfold first_addr; cbn [map fst hd].
    assert (Hc : In (c, w) (bs1 ++ (a, s) :: (b, u) :: (c, w) :: bs3))
      by (apply in_sides; right; right; right; now left).
    destruct (rep_block _ _ _ _ _ R Hc) as (D1 & D2 & D3 & D4 & D5 & D6).
    assert (Hcn : c <> NULL) by zsolve.
    apply Z.eqb_neq in Hcn as Hcn'. rewrite Hcn'. cbn [negb].
    constructor; cbn [mem heap_size mem_brk malloc_list_tail free_list_head
                        with_mem with_tail]; auto.
    + apply chain_app. exists a. split.
      * eapply chain_frame; [|exact C1]. intros y t Hy.
        destruct (rep_before _ _ _ _ _ _ _ _ R Hy).
        split; mem_simpl; reflexivity.
      * cbn [chain]. split; [reflexivity|]. split.
        { mem_simpl. apply to_long_id. zsolve. }
        split; [mem_simpl; exact Hp|]. split; [exact Hval|].
        replace (a + sizeof_BlockInfo + Z.abs (s + u - 16)) with c by zsolve.
        split; [reflexivity|]. split; [mem_simpl; exact Hw|].
        split; [mem_simpl; apply to_ulong_id; zsolve|].
        split; [exact Hvc|].
        eapply chain_frame; [|exact C4]. intros y t Hy.
        destruct (chain_In _ _ _ _ _ _ _ C4 Hy) as (G1 & _).
        split; mem_simpl; reflexivity.
    + rewrite (rep_tail _ _ _ R).
      rewrite !last_addr_app, !last_addr_cons. reflexivity.
    + eapply dll_frame; [|apply (rep_dll _ _ _ R)]. intros f Hf.
      destruct (Hfl f Hf) as [_ Hc']. destruct (Hc' a (or_introl eq_refl)).
      destruct (Hc' c) as (? & ? & ? & ?); [right; exists w; now left|].
      split; mem_simpl; reflexivity.
    + apply (rep_nodup _ _ _ R).
Qed.

Lemma rep_carve st bs1 p s bs2 fl r :
  rep st (bs1 ++ (p, s) :: bs2) fl ->
  s < 0 -> 16 <= r -> r mod 16 = 0 -> r + 16 < - s ->
  rep (carve st p r (p + 16 + r) (s + r + 16) (first_addr bs2))
      (bs1 ++ (p, r) :: (p + 16 + r, s + r + 16) :: bs2) fl.
Proof.
  intros R Hs0 Hr Hr16 Hfit.
  destruct (rep_split _ _ _ _ _ _ R) as (C1 & Hs & Hp & Hv & C2).
  pose proof (in_middle bs1 (p, s) bs2) as Hin.
  destruct (rep_block _ _ _ _ _ R Hin) as (A1 & A2 & A3 & A4 & A5 & A6).
  pose proof (rep_size _ _ _ R) as Hsz. pose proof (rep_brk _ _ _ R) as Hbk.
  set (sp := p + 16 + r) in *.
  assert (Hsp : p + 32 <= sp /\ sp + 32 <= p + 16 + Z.abs s) by (subst sp; asolve).
  assert (Hext : sp + 16 + Z.abs (s + r + 16) = p + 16 + Z.abs s) by (subst sp; lia).
  assert (Hval1 : valid_size r) by (split; [exact Hr16 | lia]).
  assert (Hval2 : valid_size (s + r + 16)).
  { destruct Hv as [Hv1 _]. split; [|lia].
    unfold_consts. Z.to_euclidean_division_equations; lia. }
  assert (Hfl : forall f, In f fl ->
            (sp <> f + 16 /\ sp <> f + 24 /\ sp + 8 <> f + 16 /\ sp + 8 <> f + 24) /\
            forall c, (c = p \/ exists w, In (c, w) bs2) ->
            c <> f + 16 /\ c <> f + 24 /\ c + 8 <> f + 16 /\ c + 8 <> f + 24).
  { intros f Hf. destruct (rep_sub _ _ _ R f Hf) as (t & Ht). split.
    - destruct (rep_block _ _ _ _ _ R Ht) as (_ & _ & _ & T4 & _).
      destruct (chain_sep _ _ _ _ _ _ _ _ _ (rep_chain _ _ _ R) Ht Hin)
        as [[E _]|[H|H]]; lia.
    - intros c [->|(w & Hw)].
      + eapply header_not_link; [apply (rep_chain _ _ _ R) | exact Hin | exact Ht].
      + eapply header_not_link; [apply (rep_chain _ _ _ R) | | exact Ht].
        apply in_sides; right; right; exact Hw. }
  assert (Hsub : forall f, In f fl ->
            exists t, In (f, t) (bs1 ++ (p, r) :: (sp, s + r + 16) :: bs2)).
  { intros f Hf. destruct (rep_sub _ _ _ R f Hf) as (t & Ht).
    apply in_sides in Ht as [E|[Ht|Ht]].
    - inversion E; subst. eexists; apply in_middle.
    - exists t; apply in_sides; auto.
    - exists t; apply in_sides; right; right; now right. }
  unfold carve.
  destruct bs2 as [|[c w] bs2].
  - (* the split block was the last one *)
    unfold first_addr; cbn [map hd]. cbn [Z.eqb NULL negb].
    cbn [chain] in C2.
    constructor; cbn [mem heap_size mem_brk malloc_list_tail free_list_head
                        with_mem with_tail]; auto.
    + apply chain_app. exists p. split.
      * eapply chain_frame; [|exact C1]. intros y t Hy.
        destruct (rep_before _ _ _ _ _ _ _ _ R Hy).
        split; mem_simpl; reflexivity.
      * cbn [chain]. split; [reflexivity|]. split.
        { mem_simpl. apply to_long_id. zsolve. }
        split; [mem_simpl; exact Hp|]. split; [exact Hval1|].
        split; [zsolve|]. split.
        { replace (p + sizeof_BlockInfo + Z.abs r) with sp by zsolve.
          mem_simpl. apply to_long_id. zsolve. }
        split.
        { replace (p + sizeof_BlockInfo + Z.abs r) with sp by zsolve.
          mem_simpl. apply to_ulong_id. zsolve. }
        split; [exact Hval2|]. zsolve.
    + rewrite last_addr_app, !last_addr_cons. reflexivity.
    + eapply dll_frame; [|apply (rep_dll _ _ _ R)]. intros f Hf.
      destruct (Hfl f Hf) as [Hsp' Hc]. destruct (Hc p (or_introl eq_refl)).
      split; mem_simpl; reflexivity.
    + apply (rep_nodup _ _ _ R).
  - (* a block [c] follows the split block *)
    cbn [chain] in C2. destruct C2 as (Ec & Hw & Hpc & Hvc & C3).
    rewrite <- Ec in C3, Hw, Hpc.
    unfold first_addr; cbn [map fst hd].
    assert (Hc : In (c, w) (bs1 ++ (p, s) :: (c, w) :: bs2))
      by (apply in_sides; right; right; now left).
    destruct (rep_block _ _ _ _ _ R Hc) as (D1 & D2 & D3 & D4 & D5 & D6).
    assert (Hcn : c <> NULL) by zsolve.
    apply Z.eqb_neq in Hcn as Hcn'. rewrite Hcn'. cbn [negb].
    constructor; cbn [mem heap_size mem_brk malloc_list_tail free_list_head
                        with_mem with_tail]; auto.
    + apply chain_app. exists p. split.
      * eapply chain_frame; [|exact C1]. intros y t Hy.
        destruct (rep_before _ _ _ _ _ _ _ _ R Hy).
        split; mem_simpl; reflexivity.
      * cbn [chain]. split; [reflexivity|]. split.
        { mem_simpl. apply to_long_id. zsolve. }
        split; [mem_simpl; exact Hp|]. split; [exact Hval1|].
        replace (p + sizeof_BlockInfo + Z.abs r) with sp by zsolve.
        split; [reflexivity|]. split.
        { mem_simpl. apply to_long_id. zsolve. }
        split; [mem_simpl; apply to_ulong_id; zsolve|].
        split; [exact Hval2|].
        replace (sp + sizeof_BlockInfo + Z.abs (s + r + 16)) with c by zsolve.
        split; [reflexivity|]. split; [mem_simpl; exact D6|].
        split; [mem_simpl; apply to_ulong_id; zsolve|].
        split; [exact Hvc|].
        eapply chain_frame; [|exact C3]. intros y t Hy.
        destruct (chain_In _ _ _ _ _ _ _ C3 Hy) as (G1 & _).
        split; mem_simpl; reflexivity.
    + rewrite (rep_tail _ _ _ R).
      rewrite !last_addr_app, !last_addr_cons. reflexivity.
    + eapply dll_frame; [|apply (rep_dll _ _ _ R)]. intros f Hf.
      destruct (Hfl f Hf) as [Hsp' Hc']. destruct (Hc' p (or_introl eq_refl)).
      destruct (Hc' c) as (? & ? & ? & ?); [right; exists w; now left|].
      split; mem_simpl; reflexivity.
    + apply (rep_nodup _ _ _ R).
Qed.

Lemma rep_append st bs fl r :
  rep st bs fl ->
  16 <= r -> r mod 16 = 0 -> mem_brk st + (16 + r) <= MAX_HEAP ->
  rep (append st r) (bs ++ [(mem_heap_lo + heap_size st, r)]) fl.
Proof.
  intros R Hr Hr16 Hfit.
  pose proof (rep_size _ _ _ R) as Hsz. pose proof (rep_brk _ _ _ R) as Hbk.
  pose proof (rep_chain _ _ _ R) as C.
  assert (Hblk : forall y t, In (y, t) bs ->
            y + 32 <= mem_heap_lo + heap_size st).
  { intros y t Hy. destruct (rep_block _ _ _ _ _ R Hy) as (_ & _ & ? & ? & _). lia. }
  assert (Htl : 0 <= malloc_list_tail st < ULONG_MOD).
  { rewrite (rep_tail _ _ _ R). destruct bs as [|b bs].
    - cbn. zsolve.
    - destruct (last_addr_In NULL (b :: bs)) as (t & Ht); [discriminate|].
      destruct (rep_block _ _ _ _ _ R Ht) as (_ & ? & ? & _). zsolve. }
  unfold append.
  constructor; cbn [mem heap_size mem_brk malloc_list_tail free_list_head].
  - lia.
  - lia.
  - apply chain_app. exists (mem_heap_lo + heap_size st). split.
    + eapply chain_frame; [|exact C]. intros y t Hy.
      pose proof (Hblk y t Hy). split; mem_simpl; reflexivity.
    + cbn [chain]. split; [reflexivity|]. split.
      { mem_simpl. apply to_long_id. zsolve. }
      split.
      { mem_simpl. rewrite to_ulong_id by assumption. apply (rep_tail _ _ _ R). }
      split; [split; [exact Hr16 | lia]|]. zsolve.
  - now rewrite last_addr_app.
  - eapply dll_frame; [|apply (rep_dll _ _ _ R)]. intros f Hf.
    destruct (rep_sub _ _ _ R f Hf) as (t & Ht).
    destruct (rep_block _ _ _ _ _ R Ht) as (_ & _ & ? & ? & _).
    split; mem_simpl; reflexivity.
  - apply (rep_nodup _ _ _ R).
  - intros f Hf. destruct (rep_sub _ _ _ R f Hf) as (t & Ht).
    exists t. apply in_or_app; now left.
Qed.

(** ** The fit search *)

(** On a well-linked list the scan ends within [length fl] steps, with
    [NULL] when no member fits and with the first fitting member
    otherwise. *)
Lemma search_loop_dll m checkSize fl : forall fuel pv h,
  dll m pv h fl -> (length fl <= fuel)%nat ->
  exists r, search_loop fuel m h checkSize = Some r /\
    ((r = NULL /\ forall f, In f fl -> checkSize < get_size m f) \/
     (In r fl /\ get_size m r <= checkSize)).
Proof.
  induction fl as [|g fl IH]; intros fuel pv h D Hlen.
  - simpl in D; subst h. exists NULL. split.
    + destruct fuel; reflexivity.
    + left; split; [reflexivity | intros f []].
  - cbn [dll] in D. destruct D as (-> & Hg & _ & D).
    destruct fuel as [|fuel]; [simpl in Hlen; lia|].
    cbn [search_loop]. apply Z.eqb_neq in Hg as Hg'. rewrite Hg'.
    destruct (Z.leb_spec (get_size m g) checkSize) as [Hle|Hgt].
    + exists g; split; [reflexivity|]. right; split; [now left | assumption].
    + destruct (IH fuel g (get_nextFree m g) D) as (r & Er & Hr);
        [simpl in Hlen; lia|].
      exists r; split; [exact Er|].
      destruct Hr as [[-> Hall]|[Hin Hle]].
      * left; split; [reflexivity|]. intros f [<-|Hf]; auto.
      * right; split; [now right | assumption].
Qed.

Lemma check_size_small r :
  0 <= r <= LONG_HALF -> to_long (to_ulong (- to_ulong r)) = - r.
Proof. intros; wrap_lia. Qed.

(** [searchFreeList] on a represented heap: it returns within
    [length fl] steps, and a block it returns is a block of the chain
    whose stored size is at most [- r]. *)
Lemma searchFreeList_rep st bs fl r fuel :
  rep st bs fl -> 0 <= r <= LONG_HALF -> (length fl <= fuel)%nat ->
  exists b, searchFreeList fuel st (to_ulong r) = Some b /\
    ((b = NULL /\ forall f, In f fl -> - r < get_size (mem st) f) \/
     (exists s, In (b, s) bs /\ s <= - r)).
Proof.
  intros R Hr Hlen. unfold searchFreeList. rewrite (check_size_small r Hr).
  destruct (Z.eqb_spec (malloc_list_tail st) NULL) as [Et|Et]; cbn [negb andb].
  - destruct (search_loop_dll (mem st) (- r) fl fuel _ _ (rep_dll _ _ _ R) Hlen)
      as (b & Eb & Hb).
    exists b; split; [exact Eb|]. destruct Hb as [Hb|[Hin Hle]]; [now left|].
    right. destruct (rep_sub _ _ _ R b Hin) as (s & Hs). exists s; split; auto.
    destruct (rep_block _ _ _ _ _ R Hs) as (_ & _ & _ & _ & _ & E). lia.
  - destruct (Z.leb_spec (get_size (mem st) (malloc_list_tail st)) (- r)) as [Hle|Hgt].
    + exists (malloc_list_tail st); split; [reflexivity|]. right.
      assert (Hne : bs <> []).
      { intros ->. apply Et. rewrite (rep_tail _ _ _ R). reflexivity. }
      destruct (last_addr_In NULL bs Hne) as (s & Hs).
      rewrite <- (rep_tail _ _ _ R) in Hs. exists s; split; auto.
      destruct (rep_block _ _ _ _ _ R Hs) as (_ & _ & _ & _ & _ & E). lia.
    + destruct (search_loop_dll (mem st) (- r) fl fuel _ _ (rep_dll _ _ _ R) Hlen)
        as (b & Eb & Hb).
      exists b; split; [exact Eb|]. destruct Hb as [Hb|[Hin Hle]]; [now left|].
      right. destruct (rep_sub _ _ _ R b Hin) as (s & Hs). exists s; split; auto.
      destruct (rep_block _ _ _ _ _ R Hs) as (_ & _ & _ & _ & _ & E). lia.
Qed.

(** ** Lists of blocks *)

Lemma first_size_app bs1 bs2 :
  first_size (bs1 ++ bs2) =
  match bs1 with [] => first_size bs2 | (_, s) :: _ => s end.
Proof. destruct bs1 as [|[x s] bs1]; reflexivity. Qed.

Lemma last_size_snoc bs x s : last_size (bs ++ [(x, s)]) = s.
Proof. unfold last_size. rewrite map_app. cbn [map snd]. apply last_last. Qed.

Lemma naf_app bs1 bs2 :
  no_adjacent_free (bs1 ++ bs2) <->
  no_adjacent_free bs1 /\ no_adjacent_free bs2 /\
  ~ (last_size bs1 < 0 /\ first_size bs2 < 0).
Proof.
  induction bs1 as [|[x s] bs1 IH].
  - cbn. unfold last_size; cbn. intuition lia.
  - cbn [app no_adjacent_free]. rewrite IH. rewrite first_size_app.
    unfold last_size. destruct bs1 as [|[y t] bs1]; cbn; intuition lia.
Qed.

Lemma naf_cons x s bs :
  no_adjacent_free ((x, s) :: bs) <->
  ~ (s < 0 /\ first_size bs < 0) /\ no_adjacent_free bs.
Proof. reflexivity. Qed.

Lemma first_size_cons x s bs : first_size ((x, s) :: bs) = s.
Proof. reflexivity. Qed.

Lemma rep_unique st bs fl a w w' :
  rep st bs fl -> In (a, w) bs -> In (a, w') bs -> w = w'.
Proof.
  intros R H1 H2.
  destruct (rep_block _ _ _ _ _ R H1) as (_ & _ & _ & ? & _).
  destruct (chain_sep _ _ _ _ _ _ _ _ _ (rep_chain _ _ _ R) H1 H2)
    as [[_ E]|[H0|H0]]; [assumption | lia | lia].
Qed.

Lemma fl_remove_iff (l1 : list Z) f l2 a :
  NoDup (l1 ++ f :: l2) ->
  (In a (l1 ++ l2) <-> In a (l1 ++ f :: l2) /\ a <> f).
Proof.
  intros Hnd. apply NoDup_remove_2 in Hnd.
  rewrite in_sides, !in_app_iff in *. split.
  - intros H. split; [tauto|]. intros ->. tauto.
  - tauto.
Qed.

(** [mm_malloc] when the fit search returns the block [b] of a well-formed
    heap: the block is split when its capacity exceeds the rounded size by
    more than a header, and handed out whole otherwise. *)
Lemma mm_malloc_hit st bs1 b s bs2 l1 l2 n fuel :
  wf st (bs1 ++ (b, s) :: bs2) (l1 ++ b :: l2) ->
  0 < n <= LONG_HALF - 16 -> s <= - round_request n ->
  searchFreeList fuel st (round_request n) = Some b ->
  let r := round_request n in
  if r + 16 <? - s then
    let st' := insertFreeBlock
                 (carve (removeFreeBlock st b) b r (b + 16 + r) (s + r + 16)
                    (first_addr bs2)) (b + 16 + r) in
    mm_malloc fuel st n = Returns st' (b + 16) /\
    wf st' (bs1 ++ (b, r) :: (b + 16 + r, s + r + 16) :: bs2)
       ((b + 16 + r) :: l1 ++ l2) /\
    heap_size st' = heap_size st
  else
    let st' := removeFreeBlock (with_mem st (set_size (mem st) b (- s))) b in
    mm_malloc fuel st n = Returns st' (b + 16) /\
    wf st' (bs1 ++ (b, - s) :: bs2) (l1 ++ l2) /\
    heap_size st' = heap_size st.
Proof.
  intros W Hn Hfit Eb. pose proof (wf_rep _ _ _ W) as R.
  destruct (round_request_bounds n Hn) as (Hr1 & Hr16 & Hr2).
  cbv zeta. set (r := round_request n) in *.
  pose proof (rep_size _ _ _ R) as Hsz. pose proof (rep_brk _ _ _ R) as Hbk.
  assert (Er : to_ulong r = r) by (apply to_ulong_id; zsolve).
  unfold mm_malloc. fold r.
  destruct (Z.eqb_spec n 0) as [|_]; [lia|].
  rewrite Er, Eb.
  assert (Hneg : s < 0) by lia.
  pose proof (in_middle bs1 (b, s) bs2) as Hs.
  destruct (rep_block _ _ _ _ _ R Hs) as (A1 & A2 & A3 & A4 & A5 & A6).
  destruct (rep_size_long _ _ _ _ _ R Hs) as [L1 L2].
  destruct (Z.eqb_spec b NULL) as [E|_]; [zsolve|].
  rewrite A6.
  rewrite (to_ulong_id (r + sizeof_BlockInfo)) by zsolve.
  rewrite (to_long_id (- s)) by zsolve.
  rewrite (to_ulong_id (- s)) by zsolve.
  rewrite (to_ulong_id (b + sizeof_BlockInfo)) by zsolve.
  pose proof (rep_remove _ _ _ _ _ R) as R1.
  pose proof (rep_nodup _ _ _ R) as Hnd.
  assert (Hother : forall a w, In (a, w) bs1 \/ In (a, w) bs2 -> a <> b).
  { intros a w [Ha|Ha].
    - destruct (rep_before _ _ _ _ _ _ _ _ R Ha). lia.
    - destruct (rep_after _ _ _ _ _ _ _ _ R Ha). lia. }
  assert (Hfree : forall a, In a (l1 ++ l2) <->
            exists w, (In (a, w) bs1 \/ In (a, w) bs2) /\ w < 0).
  { intros a. rewrite (fl_remove_iff _ _ _ _ Hnd), (wf_free _ _ _ W a). split.
    - intros [(w & Hw & Hw0) Hab]. exists w. split; [|assumption].
      apply in_sides in Hw as [E|Hw]; [inversion E; congruence | assumption].
    - intros (w & Hw & Hw0). split; [|eapply Hother; eauto].
      exists w; split; [apply in_sides; now right | assumption]. }
  pose proof (wf_nadj _ _ _ W) as Hnaf.
  apply naf_app in Hnaf as (N1 & N2 & N3). apply naf_cons in N2 as [N4 N5].
  rewrite first_size_cons in N3.
  change (r + 16) with (r + sizeof_BlockInfo).
  destruct (Z.ltb_spec (r + sizeof_BlockInfo) (- s)) as [Hsplit|Hexact].
  + (* == Split Existing Block == *)
    rewrite (next_block_rep _ _ _ _ _ _ R).
    replace (to_ulong (b + (r + sizeof_BlockInfo))) with (b + 16 + r)
      by (rewrite to_ulong_id; zsolve).
    destruct (rep_block _ _ _ _ _ R1 Hs) as (_ & _ & _ & _ & _ & A6').
    rewrite A6'.
    replace (to_long (to_ulong (to_ulong (to_long (s + r)) + sizeof_BlockInfo)))
      with (s + r + 16) by (clear - L1 L2 Hr2 Hneg; wrap_lia).
    match goal with
    | |- context [insertFreeBlock ?X _] =>
        change X with (carve (removeFreeBlock st b) b r (b + 16 + r)
                         (s + r + 16) (first_addr bs2))
    end.
    pose proof (rep_carve _ _ _ _ _ _ r R1 Hneg ltac:(lia) Hr16 ltac:(zsolve)) as R2.
    assert (Hsp : ~ In (b + 16 + r) (l1 ++ l2)).
    { intros Hin. destruct (rep_sub _ _ _ R1 _ Hin) as (w & Hw).
      destruct (chain_sep _ _ _ _ _ _ _ _ _ (rep_chain _ _ _ R) Hw Hs)
        as [[E _]|[H|H]]; zsolve. }
    assert (Hspin : In (b + 16 + r, s + r + 16)
              (bs1 ++ (b, r) :: (b + 16 + r, s + r + 16) :: bs2))
      by (apply in_sides; right; right; now left).
    split; [reflexivity|]. split.
    * constructor.
      -- eapply rep_insert; eauto.
      -- intros a. cbn [In]. rewrite Hfree. split.
         ++ intros [<-|(w & Hw & Hw0)]; [exists (s + r + 16); split; [assumption|zsolve]|].
            exists w; split; [|assumption]. apply in_sides.
            destruct Hw; [tauto | right; right; now right].
         ++ intros (w & Hw & Hw0).
            apply in_sides in Hw as [E|[Hw|[E|Hw]]].
            ** inversion E; subst; lia.
            ** right; eauto.
            ** inversion E; now left.
            ** right; eauto.
      -- apply naf_app. split; [assumption|]. split.
         ++ cbn [no_adjacent_free first_size map snd hd].
            split; [lia|]. split; [|assumption]. fold (first_size bs2). tauto.
         ++ rewrite first_size_cons. lia.
    * destruct (insertFreeBlock_fields
                  (carve (removeFreeBlock st b) b r (b + 16 + r) (s + r + 16)
                     (first_addr bs2)) (b + 16 + r)) as (_ & _ & E & _); [zsolve|].
      rewrite E. unfold carve.
      rewrite (removeFreeBlock_member _ _ _ _ (rep_dll _ _ _ R)).
      destruct (negb (first_addr bs2 =? NULL)); reflexivity.
  + (* == Exact Size == *)
    pose proof (rep_set_size _ _ _ _ _ _ (- s) R ltac:(lia)) as R2.
    apply rep_remove in R2.
    split; [reflexivity|]. split.
    * constructor.
      -- exact R2.
      -- intros a. rewrite Hfree. split.
         ++ intros (w & Hw & Hw0). exists w; split; [|assumption].
            apply in_sides; now right.
         ++ intros (w & Hw & Hw0).
            apply in_sides in Hw as [E|Hw]; [inversion E; subst; lia | eauto].
      -- apply naf_app. split; [assumption|]. split.
         ++ apply naf_cons. split; [lia | assumption].
         ++ rewrite first_size_cons. lia.
    * pose proof (rep_set_size _ _ _ _ _ _ (- s) R ltac:(lia)) as R3.
      rewrite (removeFreeBlock_member _ _ _ _ (rep_dll _ _ _ R3)).
      reflexivity.
Qed.

Lemma mm_malloc_wf st bs fl n fuel :
  wf st bs fl -> 0 < n <= LONG_HALF - 16 -> (length fl <= fuel)%nat ->
  (mm_malloc fuel st n = Exits /\
   MAX_HEAP < mem_brk st + (16 + round_request n) /\
   forall a s, In (a, s) bs -> - round_request n < s) \/
  exists st' p bs' fl',
    mm_malloc fuel st n = Returns st' p /\ wf st' bs' fl' /\
    alloc_step (mem_heap_lo + heap_size st) (round_request n) bs fl p bs' fl'
               (heap_size st' - heap_size st).
Proof.
  intros W Hn Hlen. pose proof (wf_rep _ _ _ W) as R.
  destruct (round_request_bounds n Hn) as (Hr1 & Hr16 & Hr2).
  set (r := round_request n) in *.
  pose proof (rep_size _ _ _ R) as Hsz. pose proof (rep_brk _ _ _ R) as Hbk.
  assert (Er : to_ulong r = r) by (apply to_ulong_id; zsolve).
  destruct (searchFreeList_rep st bs fl r fuel R) as (b & Eb & Hb);
    [zsolve | assumption |].
  rewrite Er in Eb.
  destruct Hb as [[-> Hnofit]|(s & Hs & Hfit)].
  - (* == No Free Blocks to Use == *)
    unfold mm_malloc. fold r.
    destruct (Z.eqb_spec n 0) as [|_]; [lia|].
    rewrite Er, Eb.
    cbn [Z.eqb NULL].
    assert (Hno : forall a s, In (a, s) bs -> - r < s).
    { intros a s Has. destruct (Z.lt_ge_cases s 0) as [Hneg|]; [|lia].
      assert (Ha : In a fl) by (apply (wf_free _ _ _ W); eauto).
      specialize (Hnofit a Ha).
      destruct (rep_block _ _ _ _ _ R Has) as (_ & _ & _ & _ & _ & E). lia. }
    unfold requestMoreSpace, mem_sbrk.
    cbn [mem_brk heap_size with_heap_size with_brk].
    rewrite (to_ulong_id (sizeof_BlockInfo + r)) by zsolve.
    destruct (Z.leb_spec (mem_brk st + (sizeof_BlockInfo + r)) MAX_HEAP) as [Hok|Hex].
    + right.
      rewrite (to_ulong_id (mem_heap_lo + heap_size st)) by zsolve.
      destruct (Z.eqb_spec (mem_heap_lo + heap_size st) NULL) as [E|_]; [zsolve|].
      rewrite (to_ulong_id (heap_size st + _)) by zsolve.
      rewrite (to_ulong_id (mem_heap_lo + _ + _)) by zsolve.
      exists (append st r), (mem_heap_lo + heap_size st + 16),
        (bs ++ [(mem_heap_lo + heap_size st, r)]), fl.
      split; [reflexivity|]. split.
      * constructor.
        -- apply rep_append; auto; zsolve.
        -- intros a. rewrite (wf_free _ _ _ W a). split.
           ++ intros (s & Hs & Hneg). exists s; split; [apply in_or_app; now left | assumption].
           ++ intros (s & Hs & Hneg). apply in_app_or in Hs as [Hs|[E|[]]]; [eauto|].
              inversion E; subst; lia.
        -- apply naf_app. split; [apply (wf_nadj _ _ _ W)|]. split.
           ++ cbn. split; [lia | exact I].
           ++ cbn. lia.
      * cbn [append heap_size].
        replace (heap_size st + (16 + r) - heap_size st) with (16 + r) by lia.
        constructor; auto.
    + left. split; [reflexivity|]. split; [zsolve | exact Hno].
  - (* a block [b] of stored size [s] fits *)
    assert (Hbfl : In b fl) by (apply (wf_free _ _ _ W); exists s; split; [assumption | lia]).
    destruct (in_split _ _ Hs) as (bs1 & bs2 & Ebs).
    destruct (in_split _ _ Hbfl) as (l1 & l2 & Efl).
    subst bs fl. right.
    pose proof (mm_malloc_hit st bs1 b s bs2 l1 l2 n fuel W Hn Hfit Eb) as H.
    cbv zeta in H. fold r in H.
    destruct (Z.ltb_spec (r + 16) (- s)) as [Hsplit|Hexact];
      destruct H as (E & W' & Eh); do 4 eexists;
      (split; [exact E|]); (split; [exact W'|]); rewrite Eh, Z.sub_diag.
    + eapply alloc_split; eauto.
    + eapply alloc_exact; eauto. lia.
Qed.

(** ** Coalescing *)

Lemma last_addr_snoc d bs x s : last_addr d (bs ++ [(x, s)]) = x.
Proof. now rewrite last_addr_app. Qed.

Lemma merge_prev_pending st bs1 x v bs2 fl :
  pending st bs1 x v bs2 fl ->
  exists bsA z v1 flA,
    merge_prev st x (first_addr bs2) (last_addr NULL bs1) =
      (fst (merge_prev st x (first_addr bs2) (last_addr NULL bs1)), z) /\
    prev_merge bs1 x v fl bsA z v1 flA /\
    pending (fst (merge_prev st x (first_addr bs2) (last_addr NULL bs1)))
            bsA z v1 bs2 flA /\
    0 <= last_size bsA.
Proof.
  intros P. pose proof (pd_rep _ _ _ _ _ _ P) as R.
  pose proof (pd_neg _ _ _ _ _ _ P) as Hv.
  destruct bs1 as [|b0 bs1'] using rev_ind.
  - (* no previous block *)
    exists [], x, v, fl. unfold merge_prev. cbn [last_addr map last].
    cbn [Z.eqb NULL negb andb fst].
    split; [reflexivity|]. split; [constructor; cbn; lia|].
    split; [exact P | cbn; lia].
  - clear IHbs1'. destruct b0 as [y t].
    rewrite last_addr_snoc.
    assert (Hy : In (y, t) ((bs1' ++ [(y, t)]) ++ (x, v) :: bs2))
      by (apply in_or_app; left; apply in_or_app; right; now left).
    destruct (rep_block _ _ _ _ _ R Hy) as (A1 & A2 & A3 & A4 & A5 & A6).
    destruct (rep_size_long _ _ _ _ _ R Hy) as [L1 L2].
    assert (Hx : In (x, v) ((bs1' ++ [(y, t)]) ++ (x, v) :: bs2))
      by apply in_middle.
    destruct (rep_size_long _ _ _ _ _ R Hx) as [L3 _].
    destruct (rep_block _ _ _ _ _ R Hx) as (_ & _ & X3 & _).
    assert (Hyx : y + 16 + Z.abs t <= x).
    { eapply rep_before; [exact R|]. apply in_or_app; right; now left. }
    unfold merge_prev.
    destruct (Z.eqb_spec y NULL) as [E|_]; [zsolve|]. cbn [negb andb].
    rewrite A6.
    destruct (Z.ltb_spec t 0) as [Ht|Ht].
    + (* the previous block is free *)
      assert (Hyfl : In y fl).
      { apply (pd_free _ _ _ _ _ _ P). exists t. split; [|assumption].
        left; apply in_or_app; right; now left. }
      destruct (in_split _ _ Hyfl) as (l1 & l2 & ->).
      pose proof (rep_nodup _ _ _ R) as Hnd.
      pose proof (rep_remove _ _ _ _ _ R) as R1.
      destruct (rep_block _ _ _ _ _ R1 Hy) as (_ & _ & _ & _ & _ & E1).
      destruct (rep_block _ _ _ _ _ R1 Hx) as (_ & _ & _ & _ & _ & E2).
      rewrite E1, E2.
      rewrite (merged_size_small t v) by zsolve.
      match goal with
      | |- context [(?X, y)] =>
          change X with (absorb (removeFreeBlock st y) y (t + v - 16) (first_addr bs2))
      end.
      cbn [fst].
      exists bs1', y, (t + v - 16), (l1 ++ l2).
      split; [reflexivity|]. split; [econstructor; eauto|].
      assert (Hxn : ~ In x (l1 ++ l2)).
      { intros Hin. apply (pd_out _ _ _ _ _ _ P).
        apply (fl_remove_iff _ _ _ _ Hnd) in Hin. tauto. }
      rewrite <- app_assoc in R1, R. cbn [app] in R1, R.
      pose proof (pd_nafA _ _ _ _ _ _ P) as NA.
      apply naf_app in NA as (NA1 & _ & NA3). rewrite first_size_cons in NA3.
      split; [|lia].
      constructor.
      * apply (rep_absorb _ _ _ _ x v); assumption.
      * lia.
      * apply NoDup_remove_2 in Hnd. exact Hnd.
      * intros a. rewrite (fl_remove_iff _ _ _ _ Hnd), (pd_free _ _ _ _ _ _ P a).
        split.
        -- intros [(w & Hw & Hw0) Hay]. exists w; split; [|assumption].
           destruct Hw as [Hw|Hw]; [|now right].
           apply in_app_or in Hw as [Hw|[E|[]]]; [now left|].
           inversion E; congruence.
        -- intros (w & Hw & Hw0). split.
           ++ exists w; split; [|assumption].
              destruct Hw; [left; apply in_or_app; now left | now right].
           ++ destruct Hw as [Hw|Hw].
              ** destruct (rep_before _ _ _ _ _ _ _ _ R Hw). lia.
              ** assert (Hw' : In (a, w) ((x, v) :: bs2)) by now right.
                 destruct (rep_after _ _ _ _ _ _ _ _ R Hw'). lia.
      * assumption.
      * apply (pd_nafB _ _ _ _ _ _ P).
    + (* the previous block is allocated *)
      cbn [fst]. exists (bs1' ++ [(y, t)]), x, v, fl.
      split; [reflexivity|]. rewrite last_size_snoc.
      split; [constructor; rewrite last_size_snoc; lia|].
      split; [exact P | lia].
Qed.

Lemma merge_next_pending st bsA z v bs2 fl :
  pending st bsA z v bs2 fl ->
  exists v2 bsB flB,
    next_merge bs2 v fl v2 bsB flB /\
    pending (merge_next st z (first_addr bs2)) bsA z v2 bsB flB /\
    0 <= first_size bsB.
Proof.
  intros P. pose proof (pd_rep _ _ _ _ _ _ P) as R.
  pose proof (pd_neg _ _ _ _ _ _ P) as Hv.
  destruct bs2 as [|[c w] bs3].
  - (* no next block *)
    exists v, [], fl. unfold merge_next, first_addr. cbn [map hd].
    cbn [Z.eqb NULL negb andb].
    split; [constructor; cbn; lia|]. split; [exact P | cbn; lia].
  - unfold first_addr; cbn [map fst hd].
    assert (Hc : In (c, w) (bsA ++ (z, v) :: (c, w) :: bs3))
      by (apply in_sides; right; right; now left).
    pose proof (in_middle bsA (z, v) ((c, w) :: bs3)) as Hz.
    destruct (rep_block _ _ _ _ _ R Hc) as (C1 & C2 & C3 & C4 & C5 & C6).
    destruct (rep_block _ _ _ _ _ R Hz) as (Z1 & Z2 & Z3 & Z4 & Z5 & Z6).
    destruct (rep_size_long _ _ _ _ _ R Hc) as [L1 L2].
    assert (Hzc : z + 16 + Z.abs v <= c).
    { eapply rep_after; [exact R | now left]. }
    pose proof (rep_size _ _ _ R) as Hsz. pose proof (rep_brk _ _ _ R) as Hbk.
    unfold merge_next.
    destruct (Z.eqb_spec c NULL) as [E|_]; [zsolve|]. cbn [negb andb].
    rewrite C6.
    destruct (Z.ltb_spec w 0) as [Hw|Hw].
    + (* the next block is free *)
      assert (Hcfl : In c fl).
      { apply (pd_free _ _ _ _ _ _ P). exists w. split; [|assumption].
        right; now left. }
      destruct (in_split _ _ Hcfl) as (l1 & l2 & ->).
      pose proof (rep_nodup _ _ _ R) as Hnd.
      pose proof (rep_remove _ _ _ _ _ R) as R1.
      destruct (rep_block _ _ _ _ _ R1 Hc) as (_ & _ & _ & _ & _ & E1).
      destruct (rep_block _ _ _ _ _ R1 Hz) as (_ & _ & _ & _ & _ & E2).
      rewrite E1, E2.
      rewrite (merged_size_small v w) by zsolve.
      assert (Ehs : heap_size (removeFreeBlock st c) = heap_size st).
      { rewrite (removeFreeBlock_member _ _ _ _ (rep_dll _ _ _ R)). reflexivity. }
      assert (Enn : next_block
                (with_mem (removeFreeBlock st c)
                   (set_size (mem (removeFreeBlock st c)) z (v + w - 16))) c
              = first_addr bs3).
      { rewrite (next_block_eval _ c w); cbn [mem heap_size with_mem].
        - rewrite Ehs.
          destruct (rep_split _ _ _ _ _ _ R) as (_ & _ & _ & _ & K).
          cbn [chain] in K. destruct K as (Ec & _ & _ & _ & K).
          rewrite <- Ec in K.
          destruct (chain_first _ _ _ _ _ K) as [Ef _]. rewrite Ef.
          reflexivity.
        - mem_simpl. exact E1.
        - zsolve.
        - zsolve.
        - rewrite Ehs; lia.
        - rewrite Ehs; zsolve. }
      rewrite Enn.
      match goal with
      | |- context [pending ?X _ _ _ _ _] =>
          change X with (absorb (removeFreeBlock st c) z (v + w - 16) (first_addr bs3))
      end.
      exists (v + w - 16), bs3, (l1 ++ l2).
      split; [econstructor; eauto|].
      pose proof (pd_nafB _ _ _ _ _ _ P) as NB.
      apply naf_cons in NB as [NB1 NB2].
      split; [|lia].
      constructor.
      * apply (rep_absorb _ _ _ _ c w); auto.
        apply NoDup_remove_2 in Hnd. exact Hnd.
      * lia.
      * intros Hin. apply (pd_out _ _ _ _ _ _ P).
        apply (fl_remove_iff _ _ _ _ Hnd) in Hin. tauto.
      * intros a. rewrite (fl_remove_iff _ _ _ _ Hnd), (pd_free _ _ _ _ _ _ P a).
        split.
        -- intros [(u & Hu & Hu0) Hac]. exists u; split; [|assumption].
           destruct Hu as [Hu|[E|Hu]]; [now left | inversion E; congruence | now right].
        -- intros (u & Hu & Hu0). split.
           ++ exists u; split; [|assumption].
              destruct Hu; [now left | right; now right].
           ++ destruct Hu as [Hu|Hu].
              ** destruct (rep_before _ _ _ _ _ _ _ _ R Hu). lia.
              ** assert (R' : rep st ((bsA ++ [(z, v)]) ++ (c, w) :: bs3) (l1 ++ c :: l2))
                   by (rewrite <- app_assoc; exact R).
                 destruct (rep_after _ _ _ _ _ _ _ _ R' Hu). lia.
      * apply (pd_nafA _ _ _ _ _ _ P).
      * assumption.
    + (* the next block is allocated *)
      exists v, ((c, w) :: bs3), fl.
      split; [constructor; rewrite first_size_cons; lia|].
      split; [exact P | rewrite first_size_cons; lia].
Qed.

(** The last step of [coalesce]: the pending block enters the free list. *)
Lemma pending_insert st bsA z v bsB fl :
  pending st bsA z v bsB fl ->
  0 <= last_size bsA -> 0 <= first_size bsB ->
  wf (insertFreeBlock st z) (bsA ++ (z, v) :: bsB) (z :: fl).
Proof.
  intros P HA HB. pose proof (pd_rep _ _ _ _ _ _ P) as R.
  constructor.
  - eapply rep_insert; [exact R | apply in_middle | apply (pd_out _ _ _ _ _ _ P)].
  - intros a. cbn [In]. rewrite (pd_free _ _ _ _ _ _ P a). split.
    + intros [<-|(w & Hw & Hw0)].
      * exists v; split; [apply in_middle | apply (pd_neg _ _ _ _ _ _ P)].
      * exists w; split; [|assumption]. apply in_sides. now right.
    + intros (w & Hw & Hw0). apply in_sides in Hw as [E|Hw].
      * inversion E; now left.
      * right; eauto.
  - apply naf_app. split; [apply (pd_nafA _ _ _ _ _ _ P)|]. split.
    + apply naf_cons. split; [lia | apply (pd_nafB _ _ _ _ _ _ P)].
    + lia.
Qed.

(** [coalesce] without its shortcut for a block with no neighbour: the
    two merging steps do nothing in that case. *)
Lemma coalesce_steps st blockInfo :
  coalesce st blockInfo =
  if (blockInfo =? NULL) || (0 <=? get_size (mem st) blockInfo) then st
  else
    let nextBlock := next_block st blockInfo in
    let previousBlock := get_prev (mem st) blockInfo in
    let st1 := fst (merge_prev st blockInfo nextBlock previousBlock) in
    let blockInfo1 := snd (merge_prev st blockInfo nextBlock previousBlock) in
    insertFreeBlock (merge_next st1 blockInfo1 nextBlock) blockInfo1.
Proof.
  unfold coalesce.
  destruct ((blockInfo =? NULL) || (0 <=? get_size (mem st) blockInfo));
    [reflexivity|].
  cbv zeta.
  destruct (Z.eqb_spec (next_block st blockInfo) NULL) as [En|En];
    destruct (Z.eqb_spec (get_prev (mem st) blockInfo) NULL) as [Ep|Ep];
    cbn [andb];
    try (destruct (merge_prev st blockInfo (next_block st blockInfo)
                    (get_prev (mem st) blockInfo)); reflexivity).
  rewrite En, Ep. unfold merge_prev, merge_next.
  cbn [Z.eqb NULL negb andb fst snd]. reflexivity.
Qed.

Lemma mm_free_wf st bs fl p s :
  wf st bs fl -> In (p - 16, s) bs -> 0 < s ->
  exists bs' fl',
    wf (mm_free st p) bs' fl' /\ free_step bs fl p bs' fl'.
Proof.
  intros W Hin Hs. pose proof (wf_rep _ _ _ W) as R.
  destruct (rep_block _ _ _ _ _ R Hin) as (A1 & A2 & A3 & A4 & A5 & A6).
  destruct (rep_size_long _ _ _ _ _ R Hin) as [L1 L2].
  pose proof (rep_size _ _ _ R) as Hsz. pose proof (rep_brk _ _ _ R) as Hbk.
  destruct (in_split _ _ Hin) as (bs1 & bs2 & ->).
  unfold mm_free.
  destruct (Z.eqb_spec p NULL) as [E|_]; [zsolve|].
  rewrite (to_ulong_id (p - sizeof_BlockInfo)) by zsolve.
  change (p - sizeof_BlockInfo) with (p - 16).
  rewrite A6. rewrite (to_long_id (- s)) by zsolve.
  set (st0 := with_mem st (set_size (mem st) (p - 16) (- s))).
  assert (R0 : rep st0 (bs1 ++ (p - 16, - s) :: bs2) fl)
    by (apply (rep_set_size _ _ _ s); [exact R | lia]).
  pose proof (wf_nadj _ _ _ W) as Hnaf.
  apply naf_app in Hnaf as (N1 & N2 & _). apply naf_cons in N2 as [_ N2].
  assert (P0 : pending st0 bs1 (p - 16) (- s) bs2 fl).
  { constructor; auto; [lia | |].
    - intros Hfl. apply (wf_free _ _ _ W) in Hfl as (w & Hw & Hw0).
      pose proof (rep_unique _ _ _ _ _ _ R Hw Hin). lia.
    - intros a. rewrite (wf_free _ _ _ W a). split.
      + intros (w & Hw & Hw0). exists w; split; [|assumption].
        apply in_sides in Hw as [E|Hw]; [inversion E; lia | assumption].
      + intros (w & Hw & Hw0). exists w; split; [|assumption].
        apply in_sides. now right. }
  rewrite coalesce_steps.
  pose proof (in_middle bs1 (p - 16, - s) bs2) as Hin0.
  destruct (rep_block _ _ _ _ _ R0 Hin0) as (_ & _ & _ & _ & _ & E0).
  destruct (Z.eqb_spec (p - 16) NULL) as [E|_]; [zsolve|].
  rewrite E0. destruct (Z.leb_spec 0 (- s)) as [|_]; [lia|].
  cbn [orb]. cbv zeta.
  rewrite (next_block_rep _ _ _ _ _ _ R0).
  destruct (rep_split _ _ _ _ _ _ R0) as (_ & _ & Ep & _). rewrite Ep.
  destruct (merge_prev_pending _ _ _ _ _ _ P0) as (bsA & z & v1 & flA & Em & PM & P1 & HA).
  rewrite Em. cbn [fst snd].
  destruct (merge_next_pending _ _ _ _ _ _ P1) as (v2 & bsB & flB & NM & P2 & HB).
  exists (bsA ++ (z, v2) :: bsB), (z :: flB). split.
  - apply pending_insert; assumption.
  - econstructor; eauto.
Qed.

(** ** Reachable states *)

(** More fuel does not change a scan that has finished. *)
Lemma search_loop_mono fuel : forall fuel' m p checkSize r,
  (fuel <= fuel')%nat ->
  search_loop fuel m p checkSize = Some r ->
  search_loop fuel' m p checkSize = Some r.
Proof.
  induction fuel as [|fuel IH]; intros fuel' m p checkSize r Hle;
    cbn [search_loop].
  - destruct (Z.eqb_spec p NULL) as [->|Hp]; [|discriminate].
    intros E. destruct fuel'; cbn [search_loop]; now rewrite Z.eqb_refl.
  - destruct fuel' as [|fuel']; [lia|]. cbn [search_loop].
    destruct (p =? NULL); [auto|].
    destruct (get_size m p <=? checkSize); [auto|].
    apply IH. lia.
Qed.

Lemma mm_malloc_mono fuel fuel' st n st' p :
  (fuel <= fuel')%nat ->
  mm_malloc fuel st n = Returns st' p ->
  mm_malloc fuel' st n = Returns st' p.
Proof.
  intros Hle. unfold mm_malloc. destruct (n =? 0); [auto|].
  unfold searchFreeList.
  destruct (negb (malloc_list_tail st =? NULL) &&
            (get_size (mem st) (malloc_list_tail st) <=?
             to_long (to_ulong (- to_ulong (round_request n))))); [auto|].
  destruct (search_loop fuel (mem st) (free_list_head st)
              (to_long (to_ulong (- to_ulong (round_request n))))) as [b|] eqn:E;
    [|discriminate].
  now rewrite (search_loop_mono _ _ _ _ _ _ Hle E).
Qed.

Lemma prev_merge_alloc bs1 x v fl bsA z v1 flA :
  prev_merge bs1 x v fl bsA z v1 flA -> v < 0 ->
  v1 < 0 /\
  forall a w, 0 < w -> (In (a, w) bsA <-> In (a, w) bs1).
Proof.
  intros [H|bs0 y t l1 l2 -> Ht ->] Hv.
  - split; [assumption | tauto].
  - split; [lia|]. intros a w Hw. rewrite in_app_iff. cbn [In].
    split; [tauto|]. intros [H|[E|[]]]; [assumption|]. inversion E; lia.
Qed.

Lemma next_merge_alloc bs2 v fl v2 bsB flB :
  next_merge bs2 v fl v2 bsB flB -> v < 0 ->
  v2 < 0 /\
  forall a w, 0 < w -> (In (a, w) bsB <-> In (a, w) bs2).
Proof.
  intros [H|c w0 bs3 l1 l2 -> Hw0 ->] Hv.
  - split; [assumption | tauto].
  - split; [lia|]. intros a w Hw. cbn [In].
    split; [tauto|]. intros [E|H]; [inversion E; lia | assumption].
Qed.

Lemma mm_init_wf st :
  0 <= mem_brk st <= MAX_HEAP -> wf (fst (mm_init st)) [] [].
Proof.
  intros Hb. unfold mm_init. cbn [fst].
  constructor; [constructor|..];
    cbn [mem heap_size mem_brk malloc_list_tail free_list_head
         with_heap_size with_tail with_head chain dll In no_adjacent_free];
    try lia; try reflexivity; try tauto.
  - constructor.
  - intros a; split; [tauto | intros (s & [] & _)].
Qed.

(** A write to the payload of an allocated block touches neither a
    header nor a link field of a free block. *)
Lemma client_write_wf st bs fl p w v :
  wf st bs fl ->
  (exists s, In (p - 16, s) bs /\ 0 < s) ->
  p <= w -> w + 8 <= p + get_size (mem st) (p - sizeof_BlockInfo) ->
  wf (with_mem st (store (mem st) w v)) bs fl.
Proof.
  intros W (s & Hs & Hpos) Hlo Hhi. pose proof (wf_rep _ _ _ W) as R.
  destruct (rep_block _ _ _ _ _ R Hs) as (_ & _ & _ & _ & _ & Es).
  change (p - sizeof_BlockInfo) with (p - 16) in Hhi. rewrite Es in Hhi.
  constructor; [|apply (wf_free _ _ _ W) | apply (wf_nadj _ _ _ W)].
  constructor; cbn [mem heap_size mem_brk malloc_list_tail free_list_head with_mem].
  - apply (rep_size _ _ _ R).
  - apply (rep_brk _ _ _ R).
  - eapply chain_frame; [|apply (rep_chain _ _ _ R)]. intros x t Hx.
    destruct (rep_block _ _ _ _ _ R Hx) as (_ & _ & _ & ? & _).
    destruct (chain_sep _ _ _ _ _ _ _ _ _ (rep_chain _ _ _ R) Hx Hs)
      as [[E _]|[H1|H1]]; rewrite !store_other by lia; auto.
  - apply (rep_tail _ _ _ R).
  - eapply dll_frame; [|apply (rep_dll _ _ _ R)]. intros f Hf.
    apply (wf_free _ _ _ W) in Hf as (t & Ht & Hneg).
    destruct (rep_block _ _ _ _ _ R Ht) as (_ & _ & _ & ? & _).
    destruct (chain_sep _ _ _ _ _ _ _ _ _ (rep_chain _ _ _ R) Ht Hs)
      as [[_ E]|[H1|H1]]; [lia | |]; rewrite !store_other by lia; auto.
  - apply (rep_nodup _ _ _ R).
  - apply (rep_sub _ _ _ R).
Qed.

(** The invariant holds in every reachable state, as long as no request
    exceeds [MAX_REQUEST]. *)
Theorem reachable_wf st live :
  reachable MAX_REQUEST st live ->
  exists bs fl, wf st bs fl /\ live_blocks live bs.
Proof.
  induction 1 as [st Hb | st live _ IH | st live fuel n st' p _ IH Hn Hm
                 | st live p _ IH Hp | st live _ IH
                 | st live p w v _ IH Hp Hlo Hhi].
  - exists [], []. split; [apply mm_init_wf; assumption|].
    intros q; split; [intros [] | intros (s & [] & _)].
  - destruct IH as (bs & fl & W & _).
    pose proof (wf_rep _ _ _ W) as R.
    pose proof (rep_size _ _ _ R). pose proof (rep_brk _ _ _ R).
    exists [], []. split; [apply mm_init_wf; lia|].
    intros q; split; [intros [] | intros (s & [] & _)].
  - destruct IH as (bs & fl & W & L).
    destruct (Z.eq_dec n 0) as [->|Hn0].
    { unfold mm_malloc in Hm. cbn [Z.eqb] in Hm. inversion Hm; subst.
      cbn [Z.eqb NULL]. eauto. }
    pose proof (wf_rep _ _ _ W) as R.
    apply (mm_malloc_mono fuel (Nat.max fuel (length fl))) in Hm; [|lia].
    destruct (mm_malloc_wf st bs fl n (Nat.max fuel (length fl)) W)
      as [[E _]|(st2 & p2 & bs' & fl' & E & W' & Hstep)];
      [unfold MAX_REQUEST in Hn; lia | lia | congruence |].
    rewrite E in Hm. inversion Hm; subst st2 p2. clear Hm E.
    exists bs', fl'. split; [assumption|].
    pose proof (wf_rep _ _ _ W') as R'.
    destruct (round_request_bounds n) as (_ & _ & Hr);
      [unfold MAX_REQUEST in Hn; lia|].
    inversion Hstep as [Ep Hno | b bs1 s bs2 l1 l2 Ep Ebs Efl Hfit
                       | b bs1 s bs2 l1 l2 Ep Ebs Efl Hfit]; subst.
    + pose proof (rep_size _ _ _ R).
      destruct (Z.eqb_spec (mem_heap_lo + heap_size st + 16) NULL); [zsolve|].
      intros q. cbn [In]. rewrite (L q). split.
      * intros [<-|(s & Hs & Hs0)].
        -- exists (round_request n). split; [|lia]. apply in_or_app; right.
           left. f_equal. lia.
        -- exists s; split; [apply in_or_app; now left | assumption].
      * intros (s & Hs & Hs0). apply in_app_or in Hs as [Hs|[E|[]]].
        -- right; eauto.
        -- left. inversion E. lia.
    + pose proof (in_middle bs1 (b, s) bs2) as Hb.
      destruct (rep_block _ _ _ _ _ R Hb) as (_ & B2 & _).
      destruct (Z.eqb_spec (b + 16) NULL); [zsolve|].
      intros q. cbn [In]. rewrite (L q). split.
      * intros [<-|(w & Hw & Hw0)].
        -- exists (round_request n). split; [|lia].
           replace (b + 16 - 16) with b by lia. apply in_middle.
        -- exists w. split; [|assumption].
           apply in_sides in Hw as [E|Hw]; [inversion E; lia|].
           apply in_sides. destruct Hw; [tauto | right; right; now right].
      * intros (w & Hw & Hw0). apply in_sides in Hw as [E|[Hw|[E|Hw]]].
        -- left. inversion E. lia.
        -- right. exists w; split; [apply in_sides; tauto | assumption].
        -- inversion E. lia.
        -- right. exists w; split; [apply in_sides; tauto | assumption].
    + pose proof (in_middle bs1 (b, s) bs2) as Hb.
      destruct (rep_block _ _ _ _ _ R Hb) as (_ & B2 & _).
      destruct (Z.eqb_spec (b + 16) NULL); [zsolve|].
      intros q. cbn [In]. rewrite (L q). split.
      * intros [<-|(w & Hw & Hw0)].
        -- exists (- s). split; [|lia].
           replace (b + 16 - 16) with b by lia. apply in_middle.
        -- exists w. split; [|assumption].
           apply in_sides in Hw as [E|Hw]; [inversion E; lia|].
           apply in_sides. tauto.
      * intros (w & Hw & Hw0). apply in_sides in Hw as [E|Hw].
        -- left. inversion E. lia.
        -- right. exists w; split; [apply in_sides; tauto | assumption].
  - destruct IH as (bs & fl & W & L).
    destruct (proj1 (L p) Hp) as (s & Hs & Hs0).
    destruct (mm_free_wf _ _ _ _ _ W Hs Hs0) as (bs' & fl' & W' & Hstep).
    exists bs', fl'. split; [assumption|].
    pose proof (wf_rep _ _ _ W) as R.
    inversion Hstep as [bs1 s1 bs2 bsA z v1 flA v2 bsB flB Ebs Hs1 PM NM]; subst.
    destruct (prev_merge_alloc _ _ _ _ _ _ _ _ PM ltac:(lia)) as [Hv1 HA].
    destruct (next_merge_alloc _ _ _ _ _ _ NM Hv1) as [Hv2 HB].
    assert (Hside : forall a w, In (a, w) bs1 \/ In (a, w) bs2 -> a <> p - 16).
    { intros a w [Ha|Ha].
      - destruct (rep_before _ _ _ _ _ _ _ _ R Ha). lia.
      - destruct (rep_after _ _ _ _ _ _ _ _ R Ha). lia. }
    intros q. split.
    + intros Hq. apply in_remove in Hq as [Hq Hqp].
      apply (L q) in Hq as (w & Hw & Hw0). exists w; split; [|assumption].
      apply in_sides in Hw as [E|Hw]; [inversion E; lia|].
      apply in_sides. right.
      destruct Hw as [Hw|Hw]; [left; now apply HA | right; now apply HB].
    + intros (w & Hw & Hw0). apply in_sides in Hw as [E|Hw]; [inversion E; lia|].
      assert (Hw' : In (q - 16, w) bs1 \/ In (q - 16, w) bs2).
      { destruct Hw as [Hw|Hw]; [left; now apply HA | right; now apply HB]. }
      apply in_in_remove.
      * intros ->. eapply Hside; eauto.
      * apply (L q). exists w; split; [apply in_sides; now right | assumption].
  - unfold mm_free. cbn [Z.eqb NULL]. exact IH.
  - destruct IH as (bs & fl & W & L).
    exists bs, fl. split; [|exact L].
    apply (client_write_wf _ _ _ p w v W); auto.
    apply (L p). exact Hp.
Qed.

(** ** The walks of the chain and of the free list *)

Lemma first_addr_cons x s bs : first_addr ((x, s) :: bs) = x.
Proof. reflexivity. Qed.

(** The blocks found by walking the chain are the blocks of [bs]. *)
Lemma in_chain_iff st bs fl b :
  rep st bs fl -> (in_chain st b <-> exists s, In (b, s) bs).
Proof.
  intros R. pose proof (rep_chain _ _ _ R) as C.
  pose proof (rep_size _ _ _ R) as Hsz.
  split.
  - induction 1 as [Hf | b Hb IH Hn].
    + unfold first_block in *.
      destruct (Z.eqb_spec (heap_size st) 0) as [E|E]; [congruence|].
      destruct bs as [|[x s] bs]; cbn [chain] in C; [lia|].
      destruct C as (-> & _). exists s; now left.
    + destruct IH as (s & Hs). destruct (in_split _ _ Hs) as (bs1 & bs2 & ->).
      rewrite (next_block_rep _ _ _ _ _ _ R) in *.
      destruct bs2 as [|[c w] bs2]; [now elim Hn|].
      rewrite first_addr_cons. exists w. apply in_sides. right; right; now left.
  - intros (s & Hs). destruct (in_split _ _ Hs) as (bs1 & bs2 & E).
    clear Hs. revert b s bs2 E.
    induction bs1 as [|[y t] bs1 IH] using rev_ind; intros b s bs2 E.
    + rewrite E in C. cbn [app chain] in C. destruct C as (-> & _ & _ & Hv & C).
      apply chain_le in C. apply valid_size_abs in Hv.
      assert (K : first_block st <> NULL -> in_chain st (first_block st))
        by apply in_chain_first.
      assert (E0 : first_block st = mem_heap_lo).
      { unfold first_block. destruct (Z.eqb_spec (heap_size st) 0); [zsolve | reflexivity]. }
      rewrite E0 in K. apply K. zsolve.
    + rewrite <- app_assoc in E. cbn [app] in E.
      assert (Hy : in_chain st y) by (eapply IH; exact E).
      rewrite E in R.
      pose proof (next_block_rep _ _ _ _ _ _ R) as En.
      rewrite first_addr_cons in En. rewrite <- En.
      apply in_chain_next; [assumption|]. rewrite En.
      assert (Hb : In (b, s) (bs1 ++ (y, t) :: (b, s) :: bs2))
        by (apply in_sides; right; right; now left).
      destruct (rep_block _ _ _ _ _ R Hb) as (_ & ? & _). zsolve.
Qed.

(** The blocks found by walking the free list are the members of [fl]. *)
Lemma in_free_list_iff st bs fl f :
  rep st bs fl -> (in_free_list st f <-> In f fl).
Proof.
  intros R. pose proof (rep_dll _ _ _ R) as D. split.
  - induction 1 as [Hh | b Hb IH Hn].
    + rewrite (dll_hd _ _ _ _ D) in *.
      destruct fl as [|g fl]; [now elim Hh | now left].
    + destruct (in_split _ _ IH) as (l1 & l2 & ->).
      destruct (dll_links _ _ _ _ _ _ D) as [_ En]. rewrite En in *.
      destruct l2 as [|g l2]; [now elim Hn|].
      apply in_sides. right; right; now left.
  - intros Hf. destruct (in_split _ _ Hf) as (l1 & l2 & E).
    clear Hf. revert f l2 E.
    induction l1 as [|a l1 IH] using rev_ind; intros f l2 E.
    + rewrite E in D. cbn [app dll] in D. destruct D as (Eh & Hf & _).
      rewrite <- Eh. apply in_free_list_head. congruence.
    + rewrite <- app_assoc in E. cbn [app] in E.
      assert (Ha : in_free_list st a) by (eapply IH; exact E).
      rewrite E in D.
      destruct (dll_links _ _ _ _ _ _ D) as [_ En]. cbn [hd] in En.
      rewrite <- En. apply in_free_list_next; [assumption|]. rewrite En.
      eapply dll_nonnull; [exact D|]. apply in_sides. right; right; now left.
Qed.

(** I2 on a well-formed heap. *)
Lemma wf_size_sign st bs fl b :
  wf st bs fl ->
  (in_free_list st b <-> in_chain st b /\ get_size (mem st) b < 0).
Proof.
  intros W. pose proof (wf_rep _ _ _ W) as R.
  rewrite (in_free_list_iff _ _ _ _ R), (in_chain_iff _ _ _ _ R),
    (wf_free _ _ _ W b).
  split.
  - intros (s & Hs & Hs0). split; [eauto|].
    destruct (rep_block _ _ _ _ _ R Hs) as (_ & _ & _ & _ & _ & ->). assumption.
  - intros [(s & Hs) Hneg]. exists s; split; [assumption|].
    destruct (rep_block _ _ _ _ _ R Hs) as (_ & _ & _ & _ & _ & E). lia.
Qed.

(** I3 on a well-formed heap. *)
Lemma wf_no_adjacent_free st bs fl b :
  wf st bs fl -> in_chain st b -> get_size (mem st) b < 0 ->
  next_block st b <> NULL -> 0 < get_size (mem st) (next_block st b).
Proof.
  intros W Hb Hneg Hn. pose proof (wf_rep _ _ _ W) as R.
  apply (in_chain_iff _ _ _ _ R) in Hb as (s & Hs).
  destruct (in_split _ _ Hs) as (bs1 & bs2 & ->).
  destruct (rep_block _ _ _ _ _ R Hs) as (_ & _ & _ & _ & _ & E).
  rewrite (next_block_rep _ _ _ _ _ _ R) in *.
  destruct bs2 as [|[c w] bs2]; [now elim Hn|]. rewrite first_addr_cons.
  assert (Hc : In (c, w) (bs1 ++ (b, s) :: (c, w) :: bs2))
    by (apply in_sides; right; right; now left).
  destruct (rep_block _ _ _ _ _ R Hc) as (_ & _ & _ & Hw & _ & ->).
  pose proof (wf_nadj _ _ _ W) as N. apply naf_app in N as (_ & N & _).
  cbn [no_adjacent_free first_size map snd hd] in N. destruct N as [N _]. lia.
Qed.

(** ** Properties of the operations *)

Lemma reachable_heap_ok st live :
  reachable MAX_REQUEST st live -> heap_ok st.
Proof. intros H. destruct (reachable_wf _ _ H) as (bs & fl & W & _). now exists bs, fl. Qed.

Lemma searchFreeList_mono fuel fuel' st reqSize b :
  (fuel <= fuel')%nat ->
  searchFreeList fuel st reqSize = Some b ->
  searchFreeList fuel' st reqSize = Some b.
Proof.
  intros Hle. unfold searchFreeList.
  destruct (negb (malloc_list_tail st =? NULL) &&
            (get_size (mem st) (malloc_list_tail st) <=?
             to_long (to_ulong (- reqSize)))); [auto|].
  now apply search_loop_mono.
Qed.

(** A block returned by the fit search of a represented heap, whatever the
    fuel, is a block of the chain that fits. *)
Lemma searchFreeList_block st bs fl r fuel b :
  rep st bs fl -> 0 <= r <= LONG_HALF ->
  searchFreeList fuel st (to_ulong r) = Some b -> b <> NULL ->
  exists s, In (b, s) bs /\ s <= - r.
Proof.
  intros R Hr Eb Hb.
  destruct (searchFreeList_rep st bs fl r (Nat.max fuel (length fl)) R Hr)
    as (b' & Eb' & Hb'); [lia|].
  apply (searchFreeList_mono fuel (Nat.max fuel (length fl))) in Eb; [|lia].
  rewrite Eb in Eb'. inversion Eb'; subst b'.
  destruct Hb' as [[E _]|H]; [contradiction | exact H].
Qed.

(** C8: [mm_malloc(0)] returns [NULL] and [mm_free(NULL)] returns, both
    without changing any part of the allocator state. *)
Theorem malloc_zero_free_null_noop (fuel : nat) (st : State) :
  mm_malloc fuel st 0 = Returns st NULL /\ mm_free st NULL = st.
Proof. split; reflexivity. Qed.

(** C9: [coalesce] of a null reference or of a block whose stored size is
    not negative returns the state it was given: free-list head, chain
    tail, heap size and memory are all unchanged. *)
Theorem coalesce_not_free_noop (st : State) (b : Z) :
  b = NULL \/ 0 <= get_size (mem st) b -> coalesce st b = st.
Proof.
  intros H. unfold coalesce.
  destruct (Z.eqb_spec b NULL) as [|Hb]; [reflexivity|].
  destruct (Z.leb_spec 0 (get_size (mem st) b)); [reflexivity|].
  destruct H; [contradiction | lia].
Qed.

(** C10: [mm_init] returns 0 from every state and leaves the free-list
    head null, the chain tail null and the heap size 0; a second call in
    a row yields the same state as the first. *)
Theorem mm_init_resets (st : State) :
  snd (mm_init st) = 0 /\
  free_list_head (fst (mm_init st)) = NULL /\
  malloc_list_tail (fst (mm_init st)) = NULL /\
  heap_size (fst (mm_init st)) = 0 /\
  mm_init (fst (mm_init st)) = mm_init st.
Proof. repeat split. Qed.

Lemma last_size_addr st bs1 x s bs2 fl :
  rep st (bs1 ++ (x, s) :: bs2) fl ->
  (bs1 = [] /\ get_prev (mem st) x = NULL) \/
  (get_prev (mem st) x <> NULL /\
   get_size (mem st) (get_prev (mem st) x) = last_size bs1 /\
   exists bs0, bs1 = bs0 ++ [(get_prev (mem st) x, last_size bs1)]).
Proof.
  intros R. destruct (rep_split _ _ _ _ _ _ R) as (_ & _ & Ep & _).
  rewrite Ep. destruct bs1 as [|b0 bs1] using rev_ind; [now left|].
  right. destruct b0 as [y t]. rewrite last_addr_snoc, last_size_snoc.
  assert (Hy : In (y, t) ((bs1 ++ [(y, t)]) ++ (x, s) :: bs2))
    by (apply in_or_app; left; apply in_or_app; right; now left).
  destruct (rep_block _ _ _ _ _ R Hy) as (_ & ? & _ & _ & _ & E).
  split; [zsolve|]. split; [exact E|]. now exists bs1.
Qed.

Lemma first_size_addr st bs1 x s bs2 fl :
  rep st (bs1 ++ (x, s) :: bs2) fl ->
  (bs2 = [] /\ next_block st x = NULL) \/
  (next_block st x <> NULL /\
   get_size (mem st) (next_block st x) = first_size bs2 /\
   exists bs3, bs2 = (next_block st x, first_size bs2) :: bs3).
Proof.
  intros R. rewrite (next_block_rep _ _ _ _ _ _ R).
  destruct bs2 as [|[c w] bs3]; [now left|].
  right. rewrite first_addr_cons, first_size_cons.
  assert (Hc : In (c, w) (bs1 ++ (x, s) :: (c, w) :: bs3))
    by (apply in_sides; right; right; now left).
  destruct (rep_block _ _ _ _ _ R Hc) as (_ & ? & _ & _ & _ & E).
  split; [zsolve|]. split; [exact E|]. now exists bs3.
Qed.

(** The outcome of [mm_free] on a well-formed heap, read off the state
    before the call: which block comes out of coalescing, with what stored
    size, and that it heads the free list of a heap that is well formed
    again. *)
Lemma mm_free_merged st bs fl p s :
  wf st bs fl -> In (p - 16, s) bs -> 0 < s ->
  let x := p - 16 in
  let prev := get_prev (mem st) x in
  let next := next_block st x in
  let prev_free := negb (prev =? NULL) && (get_size (mem st) prev <? 0) in
  let next_free := negb (next =? NULL) && (get_size (mem st) next <? 0) in
  let merged := if prev_free then prev else x in
  let v1 := if prev_free then get_size (mem st) prev + (- s) - 16 else - s in
  let v2 := if next_free then v1 + get_size (mem st) next - 16 else v1 in
  exists bsA bsB flB,
    wf (mm_free st p) (bsA ++ (merged, v2) :: bsB) (merged :: flB) /\
    (prev_free = true -> get_size (mem st) prev < 0 /\
                         prev + 16 - get_size (mem st) prev = x) /\
    (next_free = true -> get_size (mem st) next < 0).
Proof.
  intros W Hs Hpos. cbv zeta.
  pose proof (wf_rep _ _ _ W) as R.
  destruct (mm_free_wf _ _ _ _ _ W Hs Hpos) as (bs' & fl' & W' & Hstep).
  destruct Hstep as [bs1 s1 bs2 bsA z v1 flA v2 bsB flB Ebs Hs1 PM NM].
  rewrite Ebs in R, Hs.
  assert (E1 : s1 = s).
  { eapply rep_unique; [exact R | apply in_middle | exact Hs]. }
  rewrite E1 in *. clear E1 s1.
  clear Hs W Ebs.
  set (prev := get_prev (mem st) (p - 16)) in *.
  set (next := next_block st (p - 16)) in *.
  assert (HP : (negb (prev =? NULL) && (get_size (mem st) prev <? 0) = true /\
                z = prev /\ v1 = get_size (mem st) prev + - s - 16 /\
                get_size (mem st) prev < 0 /\
                prev + 16 - get_size (mem st) prev = p - 16) \/
               (negb (prev =? NULL) && (get_size (mem st) prev <? 0) = false /\
                z = p - 16 /\ v1 = - s)).
  { pose proof (last_size_addr _ _ _ _ _ _ R) as HL. fold prev in HL.
    destruct HL as [[Ea Eb]|(Ea & Eb & bs0' & Ec)].
    - right. rewrite Eb. cbn [Z.eqb NULL negb andb].
      destruct PM as [Hk|bs0 y t l1 l2 E _ _]; [auto|].
      rewrite Ea in E. destruct bs0; discriminate.
    - apply Z.eqb_neq in Ea as Ea'. rewrite Ea', Eb. cbn [negb andb].
      destruct PM as [Hk|bs0 y t l1 l2 E Ht _].
      + right. destruct (Z.ltb_spec (last_size bs1) 0); [lia | auto].
      + left. rewrite E in Ec. rewrite E, last_size_snoc in *.
        apply app_inj_tail in Ec as [_ Ec]. inversion Ec; subst y.
        destruct (Z.ltb_spec t 0); [|lia].
        rewrite <- app_assoc in R. cbn [app] in R.
        destruct (rep_split _ _ _ _ _ _ R) as (_ & _ & _ & _ & K).
        cbn [chain] in K. destruct K as (K & _).
        repeat split; auto; zsolve. }
  assert (HN : (negb (next =? NULL) && (get_size (mem st) next <? 0) = true /\
                v2 = v1 + get_size (mem st) next - 16 /\
                get_size (mem st) next < 0) \/
               (negb (next =? NULL) && (get_size (mem st) next <? 0) = false /\
                v2 = v1)).
  { pose proof (first_size_addr _ _ _ _ _ _ R) as HF. fold next in HF.
    destruct HF as [[Ea Eb]|(Ea & Eb & bs3' & Ec)].
    - right. rewrite Eb. cbn [Z.eqb NULL negb andb].
      destruct NM as [Hk|c w bs3 l1 l2 E _ _]; [auto|].
      rewrite Ea in E. discriminate.
    - apply Z.eqb_neq in Ea as Ea'. rewrite Ea', Eb. cbn [negb andb].
      destruct NM as [Hk|c w bs3 l1 l2 E Hw _].
      + right. destruct (Z.ltb_spec (first_size bs2) 0); [lia | auto].
      + left. rewrite E, first_size_cons in *.
        destruct (Z.ltb_spec w 0); [|lia]. repeat split; auto. }
  exists bsA, bsB, flB.
  destruct HP as [(Ep & Ez & Ev1 & Ht & Hx)|(Ep & Ez & Ev1)];
    destruct HN as [(En & Ev2 & Hw)|(En & Ev2)];
    rewrite Ep, En; rewrite Ev2, Ev1, Ez in W';
    (split; [exact W'|]); split; try discriminate; auto.
Qed.

(** C6: when [mm_free] frees the block of payload [p] in a well-formed
    heap, the block that comes out of coalescing (the predecessor if it
    was free, else the freed block) stores the sum of the stored sizes of
    the blocks merged, minus one header size for each neighbour absorbed;
    its capacity is the sum of their capacities plus those headers. *)
Theorem coalesce_merged_size (st : State) (p : Z) :
  heap_ok st -> in_chain st (p - 16) -> 0 < get_size (mem st) (p - 16) ->
  let x := p - 16 in
  let s := get_size (mem st) x in
  let prev := get_prev (mem st) x in
  let next := next_block st x in
  let prev_free := negb (prev =? NULL) && (get_size (mem st) prev <? 0) in
  let next_free := negb (next =? NULL) && (get_size (mem st) next <? 0) in
  let merged := if prev_free then prev else x in
  let v1 := if prev_free
            then get_size (mem st) prev + (- s) - sizeof_BlockInfo else - s in
  let v2 := if next_free
            then v1 + get_size (mem st) next - sizeof_BlockInfo else v1 in
  get_size (mem (mm_free st p)) merged = v2 /\
  - v2 = s + (if prev_free then - get_size (mem st) prev + sizeof_BlockInfo else 0)
           + (if next_free then - get_size (mem st) next + sizeof_BlockInfo else 0).
Proof.
  intros (bs & fl & W) Hc Hpos. cbv zeta.
  pose proof (wf_rep _ _ _ W) as R.
  apply (in_chain_iff _ _ _ _ R) in Hc as (s & Hs).
  destruct (rep_block _ _ _ _ _ R Hs) as (_ & _ & _ & _ & _ & Es).
  rewrite Es in *.
  destruct (mm_free_merged _ _ _ _ _ W Hs Hpos) as (bsA & bsB & flB & W' & _).
  cbv zeta in W'. pose proof (wf_rep _ _ _ W') as R'.
  destruct (rep_block _ _ _ _ _ R' (in_middle bsA _ bsB))
    as (_ & _ & _ & _ & _ & Hz).
  change sizeof_BlockInfo with 16.
  split; [exact Hz|].
  destruct (negb (get_prev (mem st) (p - 16) =? NULL) &&
            (get_size (mem st) (get_prev (mem st) (p - 16)) <? 0));
    destruct (negb (next_block st (p - 16) =? NULL) &&
              (get_size (mem st) (next_block st (p - 16)) <? 0)); lia.
Qed.

(** C4: when the fit search of [mm_malloc] finds, in a well-formed heap,
    a free block [b] whose capacity exceeds the rounded size [r] plus one
    header, the call returns the payload of [b]; [b] has left the free
    list before any header is written; afterwards [b] stores exactly [r],
    a positive size,
    a free fragment with the remaining capacity starts [r] bytes into the
    payload and heads the free list, and the [prev] field of the next
    block, or else the chain tail, points to the fragment. *)
Theorem malloc_split (st : State) (n : Z) (fuel : nat) (b : Z) :
  heap_ok st -> 0 < n ->
  searchFreeList fuel st (to_ulong (round_request n)) = Some b -> b <> NULL ->
  ALIGNMENT * ((n + ALIGNMENT - 1) / ALIGNMENT) + sizeof_BlockInfo
    < - get_size (mem st) b ->
  let r := ALIGNMENT * ((n + ALIGNMENT - 1) / ALIGNMENT) in
  let capacity := - get_size (mem st) b in
  let fragment := b + sizeof_BlockInfo + r in
  let st1 := removeFreeBlock st b in
  let st' := insertFreeBlock
               (carve st1 b r fragment (- (capacity - r - sizeof_BlockInfo))
                  (next_block st b)) fragment in
  mm_malloc fuel st n = Returns st' (b + sizeof_BlockInfo) /\
  (in_free_list st b /\ ~ in_free_list st1 b /\ mem st1 b = mem st b) /\
  get_size (mem st') b = r /\ 0 < r /\
  get_size (mem st') fragment = - (capacity - r - sizeof_BlockInfo) /\
  get_prev (mem st') fragment = b /\
  ~ in_free_list st' b /\
  in_free_list st' fragment /\ free_list_head st' = fragment /\
  (if next_block st b =? NULL then malloc_list_tail st' = fragment
   else get_prev (mem st') (next_block st b) = fragment) /\
  heap_size st' = heap_size st.
Proof.
  intros (bs & fl & W) Hn Eb Hb Hcap. cbv zeta.
  pose proof (wf_rep _ _ _ W) as R.
  pose proof (to_long_range (mem st b)) as Hrange. fold (get_size (mem st) b) in Hrange.
  assert (Hn' : 0 < n <= LONG_HALF - 16).
  { unfold_consts. Z.to_euclidean_division_equations; lia. }
  assert (Er : round_request n = ALIGNMENT * ((n + ALIGNMENT - 1) / ALIGNMENT)).
  { rewrite (round_request_small n Hn'). unfold_consts. f_equal. f_equal. lia. }
  rewrite <- Er in *.
  destruct (round_request_bounds n Hn') as (Hr1 & Hr16 & Hr2).
  set (r := round_request n) in *.
  destruct (searchFreeList_block st bs fl r fuel b R ltac:(zsolve) Eb Hb)
    as (s & Hs & Hfit).
  destruct (rep_block _ _ _ _ _ R Hs) as (A1 & A2 & A3 & A4 & A5 & A6).
  rewrite A6 in *.
  assert (Hbfl : In b fl) by (apply (wf_free _ _ _ W); exists s; split; [assumption | lia]).
  destruct (in_split _ _ Hs) as (bs1 & bs2 & Ebs).
  destruct (in_split _ _ Hbfl) as (l1 & l2 & Efl).
  subst bs fl.
  rewrite (to_ulong_id r) in Eb by zsolve.
  pose proof (mm_malloc_hit st bs1 b s bs2 l1 l2 n fuel W Hn' Hfit Eb) as H.
  cbv zeta in H. fold r in H.
  destruct (Z.ltb_spec (r + 16) (- s)) as [_|Hge]; [|zsolve].
  destruct H as (E & W' & Eh).
  rewrite (next_block_rep _ _ _ _ _ _ R).
  replace (- (- s - r - sizeof_BlockInfo)) with (s + r + 16) by zsolve.
  change (b + sizeof_BlockInfo) with (b + 16).
  set (st' := insertFreeBlock _ _) in *.
  pose proof (wf_rep _ _ _ W') as R'.
  pose proof (rep_nodup _ _ _ R) as Hnd.
  pose proof (rep_nodup _ _ _ R') as Hnd'.
  split; [exact E|]. split.
  { split; [apply (in_free_list_iff _ _ _ _ R), in_middle|]. split.
    - rewrite (in_free_list_iff _ _ _ _ (rep_remove _ _ _ _ _ R)).
      apply NoDup_remove_2 in Hnd. exact Hnd.
    - apply (removeFreeBlock_frame _ _ _ _ _ (rep_dll _ _ _ R)).
      intros g Hg.
      assert (Hg' : In g (l1 ++ b :: l2)).
      { apply in_app_or in Hg. apply in_sides. tauto. }
      destruct (rep_sub _ _ _ R g Hg') as (t & Ht).
      pose proof (header_not_link _ _ _ _ _ _ _ _ _ (rep_chain _ _ _ R) Hs Ht).
      tauto. }
  assert (Hb' : In (b, r) (bs1 ++ (b, r) :: (b + 16 + r, s + r + 16) :: bs2))
    by apply in_middle.
  assert (Hf' : In (b + 16 + r, s + r + 16)
                  (bs1 ++ (b, r) :: (b + 16 + r, s + r + 16) :: bs2))
    by (apply in_sides; right; right; now left).
  destruct (rep_block _ _ _ _ _ R' Hb') as (_ & _ & _ & _ & _ & B6).
  destruct (rep_block _ _ _ _ _ R' Hf') as (_ & _ & _ & _ & _ & F6).
  split; [exact B6|]. split; [lia|]. split; [exact F6|].
  assert (R2 : rep st' ((bs1 ++ [(b, r)]) ++ (b + 16 + r, s + r + 16) :: bs2)
                 ((b + 16 + r) :: l1 ++ l2))
    by (rewrite <- app_assoc; exact R').
  split.
  { destruct (rep_split _ _ _ _ _ _ R2) as (_ & _ & Ep & _).
    rewrite Ep. apply last_addr_snoc. }
  split.
  { rewrite (in_free_list_iff _ _ _ _ R'). intros [Hin|Hin]; [lia|].
    apply NoDup_cons_iff in Hnd' as [_ Hnd'].
    apply NoDup_remove_2 in Hnd. contradiction. }
  split; [apply (in_free_list_iff _ _ _ _ R'); now left|].
  split; [apply (dll_hd _ _ _ _ (rep_dll _ _ _ R'))|].
  split; [|exact Eh].
  destruct bs2 as [|[c w] bs2].
  - cbn [first_addr map hd Z.eqb NULL]. rewrite (rep_tail _ _ _ R').
    rewrite last_addr_app, !last_addr_cons. reflexivity.
  - rewrite first_addr_cons.
    assert (Hc : In (c, w) (bs1 ++ (b, s) :: (c, w) :: bs2))
      by (apply in_sides; right; right; now left).
    destruct (rep_block _ _ _ _ _ R Hc) as (_ & ? & _).
    destruct (Z.eqb_spec c NULL); [zsolve|].
    assert (R3 : rep st' ((bs1 ++ [(b, r); (b + 16 + r, s + r + 16)]) ++ (c, w) :: bs2)
                 ((b + 16 + r) :: l1 ++ l2))
      by (rewrite <- app_assoc; exact R').
    destruct (rep_split _ _ _ _ _ _ R3) as (_ & _ & Ep & _).
    rewrite Ep. rewrite last_addr_app, !last_addr_cons. reflexivity.
Qed.

(** Invariant I2 under requests of at most [MAX_REQUEST] bytes: in every
    reachable state the blocks of the free list are exactly the blocks of
    the chain whose stored size is negative, and no block with a positive stored
    size is in the free list. *)
Theorem free_list_iff_negative (st : State) (live : list Z) (b : Z) :
  reachable MAX_REQUEST st live ->
  (in_free_list st b <-> in_chain st b /\ get_size (mem st) b < 0) /\
  (in_chain st b -> 0 < get_size (mem st) b -> ~ in_free_list st b).
Proof.
  intros H. destruct (reachable_wf _ _ H) as (bs & fl & W & _).
  pose proof (wf_size_sign _ _ _ b W) as I2.
  split; [exact I2|]. intros _ Hpos Hin. apply I2 in Hin. lia.
Qed.

(** Invariant I3 under requests of at most [MAX_REQUEST] bytes: after
    [mm_free], in a reachable state, of a
    pointer the client holds, no free block of the chain is followed by a
    free block; the block that comes out of coalescing (the predecessor
    if it was free, else the freed block) is free, covers the freed
    block, heads the free list and occurs in it exactly once. *)
Theorem free_leaves_no_adjacent_free (st : State) (live : list Z) (p : Z) :
  reachable MAX_REQUEST st live -> In p live ->
  let st' := mm_free st p in
  let x := p - sizeof_BlockInfo in
  let prev := get_prev (mem st) x in
  let merged :=
    if negb (prev =? NULL) && (get_size (mem st) prev <? 0) then prev else x in
  (forall b, in_chain st' b -> get_size (mem st') b < 0 ->
             next_block st' b <> NULL ->
             0 < get_size (mem st') (next_block st' b)) /\
  in_chain st' merged /\ get_size (mem st') merged < 0 /\
  merged <= x /\
  x + sizeof_BlockInfo + get_size (mem st) x
    <= merged + sizeof_BlockInfo - get_size (mem st') merged /\
  exists fl, dll (mem st') NULL (free_list_head st') fl /\
             free_list_head st' = merged /\
             count_occ Z.eq_dec fl merged = 1%nat.
Proof.
  intros H Hp. cbv zeta. change sizeof_BlockInfo with 16.
  destruct (reachable_wf _ _ H) as (bs & fl & W & L).
  destruct (proj1 (L p) Hp) as (s & Hs & Hpos).
  pose proof (wf_rep _ _ _ W) as R.
  destruct (rep_block _ _ _ _ _ R Hs) as (_ & _ & _ & _ & _ & Es).
  destruct (mm_free_merged _ _ _ _ _ W Hs Hpos)
    as (bsA & bsB & flB & W' & HP & HN).
  cbv zeta in W', HP, HN. rewrite Es.
  set (prev := get_prev (mem st) (p - 16)) in *.
  set (next := next_block st (p - 16)) in *.
  set (pf := negb (prev =? NULL) && (get_size (mem st) prev <? 0)) in *.
  set (nf := negb (next =? NULL) && (get_size (mem st) next <? 0)) in *.
  set (merged := if pf then prev else p - 16) in *.
  set (v2 := if nf then _ else _) in *.
  pose proof (wf_rep _ _ _ W') as R'.
  pose proof (in_middle bsA (merged, v2) bsB) as Hm.
  destruct (rep_block _ _ _ _ _ R' Hm) as (_ & _ & _ & _ & _ & Ev).
  assert (Hv2 : v2 <= - s /\ (pf = true -> v2 <= get_size (mem st) prev - s - 16)).
  { subst v2. destruct pf, nf;
      try (destruct (HP eq_refl)); try (specialize (HN eq_refl)); lia. }
  split; [intros b; apply (wf_no_adjacent_free _ _ _ b W')|].
  split; [apply (in_chain_iff _ _ _ _ R'); eauto|].
  rewrite Ev.
  split; [lia|].
  split; [subst merged; destruct pf; [destruct (HP eq_refl)|]; lia|].
  split; [subst merged; destruct pf; [destruct (HP eq_refl)|]; lia|].
  exists (merged :: flB).
  split; [apply (rep_dll _ _ _ R')|].
  split; [apply (dll_hd _ _ _ _ (rep_dll _ _ _ R'))|].
  pose proof (rep_nodup _ _ _ R') as Hnd.
  apply NoDup_cons_iff in Hnd as [Hnin _].
  cbn [count_occ]. destruct (Z.eq_dec merged merged); [|congruence].
  f_equal. now apply count_occ_not_In.
Qed.

(** Rounding and alignment under requests of at most [MAX_REQUEST]
    bytes: a call of
    [mm_malloc] that returns in a reachable state has rounded the request
    up to the next multiple of [ALIGNMENT], returns a non-null payload
    address that is a multiple of [ALIGNMENT], and the block of that
    payload holds at least the rounded size. *)
Theorem malloc_rounds_and_aligns
  (st : State) (live : list Z) (n : Z) (fuel : nat) (st' : State) (p : Z) :
  reachable MAX_REQUEST st live -> 0 < n <= MAX_REQUEST ->
  mm_malloc fuel st n = Returns st' p ->
  round_request n = ALIGNMENT * ((n + ALIGNMENT - 1) / ALIGNMENT) /\
  n <= round_request n < n + ALIGNMENT /\
  round_request n mod ALIGNMENT = 0 /\
  p <> NULL /\ p mod ALIGNMENT = 0 /\
  in_chain st' (p - sizeof_BlockInfo) /\
  round_request n <= get_size (mem st') (p - sizeof_BlockInfo).
Proof.
  intros H Hn Hm. unfold MAX_REQUEST in Hn.
  destruct (reachable_wf _ _ H) as (bs & fl & W & _).
  destruct (round_request_bounds n Hn) as (Hr1 & Hr16 & Hr2).
  split.
  { rewrite (round_request_small n Hn). unfold_consts. f_equal. f_equal. lia. }
  change ALIGNMENT with 16. change sizeof_BlockInfo with 16.
  split; [exact Hr1|]. split; [exact Hr16|].
  apply (mm_malloc_mono fuel (Nat.max fuel (length fl))) in Hm; [|lia].
  destruct (mm_malloc_wf st bs fl n (Nat.max fuel (length fl)) W Hn)
    as [[E _]|(st2 & p2 & bs' & fl' & E & W' & Hstep)]; [lia | congruence |].
  rewrite E in Hm. inversion Hm; subst st2 p2. clear Hm E.
  pose proof (wf_rep _ _ _ W') as R'.
  assert (Hblk : exists v, In (p - 16, v) bs' /\ round_request n <= v).
  { destruct Hstep as [Ep Hno | b bs1 s bs2 l1 l2 Ep Ebs Efl Hfit
                      | b bs1 s bs2 l1 l2 Ep Ebs Efl Hfit]; subst p.
    - exists (round_request n). split; [|lia]. apply in_or_app; right.
      left. f_equal. lia.
    - exists (round_request n). split; [|lia].
      replace (b + 16 - 16) with b by lia. apply in_middle.
    - exists (- s). split; [|lia].
      replace (b + 16 - 16) with b by lia. apply in_middle. }
  destruct Hblk as (v & Hv & Hle).
  destruct (rep_block _ _ _ _ _ R' Hv) as (A1 & A2 & _ & _ & _ & A6).
  split; [zsolve|]. split; [asolve|].
  split; [apply (in_chain_iff _ _ _ _ R'); eauto|]. lia.
Qed.

(** The fit search for requested sizes of at most [LONG_HALF] bytes: on a
    well-formed heap the fit search returns; a block it returns is a
    free block of the free list whose capacity is at least the requested
    size; when it reports none, no block of the free list fits; and when
    the chain tail is free and large enough, the tail is the result
    whatever the fuel, that is without any step of the scan. *)
Theorem searchFreeList_contract (st : State) (reqSize : Z) :
  heap_ok st -> 0 <= reqSize <= LONG_HALF ->
  (exists fuel b, searchFreeList fuel st reqSize = Some b) /\
  (forall fuel b, searchFreeList fuel st reqSize = Some b -> b <> NULL ->
     in_free_list st b /\ get_size (mem st) b < 0 /\
     reqSize <= - get_size (mem st) b) /\
  (forall fuel, searchFreeList fuel st reqSize = Some NULL ->
     forall f, in_free_list st f -> - get_size (mem st) f < reqSize) /\
  (forall fuel, malloc_list_tail st <> NULL ->
     get_size (mem st) (malloc_list_tail st) < 0 ->
     reqSize <= - get_size (mem st) (malloc_list_tail st) ->
     searchFreeList fuel st reqSize = Some (malloc_list_tail st)).
Proof.
  intros (bs & fl & W) Hr. pose proof (wf_rep _ _ _ W) as R.
  assert (Eu : to_ulong reqSize = reqSize) by (apply to_ulong_id; zsolve).
  split; [|split; [|split]].
  - destruct (searchFreeList_rep st bs fl reqSize (length fl) R Hr (le_n _))
      as (b & Eb & _).
    rewrite Eu in Eb. eauto.
  - intros fuel b Eb Hb. rewrite <- Eu in Eb.
    destruct (searchFreeList_block _ _ _ _ _ _ R Hr Eb Hb) as (s & Hs & Hfit).
    destruct (rep_block _ _ _ _ _ R Hs) as (_ & _ & _ & Habs & _ & E).
    rewrite E.
    assert (s < 0) by lia.
    split; [|lia]. apply (in_free_list_iff _ _ _ _ R), (wf_free _ _ _ W). eauto.
  - intros fuel Eb f Hf. rewrite <- Eu in Eb.
    apply (searchFreeList_mono fuel (Nat.max fuel (length fl))) in Eb; [|lia].
    destruct (searchFreeList_rep st bs fl reqSize (Nat.max fuel (length fl)) R Hr)
      as (b & Eb' & Hb); [lia|].
    rewrite Eb in Eb'. inversion Eb'; subst b.
    apply (in_free_list_iff _ _ _ _ R) in Hf.
    destruct Hb as [[_ Hall]|(s & Hs & Hfit)].
    + specialize (Hall f Hf). lia.
    + destruct (rep_block _ _ _ _ _ R Hs) as (_ & ? & _). zsolve.
  - intros fuel Ht Hneg Hfit. unfold searchFreeList.
    rewrite <- Eu at 1. rewrite (check_size_small reqSize Hr).
    apply Z.eqb_neq in Ht. rewrite Ht. cbn [negb andb].
    destruct (Z.leb_spec (get_size (mem st) (malloc_list_tail st)) (- reqSize));
      [reflexivity | lia].
Qed.

(** * Further properties of the allocator *)

(** ** The shape of the heap in reachable states *)

(** X1: In every state reached with requests of at most [MAX_REQUEST]
    bytes, each block of the chain is aligned, lies inside the arena,
    stores a non-zero multiple of the alignment, and is followed at once
    by the next block, or by the end of the arena. *)
Theorem reachable_blocks_tile (st : State) (live : list Z) (b : Z) :
  reachable MAX_REQUEST st live -> in_chain st b ->
  let s := get_size (mem st) b in
  b mod ALIGNMENT = 0 /\ mem_heap_lo <= b /\
  s <> 0 /\ s mod ALIGNMENT = 0 /\
  b + sizeof_BlockInfo + Z.abs s <= mem_heap_lo + heap_size st /\
  next_block st b =
    (if b + sizeof_BlockInfo + Z.abs s =? mem_heap_lo + heap_size st
     then NULL else b + sizeof_BlockInfo + Z.abs s).
Proof.
  intros H Hb. cbv zeta.
  destruct (reachable_wf _ _ H) as (bs & fl & W & _).
  pose proof (wf_rep _ _ _ W) as R.
  destruct (proj1 (in_chain_iff _ _ _ b R) Hb) as (s & Hs).
  destruct (rep_block _ _ _ _ _ R Hs) as (A1 & A2 & A3 & A4 & A5 & A6).
  destruct (chain_In _ _ _ _ _ _ _ (rep_chain _ _ _ R) Hs) as (_ & _ & (V1 & V2) & _).
  destruct (rep_size_long _ _ _ _ _ R Hs) as (S1 & S2).
  pose proof (rep_size _ _ _ R) as Hsz. pose proof (rep_brk _ _ _ R) as Hbk.
  rewrite A6. change sizeof_BlockInfo with 16.
  split; [exact A1|]. split; [exact A2|]. split; [exact V2|].
  split; [exact V1|]. split; [exact A3|].
  rewrite (next_block_eval st b s A6) by zsolve.
  destruct (Z.leb_spec (mem_heap_lo + heap_size st) (b + 16 + Z.abs s));
    destruct (Z.eqb_spec (b + 16 + Z.abs s) (mem_heap_lo + heap_size st));
    try reflexivity; lia.
Qed.

(** X2: In every such state the chain is consistently linked in both
    directions: only the block at the start of the arena has no
    predecessor, [prev] and [next_block] undo each other, and the block
    without a successor is [malloc_list_tail]. *)
Theorem chain_links_consistent (st : State) (live : list Z) (b : Z) :
  reachable MAX_REQUEST st live -> in_chain st b ->
  (get_prev (mem st) b = NULL <-> b = mem_heap_lo) /\
  (get_prev (mem st) b <> NULL ->
     in_chain st (get_prev (mem st) b) /\
     next_block st (get_prev (mem st) b) = b) /\
  (next_block st b <> NULL -> get_prev (mem st) (next_block st b) = b) /\
  (next_block st b = NULL <-> b = malloc_list_tail st).
Proof.
  intros H Hb.
  destruct (reachable_wf _ _ H) as (bs & fl & W & _).
  pose proof (wf_rep _ _ _ W) as R.
  destruct (proj1 (in_chain_iff _ _ _ b R) Hb) as (s & Hs).
  destruct (in_split _ _ Hs) as (bs1 & bs2 & ->).
  destruct (rep_split _ _ _ _ _ _ R) as (C1 & _ & _ & _ & C2).
  pose proof (chain_le _ _ _ _ _ C1) as Hle.
  split; [|split; [|split]].
  - destruct (last_size_addr _ _ _ _ _ _ R) as [[-> E]|(Hp & _ & bs0 & E)].
    + cbn [chain] in C1. split; [congruence | intros _; exact E].
    + split; [congruence|]. intros ->. exfalso.
      assert (Hin : In (get_prev (mem st) mem_heap_lo, last_size bs1) bs1)
        by (rewrite E at 2; apply in_middle).
      destruct (rep_before _ _ _ _ _ _ _ _ R Hin) as (B1 & B2).
      destruct (chain_In _ _ _ _ _ _ _ C1 Hin) as (B3 & _). lia.
  - intros Hp.
    destruct (last_size_addr _ _ _ _ _ _ R) as [[_ E]|(_ & _ & bs0 & E)];
      [congruence|].
    set (q := get_prev (mem st) b) in *. set (t := last_size bs1) in *.
    assert (R2 : rep st (bs0 ++ (q, t) :: (b, s) :: bs2) fl).
    { rewrite E in R. rewrite <- app_assoc in R. exact R. }
    split.
    + apply (in_chain_iff _ _ _ _ R2). exists t. apply in_middle.
    + rewrite (next_block_rep _ _ _ _ _ _ R2). reflexivity.
  - intros Hn.
    destruct (first_size_addr _ _ _ _ _ _ R) as [[_ E]|(_ & _ & bs3 & E)];
      [congruence|].
    set (c := next_block st b) in *. set (w := first_size bs2) in *.
    assert (R2 : rep st ((bs1 ++ [(b, s)]) ++ (c, w) :: bs3) fl).
    { rewrite <- app_assoc. cbn [app]. rewrite <- E. exact R. }
    destruct (rep_split _ _ _ _ _ _ R2) as (_ & _ & Ep & _).
    rewrite Ep. apply last_addr_snoc.
  - rewrite (rep_tail _ _ _ R), last_addr_app, last_addr_cons.
    destruct (first_size_addr _ _ _ _ _ _ R) as [[-> E]|(Hn & _ & bs3 & E)].
    + split; [reflexivity | intros _; exact E].
    + split; [congruence|]. intros Eb. exfalso.
      assert (Hne : bs2 <> []) by (rewrite E; discriminate).
      destruct (last_addr_In b bs2 Hne) as (u & Hu).
      rewrite <- Eb in Hu.
      destruct (rep_after _ _ _ _ _ _ _ _ R Hu) as (B1 & _). lia.
Qed.

(** X3: In every such state the free list is consistently linked in both
    directions and visits each of its members once: only the head has no
    [prevFree], and [prevFree] and [nextFree] undo each other. *)
Theorem free_list_links_consistent (st : State) (live : list Z) (f : Z) :
  reachable MAX_REQUEST st live -> in_free_list st f ->
  (get_prevFree (mem st) f = NULL <-> f = free_list_head st) /\
  (get_prevFree (mem st) f <> NULL ->
     in_free_list st (get_prevFree (mem st) f) /\
     get_nextFree (mem st) (get_prevFree (mem st) f) = f) /\
  (get_nextFree (mem st) f <> NULL ->
     get_prevFree (mem st) (get_nextFree (mem st) f) = f) /\
  exists fl, dll (mem st) NULL (free_list_head st) fl /\ NoDup fl /\ In f fl.
Proof.
  intros H Hf.
  destruct (reachable_wf _ _ H) as (bs & fl & W & _).
  pose proof (wf_rep _ _ _ W) as R.
  pose proof (rep_dll _ _ _ R) as D. pose proof (rep_nodup _ _ _ R) as N.
  pose proof (proj1 (in_free_list_iff _ _ _ _ R) Hf) as Hin.
  split; [|split; [|split]]; [| | |now exists fl].
  - destruct (in_split _ _ Hin) as (l1 & l2 & E). rewrite E in D, N.
    destruct (dll_links _ _ _ _ _ _ D) as (Ep & _).
    rewrite Ep, (dll_hd _ _ _ _ D).
    destruct l1 as [|a l1]; [cbn; tauto|].
    split.
    + intros E0. exfalso.
      apply (dll_nonnull _ _ _ _ (last (a :: l1) NULL) D); [|exact E0].
      apply in_or_app; left. apply last_In. discriminate.
    + cbn [app hd]. intros <-. exfalso.
      cbn [app] in N. apply NoDup_cons_iff in N as [N _].
      apply N, in_middle.
  - intros Hp.
    destruct (in_split _ _ Hin) as (l1 & l2 & E). rewrite E in D.
    destruct (dll_links _ _ _ _ _ _ D) as (Ep & _).
    destruct l1 as [|a l1] using rev_ind; [cbn in Ep; congruence|].
    clear IHl1. rewrite last_last in Ep. rewrite Ep.
    rewrite <- app_assoc in D, E. cbn [app] in D, E.
    split.
    + apply (in_free_list_iff _ _ _ _ R). rewrite E. apply in_middle.
    + apply (dll_links _ _ _ _ _ _ D).
  - intros Hn.
    destruct (in_split _ _ Hin) as (l1 & l2 & E). rewrite E in D.
    destruct (dll_links _ _ _ _ _ _ D) as (_ & En).
    destruct l2 as [|c l2]; [cbn in En; congruence|].
    cbn [hd] in En. rewrite En.
    assert (D2 : dll (mem st) NULL (free_list_head st) ((l1 ++ [f]) ++ c :: l2))
      by (rewrite <- app_assoc; exact D).
    destruct (dll_links _ _ _ _ _ _ D2) as (Ep & _).
    rewrite Ep. apply last_last.
Qed.

(** X4: In every such state each payload the client holds is aligned, has
    a positive size and lies inside the heap, which ends at or below the
    break of the arena; and it overlaps no other payload the client
    holds, nor the header of one. *)
Theorem live_payloads_disjoint (st : State) (live : list Z) (p : Z) :
  reachable MAX_REQUEST st live -> In p live ->
  let sp := get_size (mem st) (p - sizeof_BlockInfo) in
  0 < sp /\ p mod ALIGNMENT = 0 /\
  mem_heap_lo + sizeof_BlockInfo <= p /\
  p + sp <= mem_heap_lo + heap_size st /\
  heap_size st <= mem_brk st <= MAX_HEAP /\
  forall q, In q live -> p <> q ->
    p + sp <= q - sizeof_BlockInfo \/
    q + get_size (mem st) (q - sizeof_BlockInfo) <= p - sizeof_BlockInfo.
Proof.
  intros H Hp. cbv zeta. change sizeof_BlockInfo with 16.
  destruct (reachable_wf _ _ H) as (bs & fl & W & L).
  pose proof (wf_rep _ _ _ W) as R.
  destruct (proj1 (L p) Hp) as (s & Hs & Hs0).
  destruct (rep_block _ _ _ _ _ R Hs) as (A1 & A2 & A3 & A4 & A5 & A6).
  rewrite A6.
  pose proof (rep_size _ _ _ R) as Hsz. pose proof (rep_brk _ _ _ R) as Hbk.
  split; [assumption|]. split; [asolve|]. split; [lia|]. split; [lia|].
  split; [lia|].
  intros q Hq Hne.
  destruct (proj1 (L q) Hq) as (t & Ht & Ht0).
  destruct (rep_block _ _ _ _ _ R Ht) as (_ & _ & _ & _ & _ & B6).
  rewrite B6.
  destruct (chain_sep _ _ _ _ _ _ _ _ _ (rep_chain _ _ _ R) Hs Ht)
    as [[E _]|[E|E]]; lia.
Qed.

(** ** The paths of [mm_malloc] *)

Lemma mm_malloc_fuel st n fuel fuel' :
  searchFreeList fuel st (to_ulong (round_request n)) =
  searchFreeList fuel' st (to_ulong (round_request n)) ->
  mm_malloc fuel st n = mm_malloc fuel' st n.
Proof. intros E. unfold mm_malloc. now rewrite E. Qed.

(** The path [// == No Free Blocks to Use ==] on a well-formed heap. *)
Lemma mm_malloc_grow st bs fl n fuel :
  wf st bs fl -> 0 < n <= LONG_HALF - 16 ->
  searchFreeList fuel st (round_request n) = Some NULL ->
  mm_malloc fuel st n =
  if mem_brk st + (16 + round_request n) <=? MAX_HEAP
  then Returns (append st (round_request n)) (mem_heap_lo + heap_size st + 16)
  else Exits.
Proof.
  intros W Hn Eb. pose proof (wf_rep _ _ _ W) as R.
  destruct (round_request_bounds n Hn) as (Hr1 & Hr16 & Hr2).
  set (r := round_request n) in *.
  pose proof (rep_size _ _ _ R) as Hsz. pose proof (rep_brk _ _ _ R) as Hbk.
  assert (Er : to_ulong r = r) by (apply to_ulong_id; zsolve).
  unfold mm_malloc. fold r.
  destruct (Z.eqb_spec n 0) as [|_]; [lia|].
  rewrite Er, Eb. cbn [Z.eqb NULL].
  unfold requestMoreSpace, mem_sbrk.
  cbn [mem_brk heap_size with_heap_size with_brk].
  rewrite (to_ulong_id (sizeof_BlockInfo + r)) by zsolve.
  change sizeof_BlockInfo with 16.
  destruct (Z.leb_spec (mem_brk st + (16 + r)) MAX_HEAP) as [Hok|Hex];
    [|reflexivity].
  rewrite (to_ulong_id (mem_heap_lo + heap_size st)) by zsolve.
  destruct (Z.eqb_spec (mem_heap_lo + heap_size st) NULL) as [E|_]; [zsolve|].
  rewrite (to_ulong_id (heap_size st + _)) by zsolve.
  rewrite (to_ulong_id (mem_heap_lo + _ + _)) by zsolve.
  reflexivity.
Qed.

(** The three ways in which [mm_malloc] returns on a well-formed heap,
    with the state each one yields. *)
Lemma mm_malloc_cases st bs fl n fuel st' p :
  wf st bs fl -> 0 < n <= LONG_HALF - 16 ->
  mm_malloc fuel st n = Returns st' p ->
  let r := round_request n in
  (searchFreeList fuel st r = Some NULL /\
   (forall a s, In (a, s) bs -> - r < s) /\
   mem_brk st + (16 + r) <= MAX_HEAP /\
   st' = append st r /\ p = mem_heap_lo + heap_size st + 16) \/
  (exists b s bs1 bs2 l1 l2,
     searchFreeList fuel st r = Some b /\
     bs = bs1 ++ (b, s) :: bs2 /\ fl = l1 ++ b :: l2 /\
     s <= - r /\ p = b + 16 /\
     ((r + 16 < - s /\
       st' = insertFreeBlock
               (carve (removeFreeBlock st b) b r (b + 16 + r) (s + r + 16)
                  (first_addr bs2)) (b + 16 + r) /\
       wf st' (bs1 ++ (b, r) :: (b + 16 + r, s + r + 16) :: bs2)
          ((b + 16 + r) :: l1 ++ l2)) \/
      (- s <= r + 16 /\
       st' = removeFreeBlock (with_mem st (set_size (mem st) b (- s))) b /\
       wf st' (bs1 ++ (b, - s) :: bs2) (l1 ++ l2)))).
Proof.
  intros W Hn Hm r. pose proof (wf_rep _ _ _ W) as R.
  destruct (round_request_bounds n Hn) as (Hr1 & Hr16 & Hr2). fold r in Hr1, Hr16, Hr2.
  assert (Er : to_ulong r = r) by (apply to_ulong_id; zsolve).
  destruct (searchFreeList fuel st r) as [b|] eqn:Eb.
  2:{ exfalso. unfold mm_malloc in Hm. fold r in Hm. rewrite Er, Eb in Hm.
      destruct (Z.eqb_spec n 0); [lia | discriminate]. }
  destruct (searchFreeList_rep st bs fl r (Nat.max fuel (length fl)) R)
    as (b' & Eb' & Hb); [zsolve | lia |].
  rewrite Er in Eb'.
  rewrite (searchFreeList_mono fuel (Nat.max fuel (length fl)) st r b) in Eb';
    [|lia | exact Eb].
  inversion Eb'; subst b'. clear Eb'.
  destruct Hb as [[-> Hnofit]|(s & Hs & Hfit)].
  - left.
    assert (Hno : forall a s, In (a, s) bs -> - r < s).
    { intros a s Has. destruct (Z.lt_ge_cases s 0) as [Hneg|]; [|lia].
      assert (Ha : In a fl) by (apply (wf_free _ _ _ W); eauto).
      specialize (Hnofit a Ha).
      destruct (rep_block _ _ _ _ _ R Has) as (_ & _ & _ & _ & _ & E). lia. }
    rewrite (mm_malloc_grow st bs fl n fuel W Hn Eb) in Hm. fold r in Hm.
    destruct (Z.leb_spec (mem_brk st + (16 + r)) MAX_HEAP); [|discriminate].
    inversion Hm. auto.
  - right.
    assert (Hbfl : In b fl)
      by (apply (wf_free _ _ _ W); exists s; split; [assumption | lia]).
    destruct (in_split _ _ Hs) as (bs1 & bs2 & Ebs).
    destruct (in_split _ _ Hbfl) as (l1 & l2 & Efl).
    rewrite Ebs, Efl in W.
    pose proof (mm_malloc_hit st bs1 b s bs2 l1 l2 n fuel W Hn Hfit Eb) as H.
    cbv zeta in H. fold r in H.
    exists b, s, bs1, bs2, l1, l2.
    split; [reflexivity|]. split; [exact Ebs|]. split; [exact Efl|].
    split; [exact Hfit|].
    destruct (Z.ltb_spec (r + 16) (- s)) as [Hsplit|Hexact];
      destruct H as (E & W' & Eh); rewrite E in Hm; inversion Hm.
    + split; [reflexivity|]. left. auto.
    + split; [reflexivity|]. right. split; [lia | auto].
Qed.

Lemma removeFreeBlock_arena st f :
  heap_size (removeFreeBlock st f) = heap_size st /\
  mem_brk (removeFreeBlock st f) = mem_brk st /\
  malloc_list_tail (removeFreeBlock st f) = malloc_list_tail st.
Proof.
  unfold removeFreeBlock.
  repeat match goal with |- context [if ?c then _ else _] => destruct c end;
    auto.
Qed.

Lemma insertFreeBlock_arena st f :
  heap_size (insertFreeBlock st f) = heap_size st /\
  mem_brk (insertFreeBlock st f) = mem_brk st /\
  malloc_list_tail (insertFreeBlock st f) = malloc_list_tail st.
Proof.
  unfold insertFreeBlock.
  repeat match goal with |- context [if ?c then _ else _] => destruct c end;
    auto.
Qed.

Lemma carve_arena st p r sp v nx :
  heap_size (carve st p r sp v nx) = heap_size st /\
  mem_brk (carve st p r sp v nx) = mem_brk st /\
  free_list_head (carve st p r sp v nx) = free_list_head st.
Proof. unfold carve. destruct (negb (nx =? NULL)); auto. Qed.

(** The break moves with the heap size. *)
Lemma mm_malloc_brk st bs fl n fuel st' p :
  wf st bs fl -> 0 < n <= LONG_HALF - 16 ->
  mm_malloc fuel st n = Returns st' p ->
  mem_brk st' - mem_brk st = heap_size st' - heap_size st /\
  (heap_size st' = heap_size st \/
   heap_size st' = heap_size st + (16 + round_request n)).
Proof.
  intros W Hn Hm.
  destruct (mm_malloc_cases _ _ _ _ _ _ _ W Hn Hm)
    as [(_ & _ & _ & -> & _)
       |(b & s & bs1 & bs2 & l1 & l2 & _ & _ & _ & _ & _ &
         [(_ & -> & _)|(_ & -> & _)])].
  - cbn [append heap_size mem_brk]. lia.
  - destruct (insertFreeBlock_arena
                (carve (removeFreeBlock st b) b (round_request n)
                   (b + 16 + round_request n) (s + round_request n + 16)
                   (first_addr bs2)) (b + 16 + round_request n)) as (-> & -> & _).
    destruct (carve_arena (removeFreeBlock st b) b (round_request n)
                (b + 16 + round_request n) (s + round_request n + 16)
                (first_addr bs2)) as (-> & -> & _).
    destruct (removeFreeBlock_arena st b) as (-> & -> & _). lia.
  - destruct (removeFreeBlock_arena
                (with_mem st (set_size (mem st) b (- s))) b) as (-> & -> & _).
    cbn [with_mem heap_size mem_brk]. lia.
Qed.

Lemma mm_malloc_step st bs fl n fuel st' p :
  wf st bs fl -> 0 < n <= LONG_HALF - 16 ->
  mm_malloc fuel st n = Returns st' p ->
  exists bs' fl',
    wf st' bs' fl' /\
    alloc_step (mem_heap_lo + heap_size st) (round_request n) bs fl p bs' fl'
               (heap_size st' - heap_size st).
Proof.
  intros W Hn Hm.
  apply (mm_malloc_mono fuel (Nat.max fuel (length fl))) in Hm; [|lia].
  destruct (mm_malloc_wf st bs fl n (Nat.max fuel (length fl)) W Hn)
    as [[E _]|(st2 & p2 & bs' & fl' & E & W' & Hstep)]; [lia | congruence |].
  rewrite E in Hm. inversion Hm; subst st2 p2. eauto.
Qed.

(** The allocated blocks of the chain stay as they are across a call of
    [mm_malloc]. *)
Lemma alloc_step_keeps e r bs fl p bs' fl' g y t :
  alloc_step e r bs fl p bs' fl' g -> 0 <= r -> 0 < t ->
  In (y, t) bs -> In (y, t) bs'.
Proof.
  intros Hstep Hr Ht Hy.
  destruct Hstep as [Ep Hno | b bs1 s bs2 l1 l2 Ep Ebs Efl Hfit
                    | b bs1 s bs2 l1 l2 Ep Ebs Efl Hfit].
  - apply in_or_app; now left.
  - rewrite Ebs in Hy. apply in_sides in Hy as [E|Hy]; [inversion E; lia|].
    apply in_sides. destruct Hy; [tauto | right; right; now right].
  - rewrite Ebs in Hy. apply in_sides in Hy as [E|Hy]; [inversion E; lia|].
    apply in_sides. tauto.
Qed.

(** X5: A pointer returned by [mm_malloc] is not one of those the client
    holds already, and the blocks of those keep their place in the chain
    and their size. *)
Theorem malloc_returns_fresh_block
  (st : State) (live : list Z) (n : Z) (fuel : nat) (st' : State) (p : Z) :
  reachable MAX_REQUEST st live -> 0 < n <= MAX_REQUEST ->
  mm_malloc fuel st n = Returns st' p ->
  ~ In p live /\
  forall q, In q live ->
    in_chain st' (q - sizeof_BlockInfo) /\
    0 < get_size (mem st) (q - sizeof_BlockInfo) /\
    get_size (mem st') (q - sizeof_BlockInfo) =
    get_size (mem st) (q - sizeof_BlockInfo).
Proof.
  intros H Hn Hm. unfold MAX_REQUEST in Hn. change sizeof_BlockInfo with 16.
  destruct (reachable_wf _ _ H) as (bs & fl & W & L).
  pose proof (wf_rep _ _ _ W) as R.
  destruct (mm_malloc_step _ _ _ _ _ _ _ W Hn Hm) as (bs' & fl' & W' & Hstep).
  pose proof (wf_rep _ _ _ W') as R'.
  split.
  - intros Hp. destruct (proj1 (L p) Hp) as (t & Ht & Ht0).
    destruct (rep_block _ _ _ _ _ R Ht) as (_ & _ & A3 & _).
    destruct Hstep as [Ep Hno | b bs1 s bs2 l1 l2 Ep Ebs Efl Hfit
                      | b bs1 s bs2 l1 l2 Ep Ebs Efl Hfit].
    + lia.
    + destruct (round_request_bounds n Hn) as (_ & _ & Hr).
      replace (p - 16) with b in Ht by lia.
      assert (Hb : In (b, s) bs) by (rewrite Ebs; apply in_middle).
      pose proof (rep_unique _ _ _ _ _ _ R Ht Hb). lia.
    + destruct (round_request_bounds n Hn) as (_ & _ & Hr).
      replace (p - 16) with b in Ht by lia.
      assert (Hb : In (b, s) bs) by (rewrite Ebs; apply in_middle).
      pose proof (rep_unique _ _ _ _ _ _ R Ht Hb). lia.
  - intros q Hq. destruct (proj1 (L q) Hq) as (t & Ht & Ht0).
    destruct (round_request_bounds n Hn) as (_ & _ & Hr).
    pose proof (alloc_step_keeps _ _ _ _ _ _ _ _ _ _ Hstep ltac:(lia) Ht0 Ht)
      as Ht'.
    destruct (rep_block _ _ _ _ _ R Ht) as (_ & _ & _ & _ & _ & A6).
    destruct (rep_block _ _ _ _ _ R' Ht') as (_ & _ & _ & _ & _ & B6).
    split; [apply (in_chain_iff _ _ _ _ R'); eauto|]. lia.
Qed.

(** X6: The block handed out by [mm_malloc] holds the rounded size, or one
    header more when it is a free block taken whole because what would
    remain of it could not stand as a block of its own. *)
Theorem malloc_slack_bounded
  (st : State) (live : list Z) (n : Z) (fuel : nat) (st' : State) (p : Z) :
  reachable MAX_REQUEST st live -> 0 < n <= MAX_REQUEST ->
  mm_malloc fuel st n = Returns st' p ->
  get_size (mem st') (p - sizeof_BlockInfo) = round_request n \/
  get_size (mem st') (p - sizeof_BlockInfo) = round_request n + sizeof_BlockInfo.
Proof.
  intros H Hn Hm. unfold MAX_REQUEST in Hn. change sizeof_BlockInfo with 16.
  destruct (reachable_wf _ _ H) as (bs & fl & W & L).
  pose proof (wf_rep _ _ _ W) as R.
  destruct (mm_malloc_step _ _ _ _ _ _ _ W Hn Hm) as (bs' & fl' & W' & Hstep).
  pose proof (wf_rep _ _ _ W') as R'.
  destruct (round_request_bounds n Hn) as (_ & Hr16 & Hr).
  destruct Hstep as [Ep Hno | b bs1 s bs2 l1 l2 Ep Ebs Efl Hfit
                    | b bs1 s bs2 l1 l2 Ep Ebs Efl Hfit]; subst p.
  - left.
    assert (Hin : In (mem_heap_lo + heap_size st, round_request n)
                     (bs ++ [(mem_heap_lo + heap_size st, round_request n)]))
      by (apply in_or_app; right; now left).
    destruct (rep_block _ _ _ _ _ R' Hin) as (_ & _ & _ & _ & _ & E).
    rewrite <- E. f_equal. lia.
  - left.
    destruct (rep_block _ _ _ _ _ R' (in_middle bs1 (b, round_request n) _))
      as (_ & _ & _ & _ & _ & E).
    rewrite <- E. f_equal. lia.
  - destruct (rep_block _ _ _ _ _ R' (in_middle bs1 (b, - s) _))
      as (_ & _ & _ & _ & A5 & E).
    replace (b + 16 - 16) with b by lia. rewrite E.
    assert (Hs16 : (- s) mod 16 = 0).
    { replace (- s) with (Z.abs (- s)) by lia. exact A5. }
    asolve.
Qed.

(** X7: [mm_malloc] takes a block of the free list whenever one is large
    enough, and then the arena keeps its size; it extends the arena only
    when no block of the free list is large enough, and then by exactly
    one header and the rounded size, the new block starting at the old end
    of the arena. *)
Theorem malloc_grows_only_without_fit
  (st : State) (live : list Z) (n : Z) (fuel : nat) (st' : State) (p : Z) :
  reachable MAX_REQUEST st live -> 0 < n <= MAX_REQUEST ->
  mm_malloc fuel st n = Returns st' p ->
  let r := round_request n in
  ((exists f, in_free_list st f /\ r <= - get_size (mem st) f) ->
     heap_size st' = heap_size st /\ mem_brk st' = mem_brk st /\
     in_free_list st (p - sizeof_BlockInfo) /\
     r <= - get_size (mem st) (p - sizeof_BlockInfo)) /\
  ((forall f, in_free_list st f -> - get_size (mem st) f < r) ->
     heap_size st' = heap_size st + (sizeof_BlockInfo + r) /\
     mem_brk st' = mem_brk st + (sizeof_BlockInfo + r) /\
     p = mem_heap_lo + heap_size st + sizeof_BlockInfo).
Proof.
  intros H Hn Hm r. unfold MAX_REQUEST in Hn. change sizeof_BlockInfo with 16.
  destruct (reachable_wf _ _ H) as (bs & fl & W & L).
  pose proof (wf_rep _ _ _ W) as R.
  destruct (mm_malloc_brk _ _ _ _ _ _ _ W Hn Hm) as (Hbrk & _).
  destruct (mm_malloc_step _ _ _ _ _ _ _ W Hn Hm) as (bs' & fl' & W' & Hstep).
  fold r in Hstep.
  destruct (round_request_bounds n Hn) as (_ & _ & Hr). fold r in Hr.
  assert (Hfree : forall b s, In (b, s) bs -> s < 0 ->
                    in_free_list st b /\ get_size (mem st) b = s).
  { intros b s Hb Hs. split.
    - apply (in_free_list_iff _ _ _ _ R), (wf_free _ _ _ W). eauto.
    - apply (rep_block _ _ _ _ _ R Hb). }
  remember (heap_size st' - heap_size st) as g eqn:Eg.
  destruct Hstep as [Ep Hno | b bs1 s bs2 l1 l2 Ep Ebs Efl Hfit
                    | b bs1 s bs2 l1 l2 Ep Ebs Efl Hfit].
  - split.
    + intros (f & Hf & Hfit). exfalso.
      apply (in_free_list_iff _ _ _ _ R), (wf_free _ _ _ W) in Hf
        as (s & Hs & Hs0).
      specialize (Hno _ _ Hs).
      destruct (rep_block _ _ _ _ _ R Hs) as (_ & _ & _ & _ & _ & E). lia.
    + intros _. repeat split; lia.
  - assert (Hb : In (b, s) bs) by (rewrite Ebs; apply in_middle).
    destruct (Hfree b s Hb ltac:(lia)) as (F1 & F2).
    replace (p - 16) with b by lia.
    split; [intros _; repeat split; (assumption || lia)|].
    intros Hno. specialize (Hno b F1). lia.
  - assert (Hb : In (b, s) bs) by (rewrite Ebs; apply in_middle).
    destruct (Hfree b s Hb ltac:(lia)) as (F1 & F2).
    replace (p - 16) with b by lia.
    split; [intros _; repeat split; (assumption || lia)|].
    intros Hno. specialize (Hno b F1). lia.
Qed.

(** X8: The path [// == No Free Blocks to Use ==]: when the fit search
    finds nothing, [mm_malloc] exits if the arena cannot take one header
    and the rounded size more; otherwise it appends a block of the rounded
    size at the end of the arena, links it to the former tail, makes it
    the tail, and writes no cell but the two of the new header. *)
Theorem malloc_grow_path (st : State) (n : Z) (fuel : nat) :
  heap_ok st -> 0 < n <= MAX_REQUEST ->
  searchFreeList fuel st (to_ulong (round_request n)) = Some NULL ->
  let r := round_request n in
  let e := mem_heap_lo + heap_size st in
  (MAX_HEAP < mem_brk st + (sizeof_BlockInfo + r) ->
   mm_malloc fuel st n = Exits) /\
  (mem_brk st + (sizeof_BlockInfo + r) <= MAX_HEAP ->
   exists st',
     mm_malloc fuel st n = Returns st' (e + sizeof_BlockInfo) /\
     get_size (mem st') e = r /\
     get_prev (mem st') e = malloc_list_tail st /\
     malloc_list_tail st' = e /\ next_block st' e = NULL /\
     heap_size st' = heap_size st + (sizeof_BlockInfo + r) /\
     free_list_head st' = free_list_head st /\
     (forall c, c <> e -> c <> e + 8 -> mem st' c = mem st c)).
Proof.
  intros (bs & fl & W) Hn Eb r e. unfold MAX_REQUEST in Hn.
  change sizeof_BlockInfo with 16.
  pose proof (wf_rep _ _ _ W) as R.
  destruct (round_request_bounds n Hn) as (Hr1 & Hr16 & Hr2).
  fold r in Hr1, Hr16, Hr2.
  rewrite (to_ulong_id (round_request n)) in Eb by (fold r; zsolve).
  pose proof (mm_malloc_grow st bs fl n fuel W Hn Eb) as Hm. fold r in Hm.
  split.
  - intros Hex.
    destruct (Z.leb_spec (mem_brk st + (16 + r)) MAX_HEAP); [lia | exact Hm].
  - intros Hok.
    destruct (Z.leb_spec (mem_brk st + (16 + r)) MAX_HEAP); [|lia].
    exists (append st r). split; [exact Hm|].
    pose proof (rep_append st bs fl r R ltac:(lia) Hr16 Hok) as R'. fold e in R'.
    assert (R2 : rep (append st r) (bs ++ (e, r) :: []) fl) by exact R'.
    destruct (rep_split _ _ _ _ _ _ R2) as (_ & Es & Ep & _).
    split; [exact Es|]. split; [rewrite Ep; symmetry; apply (rep_tail _ _ _ R)|].
    split; [reflexivity|]. split.
    { rewrite (next_block_rep _ _ _ _ _ _ R2). reflexivity. }
    split; [reflexivity|]. split; [reflexivity|].
    intros c H1 H2. unfold append; cbn [mem]. fold e. mem_simpl. reflexivity.
Qed.

(** X9: The path [// == Exact Size ==]: when the block found is too small
    to be split, it is handed out whole; its stored size becomes its
    capacity, it leaves the free list, the other members stay, and the
    chain and the arena are as before. *)
Theorem malloc_exact_fit (st : State) (n : Z) (fuel : nat) (b : Z) :
  heap_ok st -> 0 < n <= MAX_REQUEST ->
  searchFreeList fuel st (to_ulong (round_request n)) = Some b -> b <> NULL ->
  - get_size (mem st) b <= round_request n + sizeof_BlockInfo ->
  let capacity := - get_size (mem st) b in
  let st' := removeFreeBlock (with_mem st (set_size (mem st) b capacity)) b in
  mm_malloc fuel st n = Returns st' (b + sizeof_BlockInfo) /\
  round_request n <= capacity /\
  get_size (mem st') b = capacity /\
  (forall f, in_free_list st' f <-> in_free_list st f /\ f <> b) /\
  next_block st' b = next_block st b /\
  get_prev (mem st') b = get_prev (mem st) b /\
  malloc_list_tail st' = malloc_list_tail st /\
  heap_size st' = heap_size st.
Proof.
  intros (bs & fl & W) Hn Eb Hb Hcap. cbv zeta. unfold MAX_REQUEST in Hn.
  change sizeof_BlockInfo with 16 in *.
  pose proof (wf_rep _ _ _ W) as R.
  destruct (round_request_bounds n Hn) as (Hr1 & Hr16 & Hr2).
  set (r := round_request n) in *.
  destruct (searchFreeList_block st bs fl r fuel b R ltac:(zsolve) Eb Hb)
    as (s & Hs & Hfit).
  destruct (rep_block _ _ _ _ _ R Hs) as (A1 & A2 & A3 & A4 & A5 & A6).
  rewrite A6 in *.
  assert (Hbfl : In b fl)
    by (apply (wf_free _ _ _ W); exists s; split; [assumption | lia]).
  destruct (in_split _ _ Hs) as (bs1 & bs2 & Ebs).
  destruct (in_split _ _ Hbfl) as (l1 & l2 & Efl).
  subst bs fl.
  rewrite (to_ulong_id r) in Eb by zsolve.
  pose proof (mm_malloc_hit st bs1 b s bs2 l1 l2 n fuel W Hn Hfit Eb) as H.
  cbv zeta in H. fold r in H.
  destruct (Z.ltb_spec (r + 16) (- s)) as [Hlt|_]; [lia|].
  destruct H as (E & W' & Eh).
  set (st' := removeFreeBlock _ _) in *.
  pose proof (wf_rep _ _ _ W') as R'.
  destruct (rep_split _ _ _ _ _ _ R) as (_ & _ & P & _).
  destruct (rep_split _ _ _ _ _ _ R') as (_ & S' & P' & _).
  split; [exact E|]. split; [lia|]. split; [exact S'|]. split.
  { intros f. rewrite (in_free_list_iff _ _ _ _ R'), (in_free_list_iff _ _ _ _ R).
    apply fl_remove_iff, (rep_nodup _ _ _ R). }
  split.
  { now rewrite (next_block_rep _ _ _ _ _ _ R'), (next_block_rep _ _ _ _ _ _ R). }
  split; [congruence|]. split; [|exact Eh].
  unfold st'.
  now destruct (removeFreeBlock_arena
                  (with_mem st (set_size (mem st) b (- s))) b) as (_ & _ & ->).
Qed.

(** X10: [mm_malloc] terminates on a well-formed heap: with enough fuel
    for the scan of the free list its outcome no longer depends on the
    fuel, and it either returns a non-null payload, leaving the heap well-
    formed, or exits because no block of the free list is large enough and
    the arena cannot be extended. *)
Theorem malloc_terminates (st : State) (n : Z) :
  heap_ok st -> 0 < n <= MAX_REQUEST ->
  exists fuel,
    (forall fuel', (fuel <= fuel')%nat ->
       mm_malloc fuel' st n = mm_malloc fuel st n) /\
    ((exists st' p,
        mm_malloc fuel st n = Returns st' p /\ p <> NULL /\ heap_ok st') \/
     (mm_malloc fuel st n = Exits /\
      MAX_HEAP < mem_brk st + (sizeof_BlockInfo + round_request n) /\
      forall f, in_free_list st f -> - get_size (mem st) f < round_request n)).
Proof.
  intros (bs & fl & W) Hn. unfold MAX_REQUEST in Hn.
  pose proof (wf_rep _ _ _ W) as R.
  destruct (round_request_bounds n Hn) as (_ & _ & Hr).
  exists (length fl). split.
  - intros fuel' Hle. symmetry. apply mm_malloc_fuel.
    destruct (searchFreeList_rep st bs fl (round_request n) (length fl) R)
      as (b & Eb & _); [zsolve | lia |].
    rewrite Eb. symmetry.
    apply (searchFreeList_mono (length fl) fuel'); assumption.
  - destruct (mm_malloc_wf st bs fl n (length fl) W Hn)
      as [(E & Hex & Hno)|(st' & p & bs' & fl' & E & W' & Hstep)]; [lia | |].
    + right. split; [exact E|]. split; [exact Hex|].
      intros f Hf.
      apply (in_free_list_iff _ _ _ _ R), (wf_free _ _ _ W) in Hf
        as (s & Hs & Hs0).
      specialize (Hno _ _ Hs).
      destruct (rep_block _ _ _ _ _ R Hs) as (_ & _ & _ & _ & _ & Es). lia.
    + left. exists st', p. split; [exact E|]. split; [|now exists bs', fl'].
      pose proof (rep_size _ _ _ R).
      destruct Hstep as [Ep Hno | b bs1 s bs2 l1 l2 Ep Ebs Efl Hfit
                        | b bs1 s bs2 l1 l2 Ep Ebs Efl Hfit]; subst p.
      * zsolve.
      * destruct (rep_block _ _ _ _ _ R (eq_ind_r (fun l => In (b, s) l)
                    (in_middle bs1 (b, s) bs2) Ebs)) as (_ & ? & _). zsolve.
      * destruct (rep_block _ _ _ _ _ R (eq_ind_r (fun l => In (b, s) l)
                    (in_middle bs1 (b, s) bs2) Ebs)) as (_ & ? & _). zsolve.
Qed.

(** ** [mm_free] *)

Lemma merge_prev_arena st b nx pv :
  heap_size (fst (merge_prev st b nx pv)) = heap_size st /\
  mem_brk (fst (merge_prev st b nx pv)) = mem_brk st.
Proof.
  unfold merge_prev.
  destruct (negb (pv =? NULL) && (get_size (mem st) pv <? 0)); [|auto].
  destruct (removeFreeBlock_arena st pv) as (E1 & E2 & _).
  destruct (negb (nx =? NULL)); cbn [fst with_mem with_tail heap_size mem_brk];
    auto.
Qed.

Lemma merge_next_arena st b nx :
  heap_size (merge_next st b nx) = heap_size st /\
  mem_brk (merge_next st b nx) = mem_brk st.
Proof.
  unfold merge_next.
  destruct (negb (nx =? NULL) && (get_size (mem st) nx <? 0)); [|auto].
  destruct (removeFreeBlock_arena st nx) as (E1 & E2 & _).
  match goal with |- context [if ?c then _ else _] => destruct c end;
    cbn [fst with_mem with_tail heap_size mem_brk]; auto.
Qed.

Lemma coalesce_arena st b :
  heap_size (coalesce st b) = heap_size st /\
  mem_brk (coalesce st b) = mem_brk st.
Proof.
  rewrite coalesce_steps.
  match goal with |- context [if ?c then _ else _] => destruct c end; [auto|].
  cbv zeta.
  match goal with
  | |- context [insertFreeBlock ?s ?b] =>
      destruct (insertFreeBlock_arena s b) as (-> & -> & _)
  end.
  match goal with
  | |- context [merge_next ?s ?b ?x] =>
      destruct (merge_next_arena s b x) as (-> & ->)
  end.
  match goal with
  | |- context [merge_prev ?s ?b ?x ?y] =>
      destruct (merge_prev_arena s b x y) as (-> & ->)
  end.
  auto.
Qed.

Lemma mm_free_arena st p :
  heap_size (mm_free st p) = heap_size st /\
  mem_brk (mm_free st p) = mem_brk st.
Proof.
  unfold mm_free. destruct (p =? NULL); [auto|].
  match goal with
  | |- context [coalesce ?s ?b] => destruct (coalesce_arena s b) as (-> & ->)
  end.
  auto.
Qed.

(** A request that a free block of the chain can hold is served from
    the free list: the block returned was a member of the free list with
    room for the rounded size, it is now an allocated block of the chain
    that holds the request, and the arena has not been extended. *)
Lemma mm_malloc_served st bs fl n z v :
  wf st bs fl -> 0 < n <= LONG_HALF - 16 ->
  In (z, v) bs -> v <= - round_request n ->
  exists st' q,
    mm_malloc (length fl) st n = Returns st' q /\
    heap_size st' = heap_size st /\ mem_brk st' = mem_brk st /\
    q <> NULL /\ in_free_list st (q - 16) /\
    round_request n <= - get_size (mem st) (q - 16) /\
    in_chain st' (q - 16) /\ ~ in_free_list st' (q - 16) /\
    n <= get_size (mem st') (q - 16).
Proof.
  intros W Hn Hz Hv. pose proof (wf_rep _ _ _ W) as R.
  destruct (round_request_bounds n Hn) as (Hr1 & Hr16 & Hr2).
  destruct (mm_malloc_wf st bs fl n (length fl) W Hn)
    as [(_ & _ & Hno)|(st' & q & bs2 & fl2 & E & W2 & Hstep)]; [lia | |].
  { specialize (Hno _ _ Hz). lia. }
  exists st', q. split; [exact E|].
  destruct (mm_malloc_brk _ _ _ _ _ _ _ W Hn E) as (Hbrk & _).
  pose proof (wf_rep _ _ _ W2) as R2.
  assert (Hblk : exists b s u,
            q = b + 16 /\ In (b, s) bs /\ s <= - round_request n /\
            In (b, u) bs2 /\ round_request n <= u /\
            heap_size st' - heap_size st = 0).
  { remember (heap_size st' - heap_size st) as g eqn:Eg.
    destruct Hstep as [Ep Hno | b bs1 s2 bs3 l1 l2 Ep Ebs Efl Hfit2
                      | b bs1 s2 bs3 l1 l2 Ep Ebs Efl Hfit2].
    - specialize (Hno _ _ Hz). lia.
    - exists b, s2, (round_request n).
      split; [exact Ep|]. split; [rewrite Ebs; apply in_middle|].
      split; [lia|]. split; [apply in_middle|]. split; lia.
    - exists b, s2, (- s2).
      split; [exact Ep|]. split; [rewrite Ebs; apply in_middle|].
      split; [lia|]. split; [apply in_middle|]. split; lia. }
  destruct Hblk as (b & s & u & -> & Hb & Hs & Hu & Hru & Hg).
  replace (b + 16 - 16) with b by lia.
  destruct (rep_block _ _ _ _ _ R Hb) as (_ & B2 & _ & _ & _ & B6).
  destruct (rep_block _ _ _ _ _ R2 Hu) as (_ & _ & _ & _ & _ & U6).
  split; [lia|]. split; [lia|]. split; [zsolve|]. split.
  { apply (in_free_list_iff _ _ _ _ R), (wf_free _ _ _ W).
    exists s. split; [exact Hb | lia]. }
  split; [lia|]. split; [apply (in_chain_iff _ _ _ _ R2); eauto|]. split.
  { intros Hin.
    apply (in_free_list_iff _ _ _ _ R2), (wf_free _ _ _ W2) in Hin
      as (w & Hw & Hw0).
    pose proof (rep_unique _ _ _ _ _ _ R2 Hw Hu). lia. }
  lia.
Qed.

(** X12: After a block has been freed, a request that is not larger than
    the block is served from the free list: [mm_malloc] returns a
    non-null payload whose block was a member of the free list with room
    for the rounded size; the block is now an allocated block of the
    chain that holds the request, and the arena has not grown. *)
Theorem free_then_malloc_reuses (st : State) (live : list Z) (p n : Z) :
  reachable MAX_REQUEST st live -> In p live ->
  0 < n <= get_size (mem st) (p - sizeof_BlockInfo) ->
  exists fuel st' q,
    mm_malloc fuel (mm_free st p) n = Returns st' q /\
    heap_size st' = heap_size st /\ mem_brk st' = mem_brk st /\
    q <> NULL /\
    in_free_list (mm_free st p) (q - sizeof_BlockInfo) /\
    round_request n
      <= - get_size (mem (mm_free st p)) (q - sizeof_BlockInfo) /\
    in_chain st' (q - sizeof_BlockInfo) /\
    ~ in_free_list st' (q - sizeof_BlockInfo) /\
    n <= get_size (mem st') (q - sizeof_BlockInfo).
Proof.
  intros H Hp Hn. change sizeof_BlockInfo with 16 in *.
  destruct (reachable_wf _ _ H) as (bs & fl & W & L).
  pose proof (wf_rep _ _ _ W) as R.
  destruct (proj1 (L p) Hp) as (s & Hs & Hs0).
  destruct (rep_block _ _ _ _ _ R Hs) as (_ & _ & _ & A4 & A5 & A6).
  destruct (rep_size_long _ _ _ _ _ R Hs) as (S1 & S2).
  rewrite A6 in Hn.
  assert (Hn' : 0 < n <= LONG_HALF - 16) by lia.
  destruct (round_request_bounds n Hn') as (Hr1 & Hr16 & Hr2).
  assert (Hrs : round_request n <= s) by asolve.
  destruct (mm_free_wf _ _ _ _ _ W Hs Hs0) as (bs' & fl' & W' & Hstep).
  destruct (mm_free_arena st p) as (Eh & Eb).
  assert (Hfit : exists z v, In (z, v) bs' /\ v <= - s).
  { destruct Hstep as [bs1 s1 bs2 bsA z v1 flA v2 bsB flB Ebs Hs1 PM NM].
    exists z, v2. split; [apply in_middle|].
    assert (In (p - 16, s1) bs) by (rewrite Ebs; apply in_middle).
    pose proof (rep_unique _ _ _ _ _ _ R Hs H0). subst s1.
    assert (v1 <= - s) by (destruct PM; lia).
    destruct NM; lia. }
  destruct Hfit as (z & v & Hz & Hv).
  destruct (mm_malloc_served _ _ _ n z v W' Hn' Hz ltac:(lia))
    as (st' & q & E & F1 & F2 & F3).
  exists (length fl'), st', q.
  split; [exact E|]. split; [congruence|]. split; [congruence | exact F3].
Qed.

(** X13: A second [mm_free] of the same payload is not detected: the size
    of the block, which is free and stays in the free list, is made
    positive again, and nothing else is written. *)
Theorem double_free_marks_allocated (st : State) (b : Z) :
  heap_ok st -> in_free_list st b ->
  let st' := mm_free st (b + sizeof_BlockInfo) in
  st' = with_mem st (set_size (mem st) b (- get_size (mem st) b)) /\
  0 < get_size (mem st') b /\ in_free_list st' b /\ in_chain st' b.
Proof.
  intros (bs & fl & W) Hb. cbv zeta. change sizeof_BlockInfo with 16.
  pose proof (wf_rep _ _ _ W) as R.
  apply (in_free_list_iff _ _ _ _ R) in Hb.
  destruct (proj1 (wf_free _ _ _ W b) Hb) as (s & Hs & Hs0).
  destruct (rep_block _ _ _ _ _ R Hs) as (A1 & A2 & A3 & A4 & A5 & A6).
  destruct (rep_size_long _ _ _ _ _ R Hs) as (S1 & S2).
  pose proof (rep_size _ _ _ R) as Hsz. pose proof (rep_brk _ _ _ R) as Hbk.
  destruct (in_split _ _ Hs) as (bs1 & bs2 & Ebs). rewrite Ebs in R.
  pose proof (rep_set_size _ _ _ s _ _ (- s) R ltac:(lia)) as R'.
  assert (E : mm_free st (b + 16) =
              with_mem st (set_size (mem st) b (- get_size (mem st) b))).
  { unfold mm_free.
    destruct (Z.eqb_spec (b + 16) NULL) as [E0|_]; [zsolve|].
    replace (b + 16 - sizeof_BlockInfo) with b by zsolve.
    rewrite (to_ulong_id b) by zsolve.
    rewrite A6, (to_long_id (- s)) by zsolve.
    unfold coalesce. cbn [mem with_mem].
    replace (get_size (set_size (mem st) b (- s)) b) with (- s).
    - destruct (Z.leb_spec 0 (- s)); [|lia].
      now rewrite orb_true_r.
    - unfold get_size, set_size. rewrite store_same.
      symmetry. apply to_long_id. zsolve. }
  rewrite E, A6. split; [reflexivity|].
  destruct (rep_split _ _ _ _ _ _ R') as (_ & Es & _).
  split; [cbn [mem with_mem] in *; lia|]. split.
  - apply (in_free_list_iff _ _ _ _ R'). exact Hb.
  - apply (in_chain_iff _ _ _ _ R'). exists (- s). apply in_middle.
Qed.

(** [mm_free] of the allocated block that sits between [bs1] and [bs2]. *)
Lemma mm_free_wf_at st bs1 p s bs2 fl :
  wf st (bs1 ++ (p - 16, s) :: bs2) fl -> 0 < s ->
  exists bsA z v1 flA v2 bsB flB,
    wf (mm_free st p) (bsA ++ (z, v2) :: bsB) (z :: flB) /\
    prev_merge bs1 (p - 16) (- s) fl bsA z v1 flA /\
    next_merge bs2 v1 flA v2 bsB flB.
Proof.
  intros W Hs. pose proof (wf_rep _ _ _ W) as R.
  pose proof (in_middle bs1 (p - 16, s) bs2) as Hin.
  destruct (rep_block _ _ _ _ _ R Hin) as (A1 & A2 & A3 & A4 & A5 & A6).
  destruct (rep_size_long _ _ _ _ _ R Hin) as [L1 L2].
  pose proof (rep_size _ _ _ R) as Hsz. pose proof (rep_brk _ _ _ R) as Hbk.
  unfold mm_free.
  destruct (Z.eqb_spec p NULL) as [E|_]; [zsolve|].
  rewrite (to_ulong_id (p - sizeof_BlockInfo)) by zsolve.
  change (p - sizeof_BlockInfo) with (p - 16).
  rewrite A6. rewrite (to_long_id (- s)) by zsolve.
  set (st0 := with_mem st (set_size (mem st) (p - 16) (- s))).
  assert (R0 : rep st0 (bs1 ++ (p - 16, - s) :: bs2) fl)
    by (apply (rep_set_size _ _ _ s); [exact R | lia]).
  pose proof (wf_nadj _ _ _ W) as Hnaf.
  apply naf_app in Hnaf as (N1 & N2 & _). apply naf_cons in N2 as [_ N2].
  assert (P0 : pending st0 bs1 (p - 16) (- s) bs2 fl).
  { constructor; auto; [lia | |].
    - intros Hfl. apply (wf_free _ _ _ W) in Hfl as (w & Hw & Hw0).
      pose proof (rep_unique _ _ _ _ _ _ R Hw Hin). lia.
    - intros a. rewrite (wf_free _ _ _ W a). split.
      + intros (w & Hw & Hw0). exists w; split; [|assumption].
        apply in_sides in Hw as [E|Hw]; [inversion E; lia | assumption].
      + intros (w & Hw & Hw0). exists w; split; [|assumption].
        apply in_sides. now right. }
  rewrite coalesce_steps.
  pose proof (in_middle bs1 (p - 16, - s) bs2) as Hin0.
  destruct (rep_block _ _ _ _ _ R0 Hin0) as (_ & _ & _ & _ & _ & E0).
  destruct (Z.eqb_spec (p - 16) NULL) as [E|_]; [zsolve|].
  rewrite E0. destruct (Z.leb_spec 0 (- s)) as [|_]; [lia|].
  cbn [orb]. cbv zeta.
  rewrite (next_block_rep _ _ _ _ _ _ R0).
  destruct (rep_split _ _ _ _ _ _ R0) as (_ & _ & Ep & _). rewrite Ep.
  destruct (merge_prev_pending _ _ _ _ _ _ P0)
    as (bsA & z & v1 & flA & Em & PM & P1 & HA).
  rewrite Em. cbn [fst snd].
  destruct (merge_next_pending _ _ _ _ _ _ P1) as (v2 & bsB & flB & NM & P2 & HB).
  exists bsA, z, v1, flA, v2, bsB, flB.
  split; [apply pending_insert; assumption | split; assumption].
Qed.

(** X14: Coalescing at work: when two blocks that follow each other in the
    chain have both been freed, in either order, a request of up to their
    two sizes and the header between them is served from the free list:
    [mm_malloc] returns a non-null payload whose block was a member of
    the free list with room for the rounded size; the block is now an
    allocated block of the chain that holds the request, and the arena
    has not grown. *)
Theorem free_neighbours_then_malloc_reuses
  (st : State) (live : list Z) (p q n : Z) :
  reachable MAX_REQUEST st live -> In p live -> In q live ->
  next_block st (p - sizeof_BlockInfo) = q - sizeof_BlockInfo ->
  0 < n <= get_size (mem st) (p - sizeof_BlockInfo) + sizeof_BlockInfo
           + get_size (mem st) (q - sizeof_BlockInfo) ->
  forall freed,
    freed = mm_free (mm_free st p) q \/ freed = mm_free (mm_free st q) p ->
  exists fuel st' r,
    mm_malloc fuel freed n = Returns st' r /\
    heap_size st' = heap_size st /\ mem_brk st' = mem_brk st /\
    r <> NULL /\
    in_free_list freed (r - sizeof_BlockInfo) /\
    round_request n <= - get_size (mem freed) (r - sizeof_BlockInfo) /\
    in_chain st' (r - sizeof_BlockInfo) /\
    ~ in_free_list st' (r - sizeof_BlockInfo) /\
    n <= get_size (mem st') (r - sizeof_BlockInfo).
Proof.
  intros H Hp Hq Hadj Hn freed Hfreed. change sizeof_BlockInfo with 16 in *.
  destruct (reachable_wf _ _ H) as (bs & fl & W & L).
  pose proof (wf_rep _ _ _ W) as R.
  destruct (proj1 (L p) Hp) as (s1 & Hs1 & Hs10).
  destruct (proj1 (L q) Hq) as (s2 & Hs2 & Hs20).
  destruct (rep_block _ _ _ _ _ R Hs1) as (_ & P2 & _ & P4 & P5 & P6).
  destruct (rep_block _ _ _ _ _ R Hs2) as (_ & Q2 & _ & Q4 & Q5 & Q6).
  destruct (rep_size_long _ _ _ _ _ R Hs1) as (S1 & S2).
  destruct (rep_size_long _ _ _ _ _ R Hs2) as (S3 & _).
  rewrite P6, Q6 in Hn.
  destruct (in_split _ _ Hs1) as (bs1 & rest & Ebs). rewrite Ebs in *.
  rewrite (next_block_rep _ _ _ _ _ _ R) in Hadj.
  destruct rest as [|[x2 w] bs2]; [cbn in Hadj; zsolve|].
  rewrite first_addr_cons in Hadj. subst x2.
  assert (Hw : In (q - 16, w) (bs1 ++ (p - 16, s1) :: (q - 16, w) :: bs2))
    by (apply in_sides; right; right; now left).
  pose proof (rep_unique _ _ _ _ _ _ R Hs2 Hw). subst w. clear Hw.
  assert (Hsum : s1 + 16 + s2 + 16 <= heap_size st).
  { pose proof (rep_block _ _ _ _ _ R Hs2) as (_ & _ & B3 & _).
    assert (R' : rep st ((bs1 ++ [(p - 16, s1)]) ++ (q - 16, s2) :: bs2) fl)
      by (rewrite <- app_assoc; exact R).
    assert (Hin : In (p - 16, s1) (bs1 ++ [(p - 16, s1)]))
      by (apply in_or_app; right; now left).
    destruct (rep_before _ _ _ _ _ _ _ _ R' Hin) as (B1 & _).
    lia. }
  assert (Hn' : 0 < n <= LONG_HALF - 16) by lia.
  destruct (round_request_bounds n Hn') as (Hr1 & Hr16 & Hr2).
  assert (Hrs : round_request n <= s1 + 16 + s2) by asolve.
  destruct (mm_free_arena st p) as (Eh1 & Eb1).
  destruct (mm_free_arena st q) as (Eh2 & Eb2).
  destruct (mm_free_arena (mm_free st p) q) as (Eh3 & Eb3).
  destruct (mm_free_arena (mm_free st q) p) as (Eh4 & Eb4).
  destruct Hfreed as [-> | ->].
  - destruct (mm_free_wf_at _ _ _ _ _ _ W Hs10)
      as (bsA & z & v1 & flA & v2 & bsB & flB & W1 & PM & NM).
    assert (Hv1 : v1 <= - s1) by (destruct PM; lia).
    destruct NM as [Hk | c w bs3 l1 l2 E0 Hw0 Efl];
      [|inversion E0; lia].
    assert (W1' : wf (mm_free st p)
                    ((bsA ++ [(z, v1)]) ++ (q - 16, s2) :: bs2) (z :: flA))
      by (rewrite <- app_assoc; exact W1).
    destruct (mm_free_wf_at _ _ _ _ _ _ W1' Hs20)
      as (bsA' & z' & v1' & flA' & v2' & bsB' & flB' & W2 & PM' & NM').
    assert (Hv1' : v1' <= v1 - s2 - 16).
    { destruct PM' as [Hk' | bs0 y t l1 l2 E0 Ht0 Efl].
      - rewrite last_size_snoc in Hk'. lia.
      - apply app_inj_tail in E0 as [_ E0]. inversion E0. lia. }
    assert (Hv2' : v2' <= v1') by (destruct NM'; lia).
    destruct (mm_malloc_served _ _ _ n z' v2' W2 Hn' (in_middle _ _ _))
      as (st' & r & E & F1 & F2 & F3); [lia|].
    exists (length (z' :: flB')), st', r.
    split; [exact E|]. split; [congruence|]. split; [congruence | exact F3].
  - assert (Wq : wf st ((bs1 ++ [(p - 16, s1)]) ++ (q - 16, s2) :: bs2) fl)
      by (rewrite <- app_assoc; exact W).
    destruct (mm_free_wf_at _ _ _ _ _ _ Wq Hs20)
      as (bsA & z & v1 & flA & v2 & bsB & flB & W1 & PM & NM).
    destruct PM as [Hk | bs0 y t l1 l2 E0 Ht0 Efl];
      [|apply app_inj_tail in E0 as [_ E0]; inversion E0; lia].
    assert (Hv2 : v2 <= - s2) by (destruct NM; lia).
    assert (Hv20 : v2 < 0) by lia.
    assert (W1' : wf (mm_free st q)
                    (bs1 ++ (p - 16, s1) :: (q - 16, v2) :: bsB)
                    (q - 16 :: flB))
      by (rewrite <- app_assoc in W1; exact W1).
    destruct (mm_free_wf_at _ _ _ _ _ _ W1' Hs10)
      as (bsA' & z' & v1' & flA' & v2' & bsB' & flB' & W2 & PM' & NM').
    assert (Hv1' : v1' <= - s1) by (destruct PM'; lia).
    assert (Hv2' : v2' <= v1' + v2 - 16).
    { destruct NM' as [Hk' | c w bs3 l1 l2 E0 Hw0 Efl].
      - rewrite first_size_cons in Hk'. lia.
      - inversion E0. lia. }
    destruct (mm_malloc_served _ _ _ n z' v2' W2 Hn' (in_middle _ _ _))
      as (st' & r & E & F1 & F2 & F3); [lia|].
    exists (length (z' :: flB')), st', r.
    split; [exact E|]. split; [congruence|]. split; [congruence | exact F3].
Qed.

(** X15: [mm_init] forgets every block: whatever the state before it, the
    first [mm_malloc] after it creates its block at the start of the arena
    and returns the first payload address, so that any pointer handed out
    before is no longer valid; the arena is extended anew, as [mm_init]
    does not move the break back. *)
Theorem malloc_after_init (st : State) (n : Z) (fuel : nat) :
  0 <= mem_brk st <= MAX_HEAP -> 0 < n <= MAX_REQUEST ->
  let r := round_request n in
  let s0 := fst (mm_init st) in
  (mem_brk st + (sizeof_BlockInfo + r) <= MAX_HEAP ->
   exists st',
     mm_malloc fuel s0 n = Returns st' (mem_heap_lo + sizeof_BlockInfo) /\
     get_size (mem st') mem_heap_lo = r /\
     get_prev (mem st') mem_heap_lo = NULL /\
     malloc_list_tail st' = mem_heap_lo /\
     free_list_head st' = NULL /\
     heap_size st' = sizeof_BlockInfo + r /\
     mem_brk st' = mem_brk st + (sizeof_BlockInfo + r)) /\
  (MAX_HEAP < mem_brk st + (sizeof_BlockInfo + r) ->
   mm_malloc fuel s0 n = Exits).
Proof.
  intros Hb Hn r s0. unfold MAX_REQUEST in Hn. change sizeof_BlockInfo with 16.
  pose proof (mm_init_wf st Hb) as W. fold s0 in W.
  destruct (round_request_bounds n Hn) as (Hr1 & Hr16 & Hr2).
  fold r in Hr1, Hr16, Hr2.
  assert (Es : searchFreeList fuel s0 r = Some NULL)
    by (unfold searchFreeList; cbn; destruct fuel; reflexivity).
  pose proof (mm_malloc_grow s0 [] [] n fuel W Hn Es) as Hm. fold r in Hm.
  change (mem_brk s0) with (mem_brk st) in Hm.
  split.
  - intros Hok.
    destruct (Z.leb_spec (mem_brk st + (16 + r)) MAX_HEAP); [|lia].
    exists (append s0 r). change (heap_size s0) with 0 in Hm.
    rewrite Z.add_0_r in Hm. split; [exact Hm|].
    pose proof (rep_append s0 [] [] r (wf_rep _ _ _ W) ltac:(lia) Hr16 Hok) as R'.
    change (heap_size s0) with 0 in R'. rewrite Z.add_0_r in R'.
    cbn [app] in R'.
    assert (R2 : rep (append s0 r) ([] ++ (mem_heap_lo, r) :: []) []) by exact R'.
    destruct (rep_split _ _ _ _ _ _ R2) as (_ & E1 & E2 & _).
    split; [exact E1|]. split; [exact E2|].
    unfold append. cbn [malloc_list_tail free_list_head heap_size mem_brk].
    change (heap_size s0) with 0. change (free_list_head s0) with NULL.
    change (mem_brk s0) with (mem_brk st).
    repeat split; lia.
  - intros Hex.
    destruct (Z.leb_spec (mem_brk st + (16 + r)) MAX_HEAP); [lia | exact Hm].
Qed.

(** X16: [mm_free] undoes [mm_malloc] when the arena has not grown:
    freeing the pointer just returned gives back the chain as it was,
    block by block and size by size, and the free list with the members it
    had, the block that had been taken now being its head. *)
Theorem malloc_then_free_restores
  (st : State) (n : Z) (fuel : nat) (st' : State) (p : Z) :
  heap_ok st -> 0 < n <= MAX_REQUEST ->
  mm_malloc fuel st n = Returns st' p -> heap_size st' = heap_size st ->
  let st2 := mm_free st' p in
  (forall b, in_chain st2 b <-> in_chain st b) /\
  (forall b, in_chain st b -> get_size (mem st2) b = get_size (mem st) b) /\
  (forall f, in_free_list st2 f <-> in_free_list st f) /\
  free_list_head st2 = p - sizeof_BlockInfo /\
  heap_size st2 = heap_size st.
Proof.
  intros (bs & fl & W) Hn Hm Hsz. cbv zeta. unfold MAX_REQUEST in Hn.
  change sizeof_BlockInfo with 16.
  pose proof (wf_rep _ _ _ W) as R.
  destruct (round_request_bounds n Hn) as (Hr1 & Hr16 & Hr2).
  set (r := round_request n) in *.
  assert (Hgoal : exists fl2,
            wf (mm_free st' p) bs (p - 16 :: fl2) /\
            forall f, In f (p - 16 :: fl2) <-> In f fl).
  { destruct (mm_malloc_cases _ _ _ _ _ _ _ W Hn Hm)
      as [(_ & _ & _ & -> & _)
         |(b & s & bs1 & bs2 & l1 & l2 & _ & Ebs & Efl & Hfit & Ep &
           [(Hsplit & _ & W')|(Hexact & _ & W')])].
    - cbn [append heap_size] in Hsz. fold r in Hsz. lia.
    - fold r in Hsplit, W', Hfit. subst p.
      rewrite Ebs, Efl in W.
      pose proof (wf_nadj _ _ _ W) as Hnaf.
      apply naf_app in Hnaf as (_ & N2 & N3). rewrite first_size_cons in N3.
      replace b with (b + 16 - 16) in W' at 1 by lia.
      destruct (mm_free_wf_at _ _ _ _ _ _ W' ltac:(lia))
        as (bsA & z & v1 & flA & v2 & bsB & flB & W2 & PM & NM).
      replace (b + 16 - 16) with b in * by lia.
      destruct PM as [Hk | bs0 y t k1 k2 E0 Ht0 Ek]; [|subst bs1;
        rewrite last_size_snoc in N3; lia].
      destruct NM as [Hk' | c w bs3 k1 k2 E0 Hw0 Ek];
        [rewrite first_size_cons in Hk'; lia|].
      inversion E0; subst c w bs3. clear E0.
      replace (- r + (s + r + 16) - 16) with s in W2 by lia.
      rewrite Ebs, Efl.
      exists (k1 ++ k2). split; [exact W2|].
      pose proof (rep_nodup _ _ _ (wf_rep _ _ _ W')) as Nd0.
      assert (Hni : ~ In (b + 16 + r) (l1 ++ l2))
        by (apply NoDup_cons_iff in Nd0; tauto).
      assert (Nd' : NoDup (k1 ++ b + 16 + r :: k2)) by (rewrite <- Ek; exact Nd0).
      assert (Hmem : forall f, In f (k1 ++ k2) <-> In f (l1 ++ l2)).
      { intros f. rewrite (fl_remove_iff _ _ _ f Nd'), <- Ek. cbn [In].
        split; [intros [[<-|Hin] Hne]; [congruence | exact Hin]|].
        intros Hin; split; [now right|]. intros ->. contradiction. }
      intros f. cbn [In]. rewrite Hmem, in_sides.
      rewrite (in_app_iff l1 l2). intuition congruence.
    - fold r in Hexact, W', Hfit. subst p.
      rewrite Ebs, Efl in W.
      pose proof (wf_nadj _ _ _ W) as Hnaf.
      apply naf_app in Hnaf as (_ & N2 & N3). rewrite first_size_cons in N3.
      apply naf_cons in N2 as [N2 _].
      replace b with (b + 16 - 16) in W' at 1 by lia.
      destruct (mm_free_wf_at _ _ _ _ _ _ W' ltac:(lia))
        as (bsA & z & v1 & flA & v2 & bsB & flB & W2 & PM & NM).
      replace (b + 16 - 16) with b in * by lia.
      destruct PM as [Hk | bs0 y t k1 k2 E0 Ht0 Ek]; [|subst bs1;
        rewrite last_size_snoc in N3; lia].
      destruct NM as [Hk' | c w bs3 k1 k2 E0 Hw0 Ek];
        [|subst bs2; rewrite first_size_cons in N2; lia].
      replace (- - s) with s in W2 by lia.
      rewrite Ebs, Efl.
      exists (l1 ++ l2). split; [exact W2|].
      intros f. cbn [In]. rewrite in_sides, (in_app_iff l1 l2).
      intuition congruence. }
  destruct Hgoal as (fl2 & W2 & Hmem).
  pose proof (wf_rep _ _ _ W2) as R2.
  split; [|split; [|split; [|split]]].
  - intros b. now rewrite (in_chain_iff _ _ _ b R2), (in_chain_iff _ _ _ b R).
  - intros b Hb. destruct (proj1 (in_chain_iff _ _ _ b R) Hb) as (s & Hs).
    destruct (rep_block _ _ _ _ _ R Hs) as (_ & _ & _ & _ & _ & E1).
    destruct (rep_block _ _ _ _ _ R2 Hs) as (_ & _ & _ & _ & _ & E2).
    congruence.
  - intros f.
    now rewrite (in_free_list_iff _ _ _ f R2), (in_free_list_iff _ _ _ f R).
  - apply (dll_hd _ _ _ _ (rep_dll _ _ _ R2)).
  - destruct (mm_free_arena st' p) as (-> & _). exact Hsz.
Qed.

(** ** The payloads of the client are left alone *)

Lemma payload_apart st bs fl y t c :
  rep st bs fl -> In (y, t) bs -> 0 < t -> y + 16 <= c < y + 16 + t ->
  apart c bs /\
  (forall a w, In (a, w) bs -> a <> y -> c < a \/ a + 16 + Z.abs w <= c) /\
  c < mem_heap_lo + heap_size st.
Proof.
  intros R Hy Ht Hc.
  destruct (rep_block _ _ _ _ _ R Hy) as (_ & _ & A3 & _).
  split; [|split; [|lia]].
  - intros a w Ha.
    destruct (rep_block _ _ _ _ _ R Ha) as (_ & _ & _ & B4 & _).
    destruct (chain_sep _ _ _ _ _ _ _ _ _ (rep_chain _ _ _ R) Hy Ha)
      as [[E1 E2]|[E|E]]; repeat split; try lia; intros; lia.
  - intros a w Ha Hne.
    destruct (chain_sep _ _ _ _ _ _ _ _ _ (rep_chain _ _ _ R) Hy Ha)
      as [[E1 E2]|[E|E]]; lia.
Qed.

Lemma apart_free_list st bs fl c g :
  wf st bs fl -> apart c bs -> In g fl -> c <> g + 16 /\ c <> g + 24.
Proof.
  intros W Ha Hg. destruct (proj1 (wf_free _ _ _ W g) Hg) as (w & Hw & Hw0).
  now apply (Ha g w Hw).
Qed.

Lemma first_addr_In bs : first_addr bs <> NULL -> exists w, In (first_addr bs, w) bs.
Proof.
  destruct bs as [|[a w] bs]; [now cbn | intros _; exists w; now left].
Qed.

Lemma hd_nonnull_In (l : list Z) : hd NULL l <> NULL -> In (hd NULL l) l.
Proof. destruct l; [now cbn | intros _; now left]. Qed.

Lemma absorb_frame st a v nx c :
  c <> a -> (nx <> NULL -> c <> nx + 8) -> mem (absorb st a v nx) c = mem st c.
Proof.
  intros H1 H2. unfold absorb.
  destruct (Z.eqb_spec nx NULL); cbn [negb mem with_mem with_tail];
    unfold set_prev, set_size; rewrite ?store_other; auto.
Qed.

Lemma carve_frame st p r sp v nx c :
  c <> sp -> c <> p -> c <> sp + 8 -> (nx <> NULL -> c <> nx + 8) ->
  mem (carve st p r sp v nx) c = mem st c.
Proof.
  intros H1 H2 H3 H4. unfold carve.
  destruct (Z.eqb_spec nx NULL); cbn [negb mem with_mem with_tail];
    unfold set_prev, set_size; rewrite ?store_other; auto.
Qed.

(** [mm_malloc] on a well-formed heap writes to no cell of the payload of
    an allocated block. *)
Lemma mm_malloc_frame st bs fl n fuel st' p y t c :
  wf st bs fl -> 0 < n <= LONG_HALF - 16 ->
  mm_malloc fuel st n = Returns st' p ->
  In (y, t) bs -> 0 < t -> y + 16 <= c < y + 16 + t ->
  mem st' c = mem st c.
Proof.
  intros W Hn Hm Hy Ht Hc. pose proof (wf_rep _ _ _ W) as R.
  destruct (payload_apart _ _ _ _ _ _ R Hy Ht Hc) as (Ha & Hout & Hend).
  destruct (round_request_bounds n Hn) as (Hr1 & Hr16 & Hr2).
  destruct (mm_malloc_cases _ _ _ _ _ _ _ W Hn Hm)
    as [(_ & _ & _ & -> & _)
       |(b & s & bs1 & bs2 & l1 & l2 & _ & Ebs & Efl & Hfit & _ &
         [(Hsplit & -> & _)|(Hexact & -> & _)])].
  - unfold append; cbn [mem]. unfold set_prev, set_size.
    rewrite !store_other by lia. reflexivity.
  - set (r := round_request n) in *.
    assert (Hb : In (b, s) bs) by (rewrite Ebs; apply in_middle).
    destruct (rep_block _ _ _ _ _ R Hb) as (B1 & B2 & B3 & B4 & B5 & B6).
    assert (Hby : b <> y).
    { intros ->. pose proof (rep_unique _ _ _ _ _ _ R Hb Hy). lia. }
    pose proof (Hout b s Hb Hby) as Hb'.
    pose proof (Ha b s Hb) as (Hb1 & _).
    rewrite Efl in R, W.
    pose proof (rep_remove _ _ _ _ _ R) as R1.
    rewrite insertFreeBlock_frame; [| zsolve | asolve | asolve |].
    + rewrite carve_frame; [| asolve | exact Hb1 | asolve |].
      * apply (removeFreeBlock_frame _ _ _ _ _ (rep_dll _ _ _ R)).
        intros g Hg. apply (apart_free_list _ _ _ _ _ W Ha).
        apply in_sides. apply in_app_or in Hg. tauto.
      * intros Hnx. destruct (first_addr_In _ Hnx) as (w & Hw).
        apply (Ha (first_addr bs2) w). rewrite Ebs.
        apply in_sides. right; now right.
    + destruct (carve_arena (removeFreeBlock st b) b r (b + 16 + r)
                  (s + r + 16) (first_addr bs2)) as (_ & _ & ->).
      rewrite (dll_hd _ _ _ _ (rep_dll _ _ _ R1)). intros Hh.
      apply (apart_free_list _ _ _ _ _ W Ha).
      apply in_sides. right. apply in_app_or. apply hd_nonnull_In, Hh.
  - assert (Hb : In (b, s) bs) by (rewrite Ebs; apply in_middle).
    pose proof (Ha b s Hb) as (Hb1 & _).
    rewrite Ebs, Efl in R. rewrite Efl in W.
    pose proof (rep_set_size _ _ _ s _ _ (- s) R ltac:(lia)) as R0.
    rewrite (removeFreeBlock_frame _ _ _ _ _ (rep_dll _ _ _ R0)).
    + cbn [mem with_mem]. unfold set_size. now rewrite store_other.
    + intros g Hg. apply (apart_free_list _ _ _ _ _ W Ha).
      apply in_sides. apply in_app_or in Hg. tauto.
Qed.

Lemma apart_pending st bsA z v bsB fl c g :
  pending st bsA z v bsB fl -> apart c (bsA ++ (z, v) :: bsB) ->
  In g fl -> c <> g + 16 /\ c <> g + 24.
Proof.
  intros P Ha Hg.
  destruct (proj1 (pd_free _ _ _ _ _ _ P g) Hg) as (w & Hw & Hw0).
  apply (Ha g w); [|assumption]. apply in_sides. tauto.
Qed.

Lemma merge_prev_frame st bs1 x v bs2 fl c :
  pending st bs1 x v bs2 fl -> apart c (bs1 ++ (x, v) :: bs2) ->
  mem (fst (merge_prev st x (first_addr bs2) (last_addr NULL bs1))) c = mem st c.
Proof.
  intros P Ha. pose proof (pd_rep _ _ _ _ _ _ P) as R.
  destruct bs1 as [|b0 bs1'] using rev_ind.
  - unfold merge_prev. cbn [last_addr map last].
    cbn [Z.eqb NULL negb andb fst]. reflexivity.
  - clear IHbs1'. destruct b0 as [y t]. rewrite last_addr_snoc.
    assert (Hy : In (y, t) ((bs1' ++ [(y, t)]) ++ (x, v) :: bs2))
      by (apply in_or_app; left; apply in_or_app; right; now left).
    destruct (rep_block _ _ _ _ _ R Hy) as (A1 & A2 & A3 & A4 & A5 & A6).
    unfold merge_prev.
    destruct (Z.eqb_spec y NULL) as [E|_]; [zsolve|]. cbn [negb andb].
    rewrite A6.
    destruct (Z.ltb_spec t 0) as [Ht|Ht]; [|reflexivity].
    assert (Hyfl : In y fl).
    { apply (pd_free _ _ _ _ _ _ P). exists t. split; [|assumption].
      left; apply in_or_app; right; now left. }
    destruct (in_split _ _ Hyfl) as (l1 & l2 & Efl).
    assert (Hrm : mem (removeFreeBlock st y) c = mem st c).
    { rewrite Efl in R.
      apply (removeFreeBlock_frame _ _ _ _ _ (rep_dll _ _ _ R)).
      intros g Hg. apply (apart_pending _ _ _ _ _ _ _ _ P Ha).
      rewrite Efl. apply in_sides. apply in_app_or in Hg. tauto. }
    destruct (Ha y t Hy) as (Hcy & _).
    cbv zeta.
    destruct (Z.eqb_spec (first_addr bs2) NULL) as [En|En];
      cbn [negb fst mem with_mem with_tail]; unfold set_prev, set_size.
    + rewrite store_other by exact Hcy. exact Hrm.
    + destruct (first_addr_In _ En) as (w & Hw).
      assert (Hw' : In (first_addr bs2, w)
                      ((bs1' ++ [(y, t)]) ++ (x, v) :: bs2))
        by (apply in_sides; right; now right).
      destruct (Ha _ _ Hw') as (_ & Hc8 & _).
      rewrite !store_other by assumption. exact Hrm.
Qed.

Lemma merge_next_frame st bsA z v bs2 fl c :
  pending st bsA z v bs2 fl -> apart c (bsA ++ (z, v) :: bs2) ->
  mem (merge_next st z (first_addr bs2)) c = mem st c.
Proof.
  intros P Ha. pose proof (pd_rep _ _ _ _ _ _ P) as R.
  destruct bs2 as [|[c0 w] bs3].
  - unfold merge_next, first_addr. cbn [map hd].
    cbn [Z.eqb NULL negb andb]. reflexivity.
  - unfold first_addr; cbn [map fst hd].
    assert (Hc : In (c0, w) (bsA ++ (z, v) :: (c0, w) :: bs3))
      by (apply in_sides; right; right; now left).
    pose proof (in_middle bsA (z, v) ((c0, w) :: bs3)) as Hz.
    destruct (rep_block _ _ _ _ _ R Hc) as (C1 & C2 & C3 & C4 & C5 & C6).
    destruct (rep_size_long _ _ _ _ _ R Hc) as [L1 L2].
    pose proof (rep_size _ _ _ R) as Hsz. pose proof (rep_brk _ _ _ R) as Hbk.
    unfold merge_next.
    destruct (Z.eqb_spec c0 NULL) as [E|_]; [zsolve|]. cbn [negb andb].
    rewrite C6.
    destruct (Z.ltb_spec w 0) as [Hw|Hw]; [|reflexivity].
    assert (Hcfl : In c0 fl).
    { apply (pd_free _ _ _ _ _ _ P). exists w. split; [|assumption].
      right; now left. }
    destruct (in_split _ _ Hcfl) as (l1 & l2 & Efl).
    assert (Hrm : mem (removeFreeBlock st c0) c = mem st c).
    { rewrite Efl in R.
      apply (removeFreeBlock_frame _ _ _ _ _ (rep_dll _ _ _ R)).
      intros g Hg. apply (apart_pending _ _ _ _ _ _ _ _ P Ha).
      rewrite Efl. apply in_sides. apply in_app_or in Hg. tauto. }
    assert (R1 : rep (removeFreeBlock st c0) (bsA ++ (z, v) :: (c0, w) :: bs3)
                   (l1 ++ l2)).
    { rewrite Efl in R. apply (rep_remove _ _ _ _ _ R). }
    destruct (rep_block _ _ _ _ _ R1 Hc) as (_ & _ & _ & _ & _ & E1).
    assert (Ehs : heap_size (removeFreeBlock st c0) = heap_size st)
      by apply removeFreeBlock_arena.
    destruct (Ha z v Hz) as (Hcz & _).
    cbv zeta.
    match goal with
    | |- context [next_block ?s c0] =>
        assert (Enn : next_block s c0 = first_addr bs3)
    end.
    { assert (Hzc : z + 16 + Z.abs v <= c0)
        by (eapply rep_after; [exact R | now left]).
      rewrite (next_block_eval _ c0 w); cbn [mem heap_size with_mem].
      - rewrite Ehs.
        destruct (rep_split _ _ _ _ _ _ R) as (_ & _ & _ & _ & K).
        cbn [chain] in K. destruct K as (Ec & _ & _ & _ & K).
        rewrite <- Ec in K.
        destruct (chain_first _ _ _ _ _ K) as [Ef _]. rewrite Ef.
        reflexivity.
      - unfold get_size, set_size in *. rewrite store_other by lia. exact E1.
      - zsolve.
      - zsolve.
      - rewrite Ehs; lia.
      - rewrite Ehs; zsolve. }
    rewrite Enn.
    destruct (Z.eqb_spec (first_addr bs3) NULL) as [En|En];
      cbn [negb mem with_mem with_tail]; unfold set_prev, set_size.
    + rewrite store_other by exact Hcz. exact Hrm.
    + destruct (first_addr_In _ En) as (u & Hu).
      assert (Hu' : In (first_addr bs3, u) (bsA ++ (z, v) :: (c0, w) :: bs3))
        by (apply in_sides; right; right; right; exact Hu).
      destruct (Ha _ _ Hu') as (_ & Hc8 & _).
      rewrite !store_other by assumption. exact Hrm.
Qed.

(** [mm_free] of an allocated block of a well-formed heap writes to no
    cell of the payload of another allocated block. *)
Lemma mm_free_frame st bs fl p s y t c :
  wf st bs fl -> In (p - 16, s) bs -> 0 < s ->
  In (y, t) bs -> 0 < t -> y <> p - 16 -> y + 16 <= c < y + 16 + t ->
  mem (mm_free st p) c = mem st c.
Proof.
  intros W Hin Hs Hy Ht Hne Hc. pose proof (wf_rep _ _ _ W) as R.
  destruct (rep_block _ _ _ _ _ R Hin) as (A1 & A2 & A3 & A4 & A5 & A6).
  destruct (rep_size_long _ _ _ _ _ R Hin) as [L1 L2].
  pose proof (rep_size _ _ _ R) as Hsz. pose proof (rep_brk _ _ _ R) as Hbk.
  destruct (payload_apart _ _ _ _ _ _ R Hy Ht Hc) as (Ha & _ & _).
  destruct (Ha _ _ Hin) as (Hcx & _).
  destruct (in_split _ _ Hin) as (bs1 & bs2 & Ebs). rewrite Ebs in *.
  assert (Hy12 : In (y, t) bs1 \/ In (y, t) bs2).
  { apply in_sides in Hy as [E|Hy]; [inversion E; lia | exact Hy]. }
  unfold mm_free.
  destruct (Z.eqb_spec p NULL) as [E|_]; [zsolve|].
  rewrite (to_ulong_id (p - sizeof_BlockInfo)) by zsolve.
  change (p - sizeof_BlockInfo) with (p - 16).
  rewrite A6. rewrite (to_long_id (- s)) by zsolve.
  set (st0 := with_mem st (set_size (mem st) (p - 16) (- s))).
  assert (E0c : mem st0 c = mem st c).
  { unfold st0; cbn [mem with_mem]. unfold set_size. now rewrite store_other. }
  assert (R0 : rep st0 (bs1 ++ (p - 16, - s) :: bs2) fl)
    by (apply (rep_set_size _ _ _ s); [exact R | lia]).
  pose proof (wf_nadj _ _ _ W) as Hnaf.
  apply naf_app in Hnaf as (N1 & N2 & _). apply naf_cons in N2 as [_ N2].
  assert (P0 : pending st0 bs1 (p - 16) (- s) bs2 fl).
  { constructor; auto; [lia | |].
    - intros Hfl. apply (wf_free _ _ _ W) in Hfl as (w & Hw & Hw0).
      pose proof (rep_unique _ _ _ _ _ _ R Hw Hin). lia.
    - intros a. rewrite (wf_free _ _ _ W a). split.
      + intros (w & Hw & Hw0). exists w; split; [|assumption].
        apply in_sides in Hw as [E|Hw]; [inversion E; lia | assumption].
      + intros (w & Hw & Hw0). exists w; split; [|assumption].
        apply in_sides. now right. }
  rewrite coalesce_steps.
  pose proof (in_middle bs1 (p - 16, - s) bs2) as Hin0.
  destruct (rep_block _ _ _ _ _ R0 Hin0) as (_ & _ & _ & _ & _ & E0).
  destruct (Z.eqb_spec (p - 16) NULL) as [E|_]; [zsolve|].
  rewrite E0. destruct (Z.leb_spec 0 (- s)) as [|_]; [lia|].
  cbn [orb]. cbv zeta.
  rewrite (next_block_rep _ _ _ _ _ _ R0).
  destruct (rep_split _ _ _ _ _ _ R0) as (_ & _ & Ep & _). rewrite Ep.
  assert (Ha0 : apart c (bs1 ++ (p - 16, - s) :: bs2)).
  { apply (payload_apart st0 _ fl y t c R0); auto.
    apply in_sides. now right. }
  pose proof (merge_prev_frame _ _ _ _ _ _ c P0 Ha0) as F1.
  destruct (merge_prev_pending _ _ _ _ _ _ P0)
    as (bsA & z & v1 & flA & Em & PM & P1 & HA).
  rewrite Em in *. cbn [fst snd] in *.
  set (st1 := fst (merge_prev st0 (p - 16) (first_addr bs2) (last_addr NULL bs1))) in *.
  destruct (prev_merge_alloc _ _ _ _ _ _ _ _ PM ltac:(lia)) as [Hv1 HA1].
  assert (Ha1 : apart c (bsA ++ (z, v1) :: bs2)).
  { apply (payload_apart st1 _ flA y t c (pd_rep _ _ _ _ _ _ P1)); auto.
    apply in_sides. right.
    destruct Hy12 as [Hy1|Hy2]; [left; now apply HA1 | now right]. }
  pose proof (merge_next_frame _ _ _ _ _ _ c P1 Ha1) as F2.
  destruct (merge_next_pending _ _ _ _ _ _ P1) as (v2 & bsB & flB & NM & P2 & HB).
  destruct (next_merge_alloc _ _ _ _ _ _ NM Hv1) as [Hv2 HB1].
  set (st2 := merge_next st1 z (first_addr bs2)) in *.
  pose proof (pd_rep _ _ _ _ _ _ P2) as R2.
  assert (Ha2 : apart c (bsA ++ (z, v2) :: bsB)).
  { apply (payload_apart st2 _ flB y t c R2); auto.
    apply in_sides. right.
    destruct Hy12 as [Hy1|Hy2]; [left; now apply HA1 | right; now apply HB1]. }
  destruct (Ha2 z v2 (in_middle _ _ _)) as (_ & _ & Hz).
  destruct (Hz Hv2) as (Hz16 & Hz24).
  destruct (rep_block _ _ _ _ _ R2 (in_middle bsA (z, v2) bsB)) as (_ & Z2 & _).
  rewrite insertFreeBlock_frame; [congruence | zsolve | assumption | assumption |].
  rewrite (dll_hd _ _ _ _ (rep_dll _ _ _ R2)). intros Hh.
  apply (apart_pending _ _ _ _ _ _ _ _ P2 Ha2). apply hd_nonnull_In, Hh.
Qed.

(** A cell outside the heap is neither a header cell nor a link cell. *)
Lemma outside_apart st bs fl c :
  rep st bs fl -> c < mem_heap_lo \/ mem_heap_lo + heap_size st <= c ->
  apart c bs.
Proof.
  intros R Hc a w Ha.
  destruct (rep_block _ _ _ _ _ R Ha) as (_ & A2 & A3 & A4 & _).
  repeat split; try lia; intros; lia.
Qed.

(** [mm_free] of an allocated block of a well-formed heap writes to no
    cell outside the heap. *)
Lemma mm_free_frame_outside st bs fl p s c :
  wf st bs fl -> In (p - 16, s) bs -> 0 < s ->
  c < mem_heap_lo \/ mem_heap_lo + heap_size st <= c ->
  mem (mm_free st p) c = mem st c.
Proof.
  intros W Hin Hs Hc. pose proof (wf_rep _ _ _ W) as R.
  destruct (rep_block _ _ _ _ _ R Hin) as (A1 & A2 & A3 & A4 & A5 & A6).
  destruct (rep_size_long _ _ _ _ _ R Hin) as [L1 L2].
  pose proof (rep_size _ _ _ R) as Hsz. pose proof (rep_brk _ _ _ R) as Hbk.
  pose proof (outside_apart _ _ _ c R Hc) as Ha.
  destruct (Ha _ _ Hin) as (Hcx & _).
  destruct (in_split _ _ Hin) as (bs1 & bs2 & Ebs). rewrite Ebs in *.
  unfold mm_free.
  destruct (Z.eqb_spec p NULL) as [E|_]; [zsolve|].
  rewrite (to_ulong_id (p - sizeof_BlockInfo)) by zsolve.
  change (p - sizeof_BlockInfo) with (p - 16).
  rewrite A6. rewrite (to_long_id (- s)) by zsolve.
  set (st0 := with_mem st (set_size (mem st) (p - 16) (- s))).
  assert (E0c : mem st0 c = mem st c).
  { unfold st0; cbn [mem with_mem]. unfold set_size. now rewrite store_other. }
  assert (R0 : rep st0 (bs1 ++ (p - 16, - s) :: bs2) fl)
    by (apply (rep_set_size _ _ _ s); [exact R | lia]).
  pose proof (wf_nadj _ _ _ W) as Hnaf.
  apply naf_app in Hnaf as (N1 & N2 & _). apply naf_cons in N2 as [_ N2].
  assert (P0 : pending st0 bs1 (p - 16) (- s) bs2 fl).
  { constructor; auto; [lia | |].
    - intros Hfl. apply (wf_free _ _ _ W) in Hfl as (w & Hw & Hw0).
      pose proof (rep_unique _ _ _ _ _ _ R Hw Hin). lia.
    - intros a. rewrite (wf_free _ _ _ W a). split.
      + intros (w & Hw & Hw0). exists w; split; [|assumption].
        apply in_sides in Hw as [E|Hw]; [inversion E; lia | assumption].
      + intros (w & Hw & Hw0). exists w; split; [|assumption].
        apply in_sides. now right. }
  rewrite coalesce_steps.
  pose proof (in_middle bs1 (p - 16, - s) bs2) as Hin0.
  destruct (rep_block _ _ _ _ _ R0 Hin0) as (_ & _ & _ & _ & _ & E0).
  destruct (Z.eqb_spec (p - 16) NULL) as [E|_]; [zsolve|].
  rewrite E0. destruct (Z.leb_spec 0 (- s)) as [|_]; [lia|].
  cbn [orb]. cbv zeta.
  rewrite (next_block_rep _ _ _ _ _ _ R0).
  destruct (rep_split _ _ _ _ _ _ R0) as (_ & _ & Ep & _). rewrite Ep.
  assert (Ha0 : apart c (bs1 ++ (p - 16, - s) :: bs2))
    by (apply (outside_apart st0 _ fl c R0); exact Hc).
  pose proof (merge_prev_frame _ _ _ _ _ _ c P0 Ha0) as F1.
  destruct (merge_prev_pending _ _ _ _ _ _ P0)
    as (bsA & z & v1 & flA & Em & PM & P1 & HA).
  rewrite Em in *. cbn [fst snd] in *.
  set (st1 := fst (merge_prev st0 (p - 16) (first_addr bs2) (last_addr NULL bs1))) in *.
  destruct (prev_merge_alloc _ _ _ _ _ _ _ _ PM ltac:(lia)) as [Hv1 HA1].
  assert (Eh1 : heap_size st1 = heap_size st)
    by (unfold st1; now destruct (merge_prev_arena st0 (p - 16)
          (first_addr bs2) (last_addr NULL bs1)) as (-> & _)).
  assert (Ha1 : apart c (bsA ++ (z, v1) :: bs2)).
  { apply (outside_apart st1 _ flA c (pd_rep _ _ _ _ _ _ P1)).
    rewrite Eh1. exact Hc. }
  pose proof (merge_next_frame _ _ _ _ _ _ c P1 Ha1) as F2.
  destruct (merge_next_pending _ _ _ _ _ _ P1) as (v2 & bsB & flB & NM & P2 & HB).
  destruct (next_merge_alloc _ _ _ _ _ _ NM Hv1) as [Hv2 HB1].
  set (st2 := merge_next st1 z (first_addr bs2)) in *.
  pose proof (pd_rep _ _ _ _ _ _ P2) as R2.
  assert (Ha2 : apart c (bsA ++ (z, v2) :: bsB)).
  { apply (outside_apart st2 _ flB c R2).
    unfold st2. destruct (merge_next_arena st1 z (first_addr bs2)) as (-> & _).
    rewrite Eh1. exact Hc. }
  destruct (Ha2 z v2 (in_middle _ _ _)) as (_ & _ & Hz).
  destruct (Hz Hv2) as (Hz16 & Hz24).
  destruct (rep_block _ _ _ _ _ R2 (in_middle bsA (z, v2) bsB)) as (_ & Z2 & _).
  rewrite insertFreeBlock_frame; [congruence | zsolve | assumption | assumption |].
  rewrite (dll_hd _ _ _ _ (rep_dll _ _ _ R2)). intros Hh.
  apply (apart_pending _ _ _ _ _ _ _ _ P2 Ha2). apply hd_nonnull_In, Hh.
Qed.

(** X11: [mm_free] of a pointer the client holds stays inside the heap: it
    writes to no memory cell below the start of the arena or at or beyond
    the end of the heap, and it calls no arena primitive, so that the
    heap size and the break are as before. *)
Theorem free_stays_inside_heap (st : State) (live : list Z) (p c : Z) :
  reachable MAX_REQUEST st live -> In p live ->
  c + 8 <= mem_heap_lo \/ mem_heap_lo + heap_size st <= c ->
  mem (mm_free st p) c = mem st c /\
  heap_size (mm_free st p) = heap_size st /\
  mem_brk (mm_free st p) = mem_brk st.
Proof.
  intros H Hp Hc.
  destruct (reachable_wf _ _ H) as (bs & fl & W & L).
  destruct (proj1 (L p) Hp) as (s & Hs & Hs0).
  split; [|apply mm_free_arena].
  apply (mm_free_frame_outside st bs fl p s c W Hs Hs0). lia.
Qed.

Lemma free_step_keeps bs fl p bs' fl' y t :
  free_step bs fl p bs' fl' -> 0 < t -> y <> p - 16 ->
  In (y, t) bs -> In (y, t) bs'.
Proof.
  intros Hstep Ht Hne Hy.
  destruct Hstep as [bs1 s1 bs2 bsA z v1 flA v2 bsB flB Ebs Hs1 PM NM].
  destruct (prev_merge_alloc _ _ _ _ _ _ _ _ PM ltac:(lia)) as [Hv1 HA].
  destruct (next_merge_alloc _ _ _ _ _ _ NM Hv1) as [Hv2 HB].
  rewrite Ebs in Hy. apply in_sides in Hy as [E|Hy]; [inversion E; lia|].
  apply in_sides. right.
  destruct Hy as [Hy|Hy]; [left; now apply HA | right; now apply HB].
Qed.

(** X17: [mm_malloc] leaves the data of the client alone: no cell of a
    payload the client holds is written by the call. *)
Theorem malloc_preserves_live_payloads
  (st : State) (live : list Z) (n : Z) (fuel : nat) (st' : State) (p q c : Z) :
  reachable MAX_REQUEST st live -> 0 <= n <= MAX_REQUEST ->
  mm_malloc fuel st n = Returns st' p ->
  In q live ->
  q <= c < q + get_size (mem st) (q - sizeof_BlockInfo) ->
  mem st' c = mem st c.
Proof.
  intros H Hn Hm Hq Hc. unfold MAX_REQUEST in Hn.
  change sizeof_BlockInfo with 16 in Hc.
  destruct (Z.eq_dec n 0) as [->|Hn0].
  { unfold mm_malloc in Hm. cbn [Z.eqb] in Hm. now inversion Hm. }
  destruct (reachable_wf _ _ H) as (bs & fl & W & L).
  destruct (proj1 (L q) Hq) as (t & Ht & Ht0).
  destruct (rep_block _ _ _ _ _ (wf_rep _ _ _ W) Ht) as (_ & _ & _ & _ & _ & E).
  rewrite E in Hc.
  apply (mm_malloc_frame st bs fl n fuel st' p (q - 16) t c W); auto; lia.
Qed.

(** X18: [mm_free] leaves the data of the client alone: the call writes to
    no cell of the payload of another pointer the client holds, and the
    block of that pointer keeps its size. *)
Theorem free_preserves_live_payloads
  (st : State) (live : list Z) (p q c : Z) :
  reachable MAX_REQUEST st live -> In p live -> In q live -> q <> p ->
  q <= c < q + get_size (mem st) (q - sizeof_BlockInfo) ->
  mem (mm_free st p) c = mem st c /\
  get_size (mem (mm_free st p)) (q - sizeof_BlockInfo) =
  get_size (mem st) (q - sizeof_BlockInfo).
Proof.
  intros H Hp Hq Hne Hc. change sizeof_BlockInfo with 16 in *.
  destruct (reachable_wf _ _ H) as (bs & fl & W & L).
  pose proof (wf_rep _ _ _ W) as R.
  destruct (proj1 (L p) Hp) as (s & Hs & Hs0).
  destruct (proj1 (L q) Hq) as (t & Ht & Ht0).
  destruct (rep_block _ _ _ _ _ R Ht) as (_ & _ & _ & _ & _ & E).
  rewrite E in *. split.
  - apply (mm_free_frame st bs fl p s (q - 16) t c W); auto; lia.
  - destruct (mm_free_wf _ _ _ _ _ W Hs Hs0) as (bs' & fl' & W' & Hstep).
    assert (Ht' : In (q - 16, t) bs')
      by (apply (free_step_keeps _ _ _ _ _ _ _ Hstep); auto; lia).
    apply (rep_block _ _ _ _ _ (wf_rep _ _ _ W') Ht').
Qed.

(** ** The consistency checker *)

Lemma check_chain_eq fuel st curr last fc :
  check_chain fuel st curr last fc =
  if negb (curr =? NULL) && (curr <? to_ulong (mem_heap_lo + heap_size st))
  then
    match fuel with
    | O => None
    | S fuel' =>
        match check_chain fuel' st (next_block st curr) curr
                (if get_size (mem st) curr <=? 0 then to_long (fc + 1) else fc)
        with
        | None => None
        | Some (es, n) =>
            Some ((if negb (get_prev (mem st) curr =? last)
                   then [PrevLinkNotCorrect] else []) ++ es, n)
        end
    end
  else Some ([], fc).
Proof. destruct fuel; reflexivity. Qed.

Lemma count_free_cons a s bs :
  count_free ((a, s) :: bs) = (if s <=? 0 then 1 else 0) + count_free bs.
Proof.
  unfold count_free. cbn [filter snd].
  destruct (s <=? 0); cbn [length]; lia.
Qed.

Lemma chain_length m p a bs e :
  chain m p a bs e -> a + 32 * Z.of_nat (length bs) <= e.
Proof.
  revert p a; induction bs as [|[x s] bs IH]; cbn [chain length]; intros p a H.
  - lia.
  - destruct H as (_ & _ & _ & Hv & H). apply IH in H.
    apply valid_size_abs in Hv. zsolve.
Qed.

(** The walk along the chain of a well-formed heap prints nothing and
    counts the blocks of non-positive size. *)
Lemma check_chain_rep st fl bsS : forall bsP fuel fc,
  rep st (bsP ++ bsS) fl -> (length bsS <= fuel)%nat ->
  0 <= fc -> fc + Z.of_nat (length bsS) < LONG_HALF ->
  check_chain fuel st (first_addr bsS) (last_addr NULL bsP) fc =
  Some ([], fc + count_free bsS).
Proof.
  induction bsS as [|[a s] rest IH]; intros bsP fuel fc R Hlen Hfc Hb.
  - rewrite check_chain_eq. cbn [first_addr map hd Z.eqb NULL negb andb].
    unfold count_free; cbn. now rewrite Z.add_0_r.
  - rewrite check_chain_eq. rewrite first_addr_cons.
    destruct (rep_block _ _ _ _ _ R (in_middle bsP (a, s) rest))
      as (A1 & A2 & A3 & A4 & A5 & A6).
    pose proof (rep_size _ _ _ R) as Hsz. pose proof (rep_brk _ _ _ R) as Hbk.
    rewrite (to_ulong_id (mem_heap_lo + heap_size st)) by zsolve.
    destruct (Z.eqb_spec a NULL) as [E|_]; [zsolve|].
    destruct (Z.ltb_spec a (mem_heap_lo + heap_size st)) as [_|]; [|lia].
    cbn [negb andb].
    destruct fuel as [|fuel]; [cbn [length] in Hlen; lia|].
    destruct (rep_split _ _ _ _ _ _ R) as (_ & _ & Ep & _).
    rewrite Ep, Z.eqb_refl. cbn [negb app].
    rewrite (next_block_rep _ _ _ _ _ _ R), A6.
    assert (R' : rep st ((bsP ++ [(a, s)]) ++ rest) fl)
      by (rewrite <- app_assoc; exact R).
    cbn [length] in Hlen, Hb.
    rewrite count_free_cons.
    destruct (Z.leb_spec s 0).
    + rewrite (to_long_id (fc + 1)) by zsolve.
      pose proof (IH _ fuel (fc + 1) R') as K.
      rewrite last_addr_snoc in K. rewrite K by lia. f_equal. f_equal. lia.
    + pose proof (IH _ fuel fc R') as K.
      rewrite last_addr_snoc in K. rewrite K by lia. f_equal.
Qed.

(** The walk along a free list that visits each member once prints
    nothing when [free_count] is at least the length of the list. *)
Lemma check_free_list_dll m fl : forall fuel pv h fc,
  dll m pv h fl -> NoDup fl -> ~ In pv fl ->
  (length fl <= fuel)%nat -> Z.of_nat (length fl) <= fc < LONG_HALF ->
  check_free_list fuel m h pv fc = Some [].
Proof.
  induction fl as [|f rest IH]; intros fuel pv h fc D N Hpv Hlen Hfc.
  - cbn [dll] in D. subst h. destruct fuel; reflexivity.
  - cbn [dll] in D. destruct D as (-> & Hf & _ & D).
    cbn [length] in Hlen, Hfc.
    destruct fuel as [|fuel]; [lia|].
    cbn [check_free_list].
    destruct (Z.eqb_spec f NULL) as [|_]; [contradiction|].
    destruct (Z.eqb_spec f pv) as [E|_]; [exfalso; apply Hpv; now left|].
    destruct (Z.eqb_spec fc 0) as [E|_]; [lia|].
    apply NoDup_cons_iff in N as [N1 N2].
    rewrite (to_long_id (fc - 1)) by zsolve.
    rewrite (IH fuel f (get_nextFree m f) (fc - 1)); auto; lia.
Qed.

Lemma free_list_length st bs fl :
  wf st bs fl -> Z.of_nat (length fl) <= count_free bs.
Proof.
  intros W. unfold count_free.
  rewrite <- (length_map fst (filter (fun b => snd b <=? 0) bs)).
  apply inj_le, NoDup_incl_length; [apply (rep_nodup _ _ _ (wf_rep _ _ _ W))|].
  intros a Ha. destruct (proj1 (wf_free _ _ _ W a) Ha) as (s & Hs & Hs0).
  apply in_map_iff. exists (a, s). split; [reflexivity|].
  apply filter_In. split; [exact Hs|]. cbn [snd]. apply Z.leb_le. lia.
Qed.

Lemma count_free_le bs : 0 <= count_free bs <= Z.of_nat (length bs).
Proof.
  unfold count_free. split; [lia|]. apply inj_le, filter_length_le.
Qed.

(** X19: On a well-formed heap [check_heap] finishes, prints no message
    and returns 0. *)
Theorem check_heap_silent (st : State) :
  heap_ok st ->
  exists fuel, forall fuel', (fuel <= fuel')%nat ->
    check_heap fuel' st = Some ([], 0).
Proof.
  intros (bs & fl & W). pose proof (wf_rep _ _ _ W) as R.
  pose proof (rep_size _ _ _ R) as Hsz. pose proof (rep_brk _ _ _ R) as Hbk.
  pose proof (chain_length _ _ _ _ _ (rep_chain _ _ _ R)) as Hlen.
  pose proof (free_list_length _ _ _ W) as Hfl.
  pose proof (count_free_le bs) as Hcf.
  exists (Nat.max (length bs) (length fl)). intros fuel Hf.
  unfold check_heap.
  assert (E : check_chain fuel st mem_heap_lo NULL 0 = Some ([], count_free bs)).
  { destruct bs as [|[a s] bs'] eqn:Ebs.
    - pose proof (rep_chain _ _ _ R) as C. cbn [chain] in C.
      rewrite check_chain_eq.
      rewrite (to_ulong_id (mem_heap_lo + heap_size st)) by zsolve.
      destruct (Z.ltb_spec mem_heap_lo (mem_heap_lo + heap_size st)); [lia|].
      now rewrite andb_false_r.
    - pose proof (rep_chain _ _ _ R) as C. cbn [chain] in C.
      destruct C as (Ea & _). subst a.
      pose proof (check_chain_rep st fl ((mem_heap_lo, s) :: bs') [] fuel 0 R)
        as K.
      rewrite first_addr_cons in K. cbn [last_addr map last] in K.
      rewrite K by (cbn [length] in *; zsolve). reflexivity. }
  rewrite E.
  rewrite (check_free_list_dll (mem st) fl fuel NULL (free_list_head st)).
  - reflexivity.
  - apply (rep_dll _ _ _ R).
  - apply (rep_nodup _ _ _ R).
  - intros Hin. now apply (dll_nonnull _ _ _ _ _ (rep_dll _ _ _ R) Hin).
  - lia.
  - zsolve.
Qed.

Lemma next_block_bound st b :
  next_block st b <> NULL ->
  next_block st b < to_ulong (mem_heap_lo + heap_size st).
Proof.
  unfold next_block. cbv zeta.
  match goal with |- context [if ?a <=? ?b then _ else _] =>
    destruct (Z.leb_spec a b) end; [congruence | intros _; assumption].
Qed.

Lemma check_chain_step fuel st b last fc es' n es :
  check_chain fuel st b last fc = Some (es', n) ->
  (forall e, In e es' -> In e es) -> ~ In PrevLinkNotCorrect es ->
  b <> NULL -> b < to_ulong (mem_heap_lo + heap_size st) ->
  get_prev (mem st) b = last /\
  exists fuel' fc' es'',
    check_chain fuel' st (next_block st b) b fc' = Some (es'', n) /\
    (forall e, In e es'' -> In e es).
Proof.
  intros H Hsub Hno Hb Hlt. rewrite check_chain_eq in H.
  destruct (Z.eqb_spec b NULL) as [|_]; [contradiction|].
  destruct (Z.ltb_spec b (to_ulong (mem_heap_lo + heap_size st))) as [_|]; [|lia].
  cbn [negb andb] in H.
  destruct fuel as [|fuel]; [discriminate|].
  destruct (check_chain fuel st (next_block st b) b _) as [[es2 n2]|] eqn:E;
    [|discriminate].
  inversion H; subst es' n. clear H.
  split.
  - destruct (Z.eqb_spec (get_prev (mem st) b) last) as [|Hne]; [assumption|].
    exfalso. apply Hno, Hsub. now left.
  - do 3 eexists. split; [exact E|].
    intros e He. apply Hsub, in_or_app. now right.
Qed.

Lemma check_free_list_messages m : forall fuel curr last fc es,
  check_free_list fuel m curr last fc = Some es -> ~ In PrevLinkNotCorrect es.
Proof.
  induction fuel as [|fuel IH]; intros curr last fc es; cbn [check_free_list].
  - destruct (curr =? NULL); [|discriminate].
    intros E; inversion E. intros [].
  - destruct (curr =? NULL); [intros E; inversion E; intros []|].
    destruct (check_free_list fuel m _ _ _) as [es2|] eqn:E2; [|discriminate].
    intros E; inversion E. intros Hin.
    apply in_app_or in Hin as [Hin|Hin];
      [destruct (curr =? last); [destruct Hin as [|[]]; discriminate | destruct Hin]|].
    apply in_app_or in Hin as [Hin|Hin];
      [destruct (fc =? 0); [destruct Hin as [|[]]; discriminate | destruct Hin]|].
    apply (IH _ _ _ _ E2 Hin).
Qed.

Lemma check_chain_complete st : forall fuel b last fc es n,
  (forall c, in_chain st c -> next_block st c <> NULL ->
     get_prev (mem st) (next_block st c) = c) ->
  check_chain fuel st b last fc = Some (es, n) ->
  (b <> NULL -> b < to_ulong (mem_heap_lo + heap_size st) ->
   in_chain st b /\ get_prev (mem st) b = last) ->
  ~ In PrevLinkNotCorrect es.
Proof.
  induction fuel as [|fuel IH]; intros b last fc es n Hok H Hb;
    rewrite check_chain_eq in H.
  - match type of H with (if ?c then _ else _) = _ => destruct c end;
      [discriminate|]. inversion H. intros [].
  - destruct (Z.eqb_spec b NULL) as [|Hnn];
      [cbn [negb andb] in H; inversion H; intros []|].
    destruct (Z.ltb_spec b (to_ulong (mem_heap_lo + heap_size st))) as [Hlt|];
      [|cbn [negb andb] in H; inversion H; intros []].
    cbn [negb andb] in H.
    destruct (Hb Hnn Hlt) as (Hin & Hp).
    destruct (check_chain fuel st (next_block st b) b _) as [[es2 n2]|] eqn:E;
      [|discriminate].
    inversion H; subst es n. clear H.
    rewrite Hp, Z.eqb_refl. cbn [negb app].
    apply (IH _ _ _ _ _ Hok E). intros Hn _.
    split; [now apply in_chain_next | now apply Hok].
Qed.

(** X20: [check_heap] always returns 0, and it prints that a previous link
    is not correct exactly when, on its walk from the start of the arena
    by [next_block], some block does not point back to the block before
    it. *)
Theorem check_heap_prev_links
  (st : State) (fuel : nat) (es : list heap_error) (r : Z) :
  0 <= heap_size st -> mem_heap_lo + heap_size st < ULONG_MOD ->
  check_heap fuel st = Some (es, r) ->
  r = 0 /\
  (~ In PrevLinkNotCorrect es <->
   (first_block st <> NULL -> get_prev (mem st) (first_block st) = NULL) /\
   forall b, in_chain st b -> next_block st b <> NULL ->
     get_prev (mem st) (next_block st b) = b).
Proof.
  intros Hsz Hwrap H. unfold check_heap in H.
  destruct (check_chain fuel st mem_heap_lo NULL 0) as [[es1 fc]|] eqn:E1;
    [|discriminate].
  destruct (check_free_list fuel (mem st) (free_list_head st) NULL fc)
    as [es2|] eqn:E2; [|discriminate].
  inversion H; subst es r. clear H. split; [reflexivity|].
  assert (Hend : to_ulong (mem_heap_lo + heap_size st) = mem_heap_lo + heap_size st)
    by (apply to_ulong_id; lia).
  assert (Hfirst : first_block st <> NULL ->
                   first_block st = mem_heap_lo /\
                   mem_heap_lo < to_ulong (mem_heap_lo + heap_size st)).
  { unfold first_block. destruct (Z.eqb_spec (heap_size st) 0); [congruence|].
    intros _. split; [reflexivity | lia]. }
  split.
  - intros Hno.
    assert (Hno1 : forall e, In e es1 -> In e (es1 ++ es2))
      by (intros e He; apply in_or_app; now left).
    assert (Q : forall b, in_chain st b ->
              b <> NULL /\ b < to_ulong (mem_heap_lo + heap_size st) /\
              exists fuel' last fc' es' n,
                check_chain fuel' st b last fc' = Some (es', n) /\
                (forall e, In e es' -> In e (es1 ++ es2))).
    { induction 1 as [Hf|b Hb IH Hn].
      - destruct (Hfirst Hf) as (-> & Hlt).
        split; [zsolve|]. split; [exact Hlt|]. do 5 eexists. eauto.
      - destruct IH as (Hnn & Hlt & fuel' & last & fc' & es' & n & E & Hsub).
        split; [exact Hn|]. split; [now apply next_block_bound|].
        destruct (check_chain_step _ _ _ _ _ _ _ _ E Hsub Hno Hnn Hlt)
          as (_ & fuel2 & fc2 & es2' & E' & Hsub').
        do 5 eexists. eauto. }
    split.
    + intros Hf. destruct (Hfirst Hf) as (-> & Hlt).
      apply (check_chain_step _ _ _ _ _ _ _ _ E1 Hno1 Hno); [zsolve | exact Hlt].
    + intros b Hb Hn.
      destruct (Q b Hb) as (Hnn & Hlt & fuel' & last & fc' & es' & n & E & Hsub).
      destruct (check_chain_step _ _ _ _ _ _ _ _ E Hsub Hno Hnn Hlt)
        as (_ & fuel2 & fc2 & es2' & E' & Hsub').
      apply (check_chain_step _ _ _ _ _ _ _ _ E' Hsub' Hno Hn).
      now apply next_block_bound.
  - intros (Hf & Hok) Hin. apply in_app_or in Hin as [Hin|Hin].
    + revert Hin. apply (check_chain_complete st _ _ _ _ _ _ Hok E1).
      intros _ Hlt.
      assert (Hfb : first_block st = mem_heap_lo).
      { unfold first_block. destruct (Z.eqb_spec (heap_size st) 0); [lia|].
        reflexivity. }
      assert (Hfn : first_block st <> NULL) by (rewrite Hfb; zsolve).
      split; [|rewrite <- Hfb; now apply Hf].
      pose proof (in_chain_first st Hfn) as K. now rewrite Hfb in K.
    + revert Hin. apply (check_free_list_messages _ _ _ _ _ _ E2).
Qed.

(** ** The scan of the free list *)

Lemma search_loop_first m checkSize fl : forall fuel pv h r,
  dll m pv h fl -> search_loop fuel m h checkSize = Some r -> r <> NULL ->
  exists l1 l2, fl = l1 ++ r :: l2 /\ get_size m r <= checkSize /\
                forall f, In f l1 -> checkSize < get_size m f.
Proof.
  induction fl as [|f rest IH]; intros fuel pv h r D H Hr.
  - cbn [dll] in D. subst h. destruct fuel; cbn in H; congruence.
  - cbn [dll] in D. destruct D as (-> & Hf & _ & D).
    destruct fuel as [|fuel]; cbn [search_loop] in H;
      destruct (Z.eqb_spec f NULL) as [|_]; try contradiction;
      [discriminate|].
    destruct (Z.leb_spec (get_size m f) checkSize) as [Hle|Hgt].
    + inversion H; subst r. exists [], rest. split; [reflexivity|].
      split; [exact Hle | intros g []].
    + destruct (IH _ _ _ _ D H Hr) as (l1 & l2 & -> & Hle & Hl1).
      exists (f :: l1), l2. split; [reflexivity|]. split; [exact Hle|].
      intros g [<-|Hg]; auto.
Qed.

(** X21: Unless the chain tail is free and large enough, the fit search is
    first-fit in the order of the free list: every member before the block
    it returns is too small. *)
Theorem scan_returns_first_fit (st : State) (reqSize : Z) (fuel : nat) (b : Z) :
  heap_ok st -> 0 <= reqSize <= LONG_HALF ->
  ~ (malloc_list_tail st <> NULL /\
     reqSize <= - get_size (mem st) (malloc_list_tail st)) ->
  searchFreeList fuel st reqSize = Some b -> b <> NULL ->
  exists l1 l2,
    dll (mem st) NULL (free_list_head st) (l1 ++ b :: l2) /\
    reqSize <= - get_size (mem st) b /\
    forall f, In f l1 -> - get_size (mem st) f < reqSize.
Proof.
  intros (bs & fl & W) Hr Htail H Hb. pose proof (wf_rep _ _ _ W) as R.
  unfold searchFreeList in H. cbv zeta in H.
  replace (to_long (to_ulong (- reqSize))) with (- reqSize) in H by wrap_lia.
  assert (Hscan : search_loop fuel (mem st) (free_list_head st) (- reqSize)
                  = Some b).
  { destruct (Z.eqb_spec (malloc_list_tail st) NULL) as [Et|Et];
      cbn [negb andb] in H; [exact H|].
    destruct (Z.leb_spec (get_size (mem st) (malloc_list_tail st)) (- reqSize));
      [|exact H].
    exfalso. apply Htail. split; [exact Et | lia]. }
  destruct (search_loop_first _ _ _ _ _ _ _ (rep_dll _ _ _ R) Hscan Hb)
    as (l1 & l2 & E & Hle & Hl1).
  exists l1, l2. rewrite <- E. split; [apply (rep_dll _ _ _ R)|].
  split; [lia|]. intros f Hf. specialize (Hl1 f Hf). lia.
Qed.

(** ** A heap that holds one free block *)

(** When the heap is a single free block of capacity [c], a request of at
    most [c] bytes is served by that block and the arena stays as it is;
    a larger request extends the arena by one header and the rounded
    size, the new block starting at the old end of the heap, or the call
    exits when the arena cannot take that much. *)
Lemma one_free_block_requests st c n fuel :
  wf st [(mem_heap_lo, - c)] [mem_heap_lo] -> 0 < c ->
  (1 <= fuel)%nat -> 0 < n <= MAX_REQUEST ->
  (n <= c ->
   exists st', mm_malloc fuel st n = Returns st' (mem_heap_lo + 16) /\
               heap_size st' = heap_size st /\ mem_brk st' = mem_brk st) /\
  (c < n ->
   (mem_brk st + (16 + round_request n) <= MAX_HEAP ->
    exists st',
      mm_malloc fuel st n = Returns st' (mem_heap_lo + heap_size st + 16) /\
      heap_size st' = heap_size st + (16 + round_request n) /\
      mem_brk st' = mem_brk st + (16 + round_request n)) /\
   (MAX_HEAP < mem_brk st + (16 + round_request n) ->
    mm_malloc fuel st n = Exits)).
Proof.
  intros W Hc Hfuel Hn. unfold MAX_REQUEST in Hn.
  pose proof (wf_rep _ _ _ W) as R.
  destruct (rep_block _ _ _ _ _ R (or_introl eq_refl))
    as (_ & _ & _ & _ & C5 & _).
  replace (Z.abs (- c)) with c in C5 by lia.
  destruct (round_request_bounds n Hn) as (Hr1 & Hr16 & Hr2).
  set (r := round_request n) in *.
  assert (Hone : forall b s bs1 bs2,
            [(mem_heap_lo, - c)] = bs1 ++ (b, s) :: bs2 ->
            b = mem_heap_lo /\ s = - c).
  { intros b s bs1 bs2 E.
    assert (Hin : In (b, s) [(mem_heap_lo, - c)])
      by (rewrite E; apply in_middle).
    destruct Hin as [E'|[]]. inversion E'. auto. }
  destruct (mm_malloc_wf st _ _ n fuel W Hn Hfuel)
    as [(E & Hex & Hno)|(st' & p & bs' & fl' & E & W' & Hstep)].
  - specialize (Hno _ _ (or_introl eq_refl)). fold r in Hno, Hex.
    split; [intros Hle; exfalso; asolve|].
    intros _. split; [intros Hok; lia | intros _; exact E].
  - destruct (mm_malloc_brk _ _ _ _ _ _ _ W Hn E) as (Hbrk & _).
    destruct (mm_malloc_cases _ _ _ _ _ _ _ W Hn E)
      as [(_ & Hno & Hroom & Est & Ep)
         |(b & s & k1 & k2 & j1 & j2 & _ & Ek & _ & Hfit & Ep & _)].
    + fold r in Hno, Hroom, Est.
      specialize (Hno _ _ (or_introl eq_refl)).
      split; [intros Hle; exfalso; asolve|].
      intros _. split; [|intros Hex; lia].
      intros _. exists st'. rewrite <- Ep. split; [exact E|].
      rewrite Est. cbn [append heap_size mem_brk]. split; reflexivity.
    + fold r in Hfit. destruct (Hone _ _ _ _ Ek) as (Eb & Es).
      rewrite Eb in Ep. rewrite Es in Hfit.
      split; [|intros Hlt; lia].
      intros _. exists st'. rewrite <- Ep. split; [exact E|].
      assert (Hg : heap_size st' - heap_size st = 0).
      { remember (heap_size st' - heap_size st) as g eqn:Eg.
        destruct Hstep as [_ Hno | | ]; [|reflexivity | reflexivity].
        specialize (Hno _ _ (or_introl eq_refl)). fold r in Hno. lia. }
      split; lia.
Qed.

End AllocatorProofs.

(** * The properties on the concrete heaps *)

Lemma lo_pos : 0 < lo. Proof. reflexivity. Qed.
Lemma lo_aligned : lo mod ALIGNMENT = 0. Proof. reflexivity. Qed.
Lemma mx_long : mx < LONG_HALF. Proof. reflexivity. Qed.
Lemma mx_no_wrap : lo + mx < ULONG_MOD. Proof. reflexivity. Qed.

Lemma empty_free_list st b : free_list_head st = NULL -> ~ in_free_list st b.
Proof. intros E H. induction H; congruence. Qed.

Lemma sB0_reachable limit : reachable lo mx limit sB0 [].
Proof. apply reach_init. vm_compute. split; discriminate. Qed.

Lemma sB1_reachable limit : 64 <= limit -> reachable lo mx limit sB1 [ptr_a].
Proof.
  intros H.
  exact (reach_malloc lo mx limit sB0 [] fuel8 64 sB1 ptr_a
           (sB0_reachable limit) (conj (Z.lt_le_incl 0 64 eq_refl) H) eq_refl).
Qed.

Lemma sB2_reachable limit :
  64 <= limit -> reachable lo mx limit sB2 [ptr_b; ptr_a].
Proof.
  intros H.
  exact (reach_malloc lo mx limit sB1 [ptr_a] fuel8 64 sB2 ptr_b
           (sB1_reachable limit H) (conj (Z.lt_le_incl 0 64 eq_refl) H) eq_refl).
Qed.

Lemma sB3_reachable limit : 64 <= limit -> reachable lo mx limit sB3 [ptr_b].
Proof.
  intros H.
  exact (reach_free lo mx limit sB2 [ptr_b; ptr_a] ptr_a
           (sB2_reachable limit H) (or_intror (or_introl eq_refl))).
Qed.

Lemma sF_reachable limit : 64 <= limit -> reachable lo mx limit sF [].
Proof.
  intros H.
  exact (reach_free lo mx limit sB1 [ptr_a] ptr_a
           (sB1_reachable limit H) (or_introl eq_refl)).
Qed.

Lemma max_request_64 : 64 <= MAX_REQUEST.
Proof. vm_compute. discriminate. Qed.

Lemma sB1_heap_ok : heap_ok lo mx sB1.
Proof.
  exact (reachable_heap_ok lo mx lo_pos lo_aligned mx_long mx_no_wrap sB1 [ptr_a]
           (sB1_reachable MAX_REQUEST max_request_64)).
Qed.

Lemma sB3_heap_ok : heap_ok lo mx sB3.
Proof.
  exact (reachable_heap_ok lo mx lo_pos lo_aligned mx_long mx_no_wrap sB3 [ptr_b]
           (sB3_reachable MAX_REQUEST max_request_64)).
Qed.

Lemma sF_heap_ok : heap_ok lo mx sF.
Proof.
  exact (reachable_heap_ok lo mx lo_pos lo_aligned mx_long mx_no_wrap sF []
           (sF_reachable MAX_REQUEST max_request_64)).
Qed.

Lemma sB3_first : in_chain lo sB3 lo.
Proof. apply (in_chain_first lo sB3). vm_compute. discriminate. Qed.

Lemma sB3_second : in_chain lo sB3 (ptr_b - 16).
Proof.
  apply (in_chain_next lo sB3 lo sB3_first). vm_compute. discriminate.
Qed.

(** The block at [lo] of [sB2] is allocated: [coalesce] leaves the state
    alone. *)
Lemma coalesce_not_free_noop_witness :
  (lo = NULL \/ 0 <= get_size (mem sB2) lo) /\ coalesce lo sB2 lo = sB2.
Proof.
  assert (H : lo = NULL \/ 0 <= get_size (mem sB2) lo)
    by (right; vm_compute; discriminate).
  split; [exact H | exact (coalesce_not_free_noop lo sB2 lo H)].
Defined.

(** Freeing [b] in [sB3], where its predecessor is free: the predecessor
    ends with the stored size [-64 + -64 - 16]. *)
Lemma coalesce_merged_size_witness :
  heap_ok lo mx sB3 /\ in_chain lo sB3 (ptr_b - 16) /\
  0 < get_size (mem sB3) (ptr_b - 16) /\
  get_size (mem (mm_free lo sB3 ptr_b)) lo = -64 + -64 - 16.
Proof.
  assert (H : 0 < get_size (mem sB3) (ptr_b - 16)) by reflexivity.
  split; [exact sB3_heap_ok|]. split; [exact sB3_second|]. split; [exact H|].
  exact (proj1 (coalesce_merged_size lo mx lo_pos lo_aligned mx_long mx_no_wrap
                  sB3 ptr_b sB3_heap_ok sB3_second H)).
Defined.

(** A request of 16 bytes in [sF], whose only block is free with capacity
    64: the block is split. *)
Lemma malloc_split_witness :
  heap_ok lo mx sF /\
  searchFreeList fuel8 sF (to_ulong (round_request 16)) = Some lo /\
  ALIGNMENT * ((16 + ALIGNMENT - 1) / ALIGNMENT) + sizeof_BlockInfo
    < - get_size (mem sF) lo /\
  exists st', mm_malloc lo mx fuel8 sF 16 = Returns st' (lo + 16) /\
              get_size (mem st') lo = 16 /\
              get_size (mem st') (lo + 32) = -32 /\
              free_list_head st' = lo + 32 /\
              malloc_list_tail st' = lo + 32.
Proof.
  assert (H1 : 0 < 16) by reflexivity.
  assert (H2 : searchFreeList fuel8 sF (to_ulong (round_request 16)) = Some lo)
    by reflexivity.
  assert (H3 : lo <> NULL) by discriminate.
  assert (H4 : ALIGNMENT * ((16 + ALIGNMENT - 1) / ALIGNMENT) + sizeof_BlockInfo
               < - get_size (mem sF) lo) by reflexivity.
  split; [exact sF_heap_ok|]. split; [exact H2|]. split; [exact H4|].
  destruct (malloc_split lo mx lo_pos lo_aligned mx_long mx_no_wrap
              sF 16 fuel8 lo sF_heap_ok H1 H2 H3 H4)
    as (E & _ & Eb & _ & Ef & _ & _ & _ & Eh & Et & _).
  eexists. split; [exact E|]. split; [exact Eb|]. split; [exact Ef|].
  split; [exact Eh | exact Et].
Defined.

(** Freeing [b] in [sB3]: the merged block at [lo] is free and heads the
    free list. *)
Lemma free_leaves_no_adjacent_free_witness :
  reachable lo mx MAX_REQUEST sB3 [ptr_b] /\ In ptr_b [ptr_b] /\
  in_chain lo sB4 lo /\ get_size (mem sB4) lo < 0 /\
  exists fl, dll (mem sB4) NULL (free_list_head sB4) fl /\
             free_list_head sB4 = lo /\ count_occ Z.eq_dec fl lo = 1%nat.
Proof.
  assert (H : In ptr_b [ptr_b]) by (left; reflexivity).
  split; [exact (sB3_reachable MAX_REQUEST max_request_64)|]. split; [exact H|].
  destruct (free_leaves_no_adjacent_free lo mx lo_pos lo_aligned mx_long
              mx_no_wrap sB3 [ptr_b] ptr_b
              (sB3_reachable MAX_REQUEST max_request_64) H)
    as (_ & Hc & Hs & _ & _ & Hfl).
  split; [exact Hc|]. split; [exact Hs | exact Hfl].
Defined.

(** In [sB3] the block at [lo] is free and in the free list. *)
Lemma free_list_iff_negative_witness :
  reachable lo mx MAX_REQUEST sB3 [ptr_b] /\
  (in_free_list sB3 lo <-> in_chain lo sB3 lo /\ get_size (mem sB3) lo < 0) /\
  (in_chain lo sB3 lo -> 0 < get_size (mem sB3) lo -> ~ in_free_list sB3 lo).
Proof.
  split; [exact (sB3_reachable MAX_REQUEST max_request_64)|].
  exact (free_list_iff_negative lo mx lo_pos lo_aligned mx_long mx_no_wrap
           sB3 [ptr_b] lo (sB3_reachable MAX_REQUEST max_request_64)).
Defined.

(** The first [alloc(64)] after [init()]. *)
Lemma malloc_rounds_and_aligns_witness :
  reachable lo mx MAX_REQUEST sB0 [] /\ 0 < 64 <= MAX_REQUEST /\
  mm_malloc lo mx fuel8 sB0 64 = Returns sB1 ptr_a /\
  round_request 64 = 64 /\ ptr_a mod ALIGNMENT = 0 /\
  64 <= get_size (mem sB1) (ptr_a - sizeof_BlockInfo).
Proof.
  assert (H1 : 0 < 64 <= MAX_REQUEST) by (split; [reflexivity | exact max_request_64]).
  assert (H2 : mm_malloc lo mx fuel8 sB0 64 = Returns sB1 ptr_a) by reflexivity.
  split; [exact (sB0_reachable MAX_REQUEST)|]. split; [exact H1|]. split; [exact H2|].
  destruct (malloc_rounds_and_aligns lo mx lo_pos lo_aligned mx_long mx_no_wrap
              sB0 [] 64 fuel8 sB1 ptr_a (sB0_reachable MAX_REQUEST) H1 H2)
    as (Er & _ & _ & _ & Ea & _ & Es).
  split; [exact Er|]. split; [exact Ea | exact Es].
Defined.

(** A search for 64 bytes in [sB3]. *)
Lemma searchFreeList_contract_witness :
  heap_ok lo mx sB3 /\ 0 <= 64 <= LONG_HALF /\
  exists fuel b, searchFreeList fuel sB3 64 = Some b.
Proof.
  assert (H : 0 <= 64 <= LONG_HALF) by (split; discriminate).
  split; [exact sB3_heap_ok|]. split; [exact H|].
  exact (proj1 (searchFreeList_contract lo mx lo_pos lo_aligned sB3 64
                  sB3_heap_ok H)).
Defined.

Lemma scenario_B_wf (m0 : memory) (h t hs : Z) :
  wf lo mx (fst (scenario_B (mkState m0 h t hs 0)))
     [(lo, - (64 + 64 + 16))] [lo].
Proof.
  constructor; [constructor|..].
  - vm_compute. split; discriminate.
  - vm_compute. discriminate.
  - vm_compute. repeat split; discriminate.
  - reflexivity.
  - vm_compute. repeat split. discriminate.
  - constructor; [intros [] | constructor].
  - intros f [<-|[]]. eexists. left. reflexivity.
  - intros a. split.
    + intros [<-|[]]. eexists. split; [left; reflexivity | reflexivity].
    + intros (s & [E|[]] & _). inversion E. now left.
  - split; [|exact I]. intros [_ H]. vm_compute in H. discriminate.
Qed.

Lemma max_request_145 : 64 + 64 + 16 < 145 <= MAX_REQUEST.
Proof. split; [reflexivity | vm_compute; discriminate]. Qed.

(** C2, as the code has it: after scenario B, from any prior state whose
    arena is still unused, the coalesced free block at the start of the
    arena has capacity [64 + 64 + 16 = 144] and the heap size is 160.
    [alloc(0)] returns NULL and changes nothing.  Every request of [n]
    bytes with [0 < n <= 144], so [alloc(128)] and [alloc(136)] alike,
    returns [a] and leaves the heap size as it is.  Every request with
    [144 < n <= 2^63 - 16], so [alloc(145)], does not reuse the block:
    where the arena has room for [16 + round_request n] more bytes the
    heap grows by that much and the payload of a new block at its old end
    is returned, and where it has not the call exits. *)
Theorem scenario_B_reuse (m0 : memory) (h t hs n : Z) :
  let s := fst (scenario_B (mkState m0 h t hs 0)) in
  let a := snd (scenario_B (mkState m0 h t hs 0)) in
  (a = lo + 16 /\ heap_size s = 160 /\ free_list_head s = lo /\
   malloc_list_tail s = lo /\ get_size (mem s) lo = - (64 + 64 + 16)) /\
  mm_malloc lo mx fuel8 s 0 = Returns s NULL /\
  (0 < n <= 64 + 64 + 16 ->
   exists s', mm_malloc lo mx fuel8 s n = Returns s' a /\
              heap_size s' = heap_size s) /\
  (64 + 64 + 16 < n <= MAX_REQUEST ->
   (heap_size s + (16 + round_request n) <= mx ->
    exists s', mm_malloc lo mx fuel8 s n = Returns s' (lo + heap_size s + 16) /\
               heap_size s' = heap_size s + (16 + round_request n)) /\
   (mx < heap_size s + (16 + round_request n) ->
    mm_malloc lo mx fuel8 s n = Exits)).
Proof.
  intros s a.
  split; [vm_compute; repeat split|].
  split; [reflexivity|].
  pose proof (scenario_B_wf m0 h t hs) as W. fold s in W.
  assert (Ea : a = lo + 16) by reflexivity.
  assert (Eb : mem_brk s = heap_size s) by reflexivity.
  assert (Hf : (1 <= fuel8)%nat) by (unfold fuel8; lia).
  split.
  - intros Hn.
    assert (Hn' : 0 < n <= MAX_REQUEST) by (unfold MAX_REQUEST, LONG_HALF; lia).
    destruct (proj1 (one_free_block_requests lo mx lo_pos lo_aligned mx_long
                       mx_no_wrap s (64 + 64 + 16) n fuel8 W eq_refl Hf Hn')
                (proj2 Hn)) as (s' & E & Eh & _).
    exists s'. rewrite Ea. split; [exact E | exact Eh].
  - intros Hn.
    assert (Hn' : 0 < n <= MAX_REQUEST) by lia.
    destruct (proj2 (one_free_block_requests lo mx lo_pos lo_aligned mx_long
                       mx_no_wrap s (64 + 64 + 16) n fuel8 W eq_refl Hf Hn')
                (proj1 Hn)) as (G1 & G2).
    rewrite Eb in G1, G2. split.
    + intros Hroom. destruct (G1 Hroom) as (s' & E & Eh & _).
      exists s'. split; [exact E | exact Eh].
    + exact G2.
Qed.

(** The requests of 136 and of 145 bytes after scenario B from the fresh
    state. *)
Lemma scenario_B_reuse_witness :
  0 < 136 <= 64 + 64 + 16 /\ 64 + 64 + 16 < 145 <= MAX_REQUEST /\
  heap_size (fst (scenario_B fresh)) + (16 + round_request 145) <= mx /\
  (exists s', mm_malloc lo mx fuel8 (fst (scenario_B fresh)) 136
              = Returns s' (snd (scenario_B fresh)) /\
              heap_size s' = heap_size (fst (scenario_B fresh))) /\
  (exists s', mm_malloc lo mx fuel8 (fst (scenario_B fresh)) 145
              = Returns s' (lo + heap_size (fst (scenario_B fresh)) + 16) /\
              heap_size s'
              = heap_size (fst (scenario_B fresh)) + (16 + round_request 145)).
Proof.
  assert (H1 : 0 < 136 <= 64 + 64 + 16) by (split; [reflexivity | discriminate]).
  assert (H2 : heap_size (fst (scenario_B fresh)) + (16 + round_request 145) <= mx)
    by (vm_compute; discriminate).
  split; [exact H1|]. split; [exact max_request_145|]. split; [exact H2|].
  split.
  - exact (proj1 (proj2 (proj2 (scenario_B_reuse (fun _ => 0) 0 0 0 136))) H1).
  - exact (proj1 (proj2 (proj2 (proj2 (scenario_B_reuse (fun _ => 0) 0 0 0 145)))
                   max_request_145) H2).
Defined.

(** Scenario B, the request of 136 bytes alone: after scenario B, [alloc(136)] returns [a]
    again and the arena has not grown. *)
Lemma scenario_B_alloc_136_reuses :
  mm_malloc lo mx fuel8 sB4 136 = Returns sB5 ptr_a /\
  heap_size sB5 = heap_size sB4 /\
  ~ (heap_size sB4 < heap_size sB5).
Proof. split; [reflexivity|]. split; [reflexivity|]. vm_compute. discriminate. Qed.

Lemma size_max_64 : 64 <= SIZE_MAX.
Proof. vm_compute. discriminate. Qed.

Lemma sH_reachable : reachable lo mx SIZE_MAX sH [ptr_a; ptr_a].
Proof.
  refine (reach_malloc lo mx SIZE_MAX sB1 [ptr_a] fuel8 huge sH ptr_a
            (sB1_reachable SIZE_MAX size_max_64) _ eq_refl).
  vm_compute. split; discriminate.
Qed.

(** C3: after
    [init(); a = alloc(64); alloc(2^64 - 64)] the block at the start of
    the arena has a negative stored size and is not in the free list. *)
Theorem negative_block_outside_free_list :
  reachable lo mx SIZE_MAX sH [ptr_a; ptr_a] /\
  in_chain lo sH lo /\ get_size (mem sH) lo < 0 /\ ~ in_free_list sH lo.
Proof.
  split; [exact sH_reachable|]. split.
  - apply (in_chain_first lo sH). vm_compute. discriminate.
  - split; [reflexivity|]. apply empty_free_list. reflexivity.
Qed.

Lemma sG4_reachable : reachable lo mx SIZE_MAX sG4 [ptr_c; ptr_b; ptr_b].
Proof.
  assert (H0 : reachable lo mx SIZE_MAX sG0 [ptr_b; ptr_a]).
  { refine (reach_write lo mx SIZE_MAX sB2 [ptr_b; ptr_a] ptr_b ptr_b 0
              (sB2_reachable SIZE_MAX size_max_64) (or_introl eq_refl) _ _);
      vm_compute; discriminate. }
  assert (H1 : reachable lo mx SIZE_MAX sG1 [ptr_b; ptr_a]).
  { refine (reach_write lo mx SIZE_MAX sG0 [ptr_b; ptr_a] ptr_b (ptr_b + 8) 0
              H0 (or_introl eq_refl) _ _);
      vm_compute; discriminate. }
  assert (H2 : reachable lo mx SIZE_MAX sG2 [ptr_b]).
  { exact (reach_free lo mx SIZE_MAX sG1 [ptr_b; ptr_a] ptr_a H1
             (or_intror (or_introl eq_refl))). }
  assert (H3 : reachable lo mx SIZE_MAX sG3 [ptr_b; ptr_b]).
  { refine (reach_malloc lo mx SIZE_MAX sG2 [ptr_b] fuel8 huge sG3 ptr_b
              H2 _ eq_refl).
    vm_compute. split; discriminate. }
  refine (reach_malloc lo mx SIZE_MAX sG3 [ptr_b; ptr_b] fuel8 80 sG4 ptr_c
            H3 _ eq_refl).
  vm_compute. split; discriminate.
Qed.

(** C1: the state after
    [init(); a = alloc(64); b = alloc(64); memset(b, 0, 16); free(a);
    alloc(2^64 - 64); c = alloc(80); free(c)], whose last call is a free
    of a pointer the client holds: the first two blocks of the chain are
    both free. *)
Theorem adjacent_free_after_free :
  reachable lo mx SIZE_MAX sG4 [ptr_c; ptr_b; ptr_b] /\
  In ptr_c [ptr_c; ptr_b; ptr_b] /\
  in_chain lo (mm_free lo sG4 ptr_c) lo /\
  get_size (mem (mm_free lo sG4 ptr_c)) lo < 0 /\
  next_block lo (mm_free lo sG4 ptr_c) lo <> NULL /\
  get_size (mem (mm_free lo sG4 ptr_c))
           (next_block lo (mm_free lo sG4 ptr_c) lo) < 0.
Proof.
  split; [exact sG4_reachable|]. split; [now left|]. split.
  - apply (in_chain_first lo (mm_free lo sG4 ptr_c)). vm_compute. discriminate.
  - split; [reflexivity|]. split; [vm_compute; discriminate | reflexivity].
Qed.

(** C5: [alloc(SIZE_MAX)] after
    [init()] returns a payload, yet the size it has computed is 0, which
    is below the request, and the block it has created stores 0. *)
Theorem malloc_size_max_not_rounded_up :
  reachable lo mx SIZE_MAX sB0 [] /\ 0 < SIZE_MAX /\
  mm_malloc lo mx fuel8 sB0 SIZE_MAX = Returns sZ (lo + 16) /\
  lo + 16 <> NULL /\
  round_request SIZE_MAX = 0 /\ ~ (SIZE_MAX <= round_request SIZE_MAX) /\
  get_size (mem sZ) lo = 0.
Proof.
  split; [exact (sB0_reachable SIZE_MAX)|]. split; [reflexivity|].
  split; [reflexivity|]. split; [discriminate|]. split; [reflexivity|].
  split; [vm_compute; intros H; apply H; reflexivity | reflexivity].
Qed.

(** C7: in the well-formed heap after
    [init(); alloc(64)], the search for the aligned size [2^64 - 64]
    returns the chain tail, an allocated block of capacity 64. *)
Theorem searchFreeList_returns_allocated_tail :
  heap_ok lo mx sB1 /\ huge mod ALIGNMENT = 0 /\ 0 <= huge < ULONG_MOD /\
  searchFreeList fuel8 sB1 huge = Some lo /\ lo <> NULL /\
  0 < get_size (mem sB1) lo /\ get_size (mem sB1) lo < huge /\
  ~ in_free_list sB1 lo.
Proof.
  split; [exact sB1_heap_ok|]. split; [reflexivity|].
  split; [split; [discriminate | reflexivity]|].
  split; [reflexivity|]. split; [discriminate|]. split; [reflexivity|].
  split; [reflexivity|]. apply empty_free_list. reflexivity.
Qed.

(** * Further properties: the free-list primitives *)

(** X22: [insertFreeBlock] puts a new member at the head of a well-linked
    list, and [removeFreeBlock] of that member gives back the list as it
    was, with its former head. *)
Theorem insert_then_remove_restores (st : State) (fl : list Z) (f : Z) :
  dll (mem st) NULL (free_list_head st) fl -> NoDup fl ->
  (forall g, In g fl -> node_ok g) ->
  node_ok f -> f <> NULL -> ~ In f fl ->
  let st1 := insertFreeBlock st f in
  let st2 := removeFreeBlock st1 f in
  dll (mem st1) NULL (free_list_head st1) (f :: fl) /\
  free_list_head st1 = f /\
  dll (mem st2) NULL (free_list_head st2) fl /\
  free_list_head st2 = free_list_head st.
Proof.
  intros D N Hok Hf Hnn Hout. cbv zeta.
  pose proof (insertFreeBlock_dll lo st fl f D N Hnn Hout Hf Hok) as D1.
  assert (N1 : NoDup ([] ++ f :: fl)) by (constructor; assumption).
  assert (Hok1 : forall g, In g ([] ++ f :: fl) -> node_ok g)
    by (intros g [<-|Hg]; auto).
  pose proof (removeFreeBlock_dll lo (insertFreeBlock st f) [] f fl D1 N1 Hok1)
    as D2.
  cbn [app] in D2.
  split; [exact D1|]. split; [apply (insertFreeBlock_fields st f Hnn)|].
  split; [exact D2|].
  rewrite (dll_hd _ _ _ _ D2). symmetry. apply (dll_hd _ _ _ _ D).
Qed.

(** X23: [removeFreeBlock] of a member of a well-linked list unlinks that
    member and keeps the others in their order; it writes only to link
    cells of the members that stay, and leaves the chain tail and the
    arena alone. *)
Theorem remove_keeps_the_others (st : State) (l1 : list Z) (f : Z) (l2 : list Z) :
  dll (mem st) NULL (free_list_head st) (l1 ++ f :: l2) ->
  NoDup (l1 ++ f :: l2) ->
  (forall g, In g (l1 ++ f :: l2) -> node_ok g) ->
  let st' := removeFreeBlock st f in
  dll (mem st') NULL (free_list_head st') (l1 ++ l2) /\
  (forall c, (forall g, In g (l1 ++ l2) -> c <> g + 16 /\ c <> g + 24) ->
     mem st' c = mem st c) /\
  malloc_list_tail st' = malloc_list_tail st /\
  heap_size st' = heap_size st /\ mem_brk st' = mem_brk st.
Proof.
  intros D N Hok. cbv zeta.
  split; [now apply (removeFreeBlock_dll lo)|]. split.
  - intros c Hc. now apply (removeFreeBlock_frame st l1 f l2 c D).
  - destruct (removeFreeBlock_arena st f) as (E1 & E2 & E3). auto.
Qed.

(** * Further properties on the concrete heaps *)

Lemma sB3_free : in_free_list sB3 lo.
Proof. apply (in_free_list_head sB3). vm_compute. discriminate. Qed.

Lemma sB2_heap_ok : heap_ok lo mx sB2.
Proof.
  exact (reachable_heap_ok lo mx lo_pos lo_aligned mx_long mx_no_wrap sB2
           [ptr_b; ptr_a] (sB2_reachable MAX_REQUEST max_request_64)).
Qed.

Lemma sF_dll : dll (mem sF) NULL (free_list_head sF) ([] ++ lo :: []).
Proof. vm_compute. repeat split. discriminate. Qed.

Lemma node_ok_lo : node_ok lo.
Proof. split; [reflexivity | split; [discriminate | reflexivity]]. Qed.

(** The first block of [sB3] is followed at once by the second. *)
Lemma reachable_blocks_tile_witness :
  reachable lo mx MAX_REQUEST sB3 [ptr_b] /\ in_chain lo sB3 lo /\
  next_block lo sB3 lo = lo + 16 + 64.
Proof.
  split; [exact (sB3_reachable MAX_REQUEST max_request_64)|].
  split; [exact sB3_first|].
  destruct (reachable_blocks_tile lo mx lo_pos lo_aligned mx_long mx_no_wrap
              sB3 [ptr_b] lo (sB3_reachable MAX_REQUEST max_request_64)
              sB3_first) as (_ & _ & _ & _ & _ & E).
  exact E.
Defined.

(** The second block of [sB3] points back to the first, and is the tail. *)
Lemma chain_links_consistent_witness :
  reachable lo mx MAX_REQUEST sB3 [ptr_b] /\ in_chain lo sB3 (ptr_b - 16) /\
  (next_block lo sB3 (ptr_b - 16) = NULL <-> ptr_b - 16 = malloc_list_tail sB3).
Proof.
  split; [exact (sB3_reachable MAX_REQUEST max_request_64)|].
  split; [exact sB3_second|].
  destruct (chain_links_consistent lo mx lo_pos lo_aligned mx_long mx_no_wrap
              sB3 [ptr_b] (ptr_b - 16)
              (sB3_reachable MAX_REQUEST max_request_64) sB3_second)
    as (_ & _ & _ & E).
  exact E.
Defined.

(** The only member of the free list of [sB3] is its head. *)
Lemma free_list_links_consistent_witness :
  reachable lo mx MAX_REQUEST sB3 [ptr_b] /\ in_free_list sB3 lo /\
  (get_prevFree (mem sB3) lo = NULL <-> lo = free_list_head sB3).
Proof.
  split; [exact (sB3_reachable MAX_REQUEST max_request_64)|].
  split; [exact sB3_free|].
  destruct (free_list_links_consistent lo mx lo_pos lo_aligned mx_long
              mx_no_wrap sB3 [ptr_b] lo
              (sB3_reachable MAX_REQUEST max_request_64) sB3_free)
    as (E & _).
  exact E.
Defined.

(** The payload of [sB1], the only one the client holds there, and the
    two payloads of [sB2]. *)
Lemma live_payloads_disjoint_witness :
  (reachable lo mx MAX_REQUEST sB1 [ptr_a] /\ In ptr_a [ptr_a] /\
   0 < get_size (mem sB1) (ptr_a - sizeof_BlockInfo) /\
   ptr_a mod ALIGNMENT = 0 /\
   ptr_a + get_size (mem sB1) (ptr_a - sizeof_BlockInfo)
     <= lo + heap_size sB1) /\
  (reachable lo mx MAX_REQUEST sB2 [ptr_b; ptr_a] /\
   In ptr_a [ptr_b; ptr_a] /\ In ptr_b [ptr_b; ptr_a] /\ ptr_a <> ptr_b /\
   (ptr_a + get_size (mem sB2) (ptr_a - sizeof_BlockInfo)
      <= ptr_b - sizeof_BlockInfo \/
    ptr_b + get_size (mem sB2) (ptr_b - sizeof_BlockInfo)
      <= ptr_a - sizeof_BlockInfo)).
Proof.
  assert (H0 : In ptr_a [ptr_a]) by (left; reflexivity).
  assert (H1 : In ptr_a [ptr_b; ptr_a]) by (right; left; reflexivity).
  assert (H2 : In ptr_b [ptr_b; ptr_a]) by (left; reflexivity).
  assert (H3 : ptr_a <> ptr_b) by (vm_compute; discriminate).
  split.
  - split; [exact (sB1_reachable MAX_REQUEST max_request_64)|].
    split; [exact H0|].
    destruct (live_payloads_disjoint lo mx lo_pos lo_aligned mx_long mx_no_wrap
                sB1 [ptr_a] ptr_a
                (sB1_reachable MAX_REQUEST max_request_64) H0)
      as (E1 & E2 & _ & E4 & _).
    split; [exact E1|]. split; [exact E2 | exact E4].
  - split; [exact (sB2_reachable MAX_REQUEST max_request_64)|].
    split; [exact H1|]. split; [exact H2|]. split; [exact H3|].
    destruct (live_payloads_disjoint lo mx lo_pos lo_aligned mx_long mx_no_wrap
                sB2 [ptr_b; ptr_a] ptr_a
                (sB2_reachable MAX_REQUEST max_request_64) H1)
      as (_ & _ & _ & _ & _ & E).
    exact (E ptr_b H2 H3).
Defined.

(** The second [alloc(64)] of scenario B. *)
Lemma malloc_returns_fresh_block_witness :
  reachable lo mx MAX_REQUEST sB1 [ptr_a] /\ 0 < 64 <= MAX_REQUEST /\
  mm_malloc lo mx fuel8 sB1 64 = Returns sB2 ptr_b /\ ~ In ptr_b [ptr_a].
Proof.
  assert (H1 : 0 < 64 <= MAX_REQUEST)
    by (split; [reflexivity | exact max_request_64]).
  assert (H2 : mm_malloc lo mx fuel8 sB1 64 = Returns sB2 ptr_b) by reflexivity.
  split; [exact (sB1_reachable MAX_REQUEST max_request_64)|].
  split; [exact H1|]. split; [exact H2|].
  exact (proj1 (malloc_returns_fresh_block lo mx lo_pos lo_aligned mx_long
                  mx_no_wrap sB1 [ptr_a] 64 fuel8 sB2 ptr_b
                  (sB1_reachable MAX_REQUEST max_request_64) H1 H2)).
Defined.

Lemma malloc_slack_bounded_witness :
  reachable lo mx MAX_REQUEST sB1 [ptr_a] /\ 0 < 64 <= MAX_REQUEST /\
  mm_malloc lo mx fuel8 sB1 64 = Returns sB2 ptr_b /\
  (get_size (mem sB2) (ptr_b - sizeof_BlockInfo) = round_request 64 \/
   get_size (mem sB2) (ptr_b - sizeof_BlockInfo)
     = round_request 64 + sizeof_BlockInfo).
Proof.
  assert (H1 : 0 < 64 <= MAX_REQUEST)
    by (split; [reflexivity | exact max_request_64]).
  assert (H2 : mm_malloc lo mx fuel8 sB1 64 = Returns sB2 ptr_b) by reflexivity.
  split; [exact (sB1_reachable MAX_REQUEST max_request_64)|].
  split; [exact H1|]. split; [exact H2|].
  exact (malloc_slack_bounded lo mx lo_pos lo_aligned mx_long mx_no_wrap
           sB1 [ptr_a] 64 fuel8 sB2 ptr_b
           (sB1_reachable MAX_REQUEST max_request_64) H1 H2).
Defined.

(** The free list of [sB1] is empty: the second [alloc(64)] extends the
    arena by 80 bytes. *)
Lemma malloc_grows_only_without_fit_witness :
  reachable lo mx MAX_REQUEST sB1 [ptr_a] /\ 0 < 64 <= MAX_REQUEST /\
  mm_malloc lo mx fuel8 sB1 64 = Returns sB2 ptr_b /\
  heap_size sB2 = heap_size sB1 + (sizeof_BlockInfo + round_request 64).
Proof.
  assert (H1 : 0 < 64 <= MAX_REQUEST)
    by (split; [reflexivity | exact max_request_64]).
  assert (H2 : mm_malloc lo mx fuel8 sB1 64 = Returns sB2 ptr_b) by reflexivity.
  split; [exact (sB1_reachable MAX_REQUEST max_request_64)|].
  split; [exact H1|]. split; [exact H2|].
  destruct (malloc_grows_only_without_fit lo mx lo_pos lo_aligned mx_long
              mx_no_wrap sB1 [ptr_a] 64 fuel8 sB2 ptr_b
              (sB1_reachable MAX_REQUEST max_request_64) H1 H2) as (_ & G).
  apply G. intros f Hf. exfalso.
  exact (empty_free_list sB1 f eq_refl Hf).
Defined.

Lemma malloc_grow_path_witness :
  heap_ok lo mx sB1 /\ 0 < 64 <= MAX_REQUEST /\
  searchFreeList fuel8 sB1 (to_ulong (round_request 64)) = Some NULL /\
  mem_brk sB1 + (sizeof_BlockInfo + round_request 64) <= mx /\
  exists st', mm_malloc lo mx fuel8 sB1 64
              = Returns st' (lo + heap_size sB1 + sizeof_BlockInfo) /\
              malloc_list_tail st' = lo + heap_size sB1.
Proof.
  assert (H1 : 0 < 64 <= MAX_REQUEST)
    by (split; [reflexivity | exact max_request_64]).
  assert (H2 : searchFreeList fuel8 sB1 (to_ulong (round_request 64)) = Some NULL)
    by reflexivity.
  assert (H3 : mem_brk sB1 + (sizeof_BlockInfo + round_request 64) <= mx)
    by (vm_compute; discriminate).
  split; [exact sB1_heap_ok|]. split; [exact H1|]. split; [exact H2|].
  split; [exact H3|].
  destruct (proj2 (malloc_grow_path lo mx lo_pos lo_aligned mx_long mx_no_wrap
                     sB1 64 fuel8 sB1_heap_ok H1 H2) H3)
    as (st' & E & _ & _ & Et & _).
  exists st'. split; [exact E | exact Et].
Defined.

(** A request of 64 bytes in [sF], whose only block is free with capacity
    64: the block is handed out whole. *)
Lemma malloc_exact_fit_witness :
  heap_ok lo mx sF /\ 0 < 64 <= MAX_REQUEST /\
  searchFreeList fuel8 sF (to_ulong (round_request 64)) = Some lo /\
  - get_size (mem sF) lo <= round_request 64 + sizeof_BlockInfo /\
  exists st', mm_malloc lo mx fuel8 sF 64 = Returns st' (lo + sizeof_BlockInfo) /\
              get_size (mem st') lo = - get_size (mem sF) lo.
Proof.
  assert (H1 : 0 < 64 <= MAX_REQUEST)
    by (split; [reflexivity | exact max_request_64]).
  assert (H2 : searchFreeList fuel8 sF (to_ulong (round_request 64)) = Some lo)
    by reflexivity.
  assert (H3 : lo <> NULL) by discriminate.
  assert (H4 : - get_size (mem sF) lo <= round_request 64 + sizeof_BlockInfo)
    by (vm_compute; discriminate).
  split; [exact sF_heap_ok|]. split; [exact H1|]. split; [exact H2|].
  split; [exact H4|].
  destruct (malloc_exact_fit lo mx lo_pos lo_aligned mx_long mx_no_wrap
              sF 64 fuel8 lo sF_heap_ok H1 H2 H3 H4) as (E & _ & Es & _).
  eexists. split; [exact E | exact Es].
Defined.

Lemma malloc_terminates_witness :
  heap_ok lo mx sB1 /\ 0 < 64 <= MAX_REQUEST /\
  exists fuel, forall fuel', (fuel <= fuel')%nat ->
    mm_malloc lo mx fuel' sB1 64 = mm_malloc lo mx fuel sB1 64.
Proof.
  assert (H1 : 0 < 64 <= MAX_REQUEST)
    by (split; [reflexivity | exact max_request_64]).
  split; [exact sB1_heap_ok|]. split; [exact H1|].
  destruct (malloc_terminates lo mx lo_pos lo_aligned mx_long mx_no_wrap
              sB1 64 sB1_heap_ok H1) as (fuel & E & _).
  exists fuel. exact E.
Defined.

(** [free(a)] in [sB2] leaves the cell right after the heap alone. *)
Lemma free_stays_inside_heap_witness :
  reachable lo mx MAX_REQUEST sB2 [ptr_b; ptr_a] /\ In ptr_a [ptr_b; ptr_a] /\
  ((lo + heap_size sB2) + 8 <= lo \/ lo + heap_size sB2 <= lo + heap_size sB2) /\
  mem (mm_free lo sB2 ptr_a) (lo + heap_size sB2) = mem sB2 (lo + heap_size sB2) /\
  heap_size (mm_free lo sB2 ptr_a) = heap_size sB2.
Proof.
  assert (H1 : In ptr_a [ptr_b; ptr_a]) by (right; left; reflexivity).
  assert (H2 : (lo + heap_size sB2) + 8 <= lo \/
               lo + heap_size sB2 <= lo + heap_size sB2)
    by (right; vm_compute; discriminate).
  split; [exact (sB2_reachable MAX_REQUEST max_request_64)|].
  split; [exact H1|]. split; [exact H2|].
  destruct (free_stays_inside_heap lo mx lo_pos lo_aligned mx_long mx_no_wrap
              sB2 [ptr_b; ptr_a] ptr_a (lo + heap_size sB2)
              (sB2_reachable MAX_REQUEST max_request_64) H1 H2)
    as (E1 & E2 & _).
  split; [exact E1 | exact E2].
Defined.

(** [free(a)] in [sB2], then a request of 64 bytes. *)
Lemma free_then_malloc_reuses_witness :
  reachable lo mx MAX_REQUEST sB2 [ptr_b; ptr_a] /\ In ptr_a [ptr_b; ptr_a] /\
  0 < 64 <= get_size (mem sB2) (ptr_a - sizeof_BlockInfo) /\
  exists fuel st' q,
    mm_malloc lo mx fuel (mm_free lo sB2 ptr_a) 64 = Returns st' q /\
    heap_size st' = heap_size sB2 /\ mem_brk st' = mem_brk sB2 /\
    q <> NULL /\
    in_free_list (mm_free lo sB2 ptr_a) (q - sizeof_BlockInfo) /\
    round_request 64
      <= - get_size (mem (mm_free lo sB2 ptr_a)) (q - sizeof_BlockInfo) /\
    in_chain lo st' (q - sizeof_BlockInfo) /\
    ~ in_free_list st' (q - sizeof_BlockInfo) /\
    64 <= get_size (mem st') (q - sizeof_BlockInfo).
Proof.
  assert (H1 : In ptr_a [ptr_b; ptr_a]) by (right; left; reflexivity).
  assert (H2 : 0 < 64 <= get_size (mem sB2) (ptr_a - sizeof_BlockInfo))
    by (split; [reflexivity | vm_compute; discriminate]).
  split; [exact (sB2_reachable MAX_REQUEST max_request_64)|].
  split; [exact H1|]. split; [exact H2|].
  exact (free_then_malloc_reuses lo mx lo_pos lo_aligned mx_long mx_no_wrap
           sB2 [ptr_b; ptr_a] ptr_a 64
           (sB2_reachable MAX_REQUEST max_request_64) H1 H2).
Defined.

(** A second [free(a)] in [sB3]. *)
Lemma double_free_marks_allocated_witness :
  heap_ok lo mx sB3 /\ in_free_list sB3 lo /\
  0 < get_size (mem (mm_free lo sB3 (lo + sizeof_BlockInfo))) lo /\
  in_free_list (mm_free lo sB3 (lo + sizeof_BlockInfo)) lo.
Proof.
  split; [exact sB3_heap_ok|]. split; [exact sB3_free|].
  destruct (double_free_marks_allocated lo mx lo_pos lo_aligned mx_long
              mx_no_wrap sB3 lo sB3_heap_ok sB3_free) as (_ & E1 & E2 & _).
  split; [exact E1 | exact E2].
Defined.

(** The second [alloc(64)] of scenario B leaves the first cell of the
    payload [a] alone. *)
Lemma malloc_preserves_live_payloads_witness :
  reachable lo mx MAX_REQUEST sB1 [ptr_a] /\ 0 <= 64 <= MAX_REQUEST /\
  mm_malloc lo mx fuel8 sB1 64 = Returns sB2 ptr_b /\ In ptr_a [ptr_a] /\
  ptr_a <= ptr_a < ptr_a + get_size (mem sB1) (ptr_a - sizeof_BlockInfo) /\
  mem sB2 ptr_a = mem sB1 ptr_a.
Proof.
  assert (H1 : 0 <= 64 <= MAX_REQUEST)
    by (split; [discriminate | exact max_request_64]).
  assert (H2 : mm_malloc lo mx fuel8 sB1 64 = Returns sB2 ptr_b) by reflexivity.
  assert (H3 : In ptr_a [ptr_a]) by (left; reflexivity).
  assert (H4 : ptr_a <= ptr_a
               < ptr_a + get_size (mem sB1) (ptr_a - sizeof_BlockInfo))
    by (split; [vm_compute; discriminate | reflexivity]).
  split; [exact (sB1_reachable MAX_REQUEST max_request_64)|].
  split; [exact H1|]. split; [exact H2|]. split; [exact H3|].
  split; [exact H4|].
  exact (malloc_preserves_live_payloads lo mx lo_pos lo_aligned mx_long
           mx_no_wrap sB1 [ptr_a] 64 fuel8 sB2 ptr_b ptr_a ptr_a
           (sB1_reachable MAX_REQUEST max_request_64) H1 H2 H3 H4).
Defined.

(** [free(a)] in [sB2] leaves the first cell of the payload [b] alone. *)
Lemma free_preserves_live_payloads_witness :
  reachable lo mx MAX_REQUEST sB2 [ptr_b; ptr_a] /\
  In ptr_a [ptr_b; ptr_a] /\ In ptr_b [ptr_b; ptr_a] /\ ptr_b <> ptr_a /\
  ptr_b <= ptr_b < ptr_b + get_size (mem sB2) (ptr_b - sizeof_BlockInfo) /\
  mem (mm_free lo sB2 ptr_a) ptr_b = mem sB2 ptr_b.
Proof.
  assert (H1 : In ptr_a [ptr_b; ptr_a]) by (right; left; reflexivity).
  assert (H2 : In ptr_b [ptr_b; ptr_a]) by (left; reflexivity).
  assert (H3 : ptr_b <> ptr_a) by (vm_compute; discriminate).
  assert (H4 : ptr_b <= ptr_b
               < ptr_b + get_size (mem sB2) (ptr_b - sizeof_BlockInfo))
    by (split; [vm_compute; discriminate | reflexivity]).
  split; [exact (sB2_reachable MAX_REQUEST max_request_64)|].
  split; [exact H1|]. split; [exact H2|]. split; [exact H3|].
  split; [exact H4|].
  exact (proj1 (free_preserves_live_payloads lo mx lo_pos lo_aligned mx_long
                  mx_no_wrap sB2 [ptr_b; ptr_a] ptr_a ptr_b ptr_b
                  (sB2_reachable MAX_REQUEST max_request_64) H1 H2 H3 H4)).
Defined.

Lemma check_heap_silent_witness :
  heap_ok lo mx sB3 /\
  exists fuel, forall fuel', (fuel <= fuel')%nat ->
    check_heap lo fuel' sB3 = Some ([], 0).
Proof.
  split; [exact sB3_heap_ok|].
  exact (check_heap_silent lo mx lo_pos lo_aligned mx_long mx_no_wrap
           sB3 sB3_heap_ok).
Defined.

(** [check_heap] on [sB3] prints nothing: the second block points back
    to the first. *)
Lemma check_heap_prev_links_witness :
  0 <= heap_size sB3 /\ lo + heap_size sB3 < ULONG_MOD /\
  check_heap lo fuel8 sB3 = Some ([], 0) /\
  (~ In PrevLinkNotCorrect [] <->
   (first_block lo sB3 <> NULL ->
    get_prev (mem sB3) (first_block lo sB3) = NULL) /\
   forall b, in_chain lo sB3 b -> next_block lo sB3 b <> NULL ->
     get_prev (mem sB3) (next_block lo sB3 b) = b).
Proof.
  assert (H1 : 0 <= heap_size sB3) by (vm_compute; discriminate).
  assert (H2 : lo + heap_size sB3 < ULONG_MOD) by reflexivity.
  assert (H3 : check_heap lo fuel8 sB3 = Some ([], 0)) by reflexivity.
  split; [exact H1|]. split; [exact H2|]. split; [exact H3|].
  exact (proj2 (check_heap_prev_links lo lo_pos sB3 fuel8 [] 0 H1 H2 H3)).
Defined.

(** A block at [lo + 4096] put in the free list of [sF] and taken out
    again. *)
Lemma insert_then_remove_restores_witness :
  dll (mem sF) NULL (free_list_head sF) [lo] /\ NoDup [lo] /\
  (forall g, In g [lo] -> node_ok g) /\ node_ok (lo + 4096) /\
  lo + 4096 <> NULL /\ ~ In (lo + 4096) [lo] /\
  free_list_head (removeFreeBlock (insertFreeBlock sF (lo + 4096)) (lo + 4096))
  = free_list_head sF.
Proof.
  assert (H1 : NoDup [lo]) by (constructor; [intros [] | constructor]).
  assert (H2 : forall g, In g [lo] -> node_ok g)
    by (intros g [<-|[]]; exact node_ok_lo).
  assert (H3 : node_ok (lo + 4096))
    by (split; [reflexivity | split; [discriminate | reflexivity]]).
  assert (H4 : lo + 4096 <> NULL) by discriminate.
  assert (H5 : ~ In (lo + 4096) [lo]) by (intros [E|[]]; discriminate E).
  split; [exact sF_dll|]. split; [exact H1|]. split; [exact H2|].
  split; [exact H3|]. split; [exact H4|]. split; [exact H5|].
  exact (proj2 (proj2 (proj2 (insert_then_remove_restores sF [lo] (lo + 4096)
                                sF_dll H1 H2 H3 H4 H5)))).
Defined.

(** The only member of the free list of [sF] taken out. *)
Lemma remove_keeps_the_others_witness :
  dll (mem sF) NULL (free_list_head sF) ([] ++ lo :: []) /\
  NoDup ([] ++ lo :: []) /\
  (forall g, In g ([] ++ lo :: []) -> node_ok g) /\
  dll (mem (removeFreeBlock sF lo)) NULL
      (free_list_head (removeFreeBlock sF lo)) ([] ++ []).
Proof.
  assert (H1 : NoDup ([] ++ lo :: [])) by (constructor; [intros [] | constructor]).
  assert (H2 : forall g, In g ([] ++ lo :: []) -> node_ok g)
    by (intros g [<-|[]]; exact node_ok_lo).
  split; [exact sF_dll|]. split; [exact H1|]. split; [exact H2|].
  exact (proj1 (remove_keeps_the_others sF [] lo [] sF_dll H1 H2)).
Defined.

(** A search for 64 bytes in [sB3], whose tail is allocated. *)
Lemma scan_returns_first_fit_witness :
  heap_ok lo mx sB3 /\ 0 <= 64 <= LONG_HALF /\
  ~ (malloc_list_tail sB3 <> NULL /\
     64 <= - get_size (mem sB3) (malloc_list_tail sB3)) /\
  searchFreeList fuel8 sB3 64 = Some lo /\
  exists l1 l2,
    dll (mem sB3) NULL (free_list_head sB3) (l1 ++ lo :: l2) /\
    64 <= - get_size (mem sB3) lo /\
    forall f, In f l1 -> - get_size (mem sB3) f < 64.
Proof.
  assert (H1 : 0 <= 64 <= LONG_HALF) by (split; discriminate).
  assert (H2 : ~ (malloc_list_tail sB3 <> NULL /\
                  64 <= - get_size (mem sB3) (malloc_list_tail sB3))).
  { intros [_ H]. apply H. reflexivity. }
  assert (H3 : searchFreeList fuel8 sB3 64 = Some lo) by reflexivity.
  assert (H4 : lo <> NULL) by discriminate.
  split; [exact sB3_heap_ok|]. split; [exact H1|]. split; [exact H2|].
  split; [exact H3|].
  exact (scan_returns_first_fit lo mx sB3 64 fuel8 lo sB3_heap_ok H1 H2 H3 H4).
Defined.

(** [free(a); free(b)] in [sB2], then a request of 144 bytes. *)
Lemma free_neighbours_then_malloc_reuses_witness :
  reachable lo mx MAX_REQUEST sB2 [ptr_b; ptr_a] /\
  In ptr_a [ptr_b; ptr_a] /\ In ptr_b [ptr_b; ptr_a] /\
  next_block lo sB2 (ptr_a - sizeof_BlockInfo) = ptr_b - sizeof_BlockInfo /\
  0 < 144 <= get_size (mem sB2) (ptr_a - sizeof_BlockInfo) + sizeof_BlockInfo
             + get_size (mem sB2) (ptr_b - sizeof_BlockInfo) /\
  exists fuel st' r,
    mm_malloc lo mx fuel (mm_free lo (mm_free lo sB2 ptr_a) ptr_b) 144
      = Returns st' r /\
    heap_size st' = heap_size sB2 /\ mem_brk st' = mem_brk sB2 /\
    r <> NULL /\
    in_free_list (mm_free lo (mm_free lo sB2 ptr_a) ptr_b)
                 (r - sizeof_BlockInfo) /\
    round_request 144
      <= - get_size (mem (mm_free lo (mm_free lo sB2 ptr_a) ptr_b))
                    (r - sizeof_BlockInfo) /\
    in_chain lo st' (r - sizeof_BlockInfo) /\
    ~ in_free_list st' (r - sizeof_BlockInfo) /\
    144 <= get_size (mem st') (r - sizeof_BlockInfo).
Proof.
  assert (H1 : In ptr_a [ptr_b; ptr_a]) by (right; left; reflexivity).
  assert (H2 : In ptr_b [ptr_b; ptr_a]) by (left; reflexivity).
  assert (H3 : next_block lo sB2 (ptr_a - sizeof_BlockInfo)
               = ptr_b - sizeof_BlockInfo) by reflexivity.
  assert (H4 : 0 < 144 <= get_size (mem sB2) (ptr_a - sizeof_BlockInfo)
                           + sizeof_BlockInfo
                           + get_size (mem sB2) (ptr_b - sizeof_BlockInfo))
    by (split; [reflexivity | vm_compute; discriminate]).
  split; [exact (sB2_reachable MAX_REQUEST max_request_64)|].
  split; [exact H1|]. split; [exact H2|]. split; [exact H3|].
  split; [exact H4|].
  exact (free_neighbours_then_malloc_reuses lo mx lo_pos lo_aligned
           mx_long mx_no_wrap sB2 [ptr_b; ptr_a] ptr_a ptr_b 144
           (sB2_reachable MAX_REQUEST max_request_64) H1 H2 H3 H4
           (mm_free lo (mm_free lo sB2 ptr_a) ptr_b) (or_introl eq_refl)).
Defined.

(** The first [alloc(64)] after [init()] in the fresh state. *)
Lemma malloc_after_init_witness :
  0 <= mem_brk fresh <= mx /\ 0 < 64 <= MAX_REQUEST /\
  mem_brk fresh + (sizeof_BlockInfo + round_request 64) <= mx /\
  exists st',
    mm_malloc lo mx fuel8 (fst (mm_init fresh)) 64
      = Returns st' (lo + sizeof_BlockInfo) /\
    heap_size st' = sizeof_BlockInfo + round_request 64.
Proof.
  assert (H1 : 0 <= mem_brk fresh <= mx) by (split; discriminate).
  assert (H2 : 0 < 64 <= MAX_REQUEST)
    by (split; [reflexivity | exact max_request_64]).
  assert (H3 : mem_brk fresh + (sizeof_BlockInfo + round_request 64) <= mx)
    by (vm_compute; discriminate).
  split; [exact H1|]. split; [exact H2|]. split; [exact H3|].
  destruct (proj1 (malloc_after_init lo mx lo_pos lo_aligned mx_long mx_no_wrap
                     fresh 64 fuel8 H1 H2) H3)
    as (st' & E & _ & _ & _ & _ & Eh & _).
  exists st'. split; [exact E | exact Eh].
Defined.

(** [alloc(16)] in [sF] splits the free block; freeing the pointer gives
    the block back. *)
Lemma malloc_then_free_restores_witness :
  heap_ok lo mx sF /\ 0 < 16 <= MAX_REQUEST /\
  mm_malloc lo mx fuel8 sF 16 = Returns sS (lo + 16) /\
  heap_size sS = heap_size sF /\
  (forall b, in_chain lo sF b ->
     get_size (mem (mm_free lo sS (lo + 16))) b = get_size (mem sF) b) /\
  free_list_head (mm_free lo sS (lo + 16)) = lo + 16 - sizeof_BlockInfo.
Proof.
  assert (H1 : 0 < 16 <= MAX_REQUEST)
    by (split; [reflexivity | vm_compute; discriminate]).
  assert (H2 : mm_malloc lo mx fuel8 sF 16 = Returns sS (lo + 16))
    by reflexivity.
  assert (H3 : heap_size sS = heap_size sF) by reflexivity.
  split; [exact sF_heap_ok|]. split; [exact H1|]. split; [exact H2|].
  split; [exact H3|].
  destruct (malloc_then_free_restores lo mx lo_pos lo_aligned mx_long
              mx_no_wrap sF 16 fuel8 sS (lo + 16) sF_heap_ok H1 H2 H3)
    as (_ & E1 & _ & E2 & _).
  split; [exact E1 | exact E2].
Defined.
